(** * stablecoin-globe: the request-coalescing cache layer

    A shallow embedding of [src/lib/cache.ts] (edge cache helpers, [dedup],
    [cacheKey], [snapToHour], [ttlForRange]) and of the API routes built on
    it ([/api/flows], [/api/bridges], [/api/wallet], [/api/prefetch]),
    followed by the properties the specification states about them.
    Beside these it embeds the client of the query engine in
    [src/lib/entities.ts] ([runQuery], [pollQueryStatus], [getQueryResults],
    [runQueryAndWait]), the cache in memory of the first routes, the hash
    of an address and the date fields of the page, with their properties.

    Conventions.
    - JavaScript strings are modelled as [string]; all strings the cache
      layer inspects (timestamps, parameter names, hex addresses) are ASCII.
    - JavaScript numbers that occur here are integers (epoch milliseconds,
      row counts, HTTP statuses) and are modelled as [Z].
    - A promise that is awaited settles with an [outcome]: a value or a
      thrown error. *)

From Stdlib Require Import ZArith QArith Lia List Ascii String Sorting.Permutation Sorting.Sorted.
From Stdlib Require Import Structures.OrderedTypeEx.
From stdpp Require Import gmap strings list pretty.

Set Warnings "-register-all".

Local Open Scope string_scope.
Local Open Scope Z_scope.

(* ===================================================================== *)
(** * Part I. The embedding *)
(* ===================================================================== *)

(** ** JavaScript values and string helpers *)

Module Js.

(** JSON payloads: what the upstream engine returns and what the routes
    send back or store in the edge cache. *)
Inductive json :=
| JNull
| JBool (b : bool)
| JNum (n : Z)
| JStr (s : string)
| JArr (items : list json)
| JObj (fields : list (string * json)).

(** A thrown value: an [Error] object with its name and message, or
    anything else. *)
Inductive thrown :=
| JsError (name message : string)
| NonError (v : json).

(** The way a promise settles. *)
Inductive outcome :=
| Fulfilled (v : json)
| Rejected (e : thrown).

(** [err instanceof Error ? err.message : "Unknown error"] *)
Definition error_message (e : thrown) : string :=
  match e with
  | JsError _ m => m
  | NonError _ => "Unknown error"
  end.

(** [new Error(message)] *)
Definition Error (message : string) : thrown := JsError "Error" message.

(** [String(v)] *)
Fixpoint String_of_json (v : json) : string :=
  match v with
  | JNull => "null"
  | JBool true => "true"
  | JBool false => "false"
  | JNum n => pretty n
  | JStr s => s
  | JArr items =>
      String.concat ","
        (map (fun x => match x with JNull => "" | _ => String_of_json x end) items)
  | JObj _ => "[object Object]"
  end.

Definition String_of_thrown (e : thrown) : string :=
  match e with
  | JsError name "" => name
  | JsError name message => name ++ ": " ++ message
  | NonError v => String_of_json v
  end.

(** ToBoolean on a JSON value. *)
Definition truthy (v : json) : bool :=
  match v with
  | JNull => false
  | JBool b => b
  | JNum n => negb (n =? 0)
  | JStr s => negb (String.eqb s "")
  | JArr _ => true
  | JObj _ => true
  end.

(** ToBoolean on a string that may be [null] ([searchParams.get],
    [process.env.X]). *)
Definition truthy_str (s : option string) : bool :=
  match s with
  | None => false
  | Some s => negb (String.eqb s "")
  end.

(** [a || b] where [a] may be [null] and [b] is a string. *)
Definition or_str (a : option string) (b : string) : string :=
  match a with
  | Some s => if String.eqb s "" then b else s
  | None => b
  end.

(** [s.slice(0, n)] *)
Definition slice0 (n : nat) (s : string) : string := String.substring 0 n s.

(** [s.replace(c, d)] for one-character [c], [d]: the first occurrence only. *)
Fixpoint replace_first (c d : ascii) (s : string) : string :=
  match s with
  | EmptyString => EmptyString
  | String a rest =>
      if Ascii.eqb a c then String d rest else String a (replace_first c d rest)
  end.

(** [s.toLowerCase()] on ASCII. *)
Definition lower_ascii (a : ascii) : ascii :=
  let n := nat_of_ascii a in
  if ((65 <=? n) && (n <=? 90))%nat then ascii_of_nat (n + 32) else a.

Fixpoint toLowerCase (s : string) : string :=
  match s with
  | EmptyString => EmptyString
  | String a rest => String (lower_ascii a) (toLowerCase rest)
  end.

(** [Array.prototype.sort(compareFn)]: a stable sort; an element goes
    before the first one it does not compare greater than. *)
Section Sort.
Context {A : Type} (compareFn : A -> A -> Z).

Fixpoint sort_insert (x : A) (l : list A) : list A :=
  match l with
  | [] => [x]
  | y :: l' => if compareFn x y <=? 0 then x :: y :: l' else y :: sort_insert x l'
  end.

Fixpoint Array_sort (l : list A) : list A :=
  match l with
  | [] => []
  | x :: l' => sort_insert x (Array_sort l')
  end.
End Sort.

(** Reading a property of a value that is not [null]; [None] is
    [undefined]. Objects have distinct keys. None of the names read here
    is a property of a string, a number or an array. *)
Definition prop (v : json) (name : string) : option json :=
  match v with
  | JObj fields =>
      match List.find (fun kv => String.eqb (fst kv) name) fields with
      | Some kv => Some (snd kv)
      | None => None
      end
  | _ => None
  end.

(** [a || b] where [a] may be [undefined]. *)
Definition or_json (a : option json) (b : json) : json :=
  match a with
  | Some v => if truthy v then v else b
  | None => b
  end.

(** [a || b || undefined] *)
Definition or_undefined (a b : option json) : option json :=
  match a with
  | Some v => if truthy v then Some v else
                match b with
                | Some v' => if truthy v' then Some v' else None
                | None => None
                end
  | None => match b with
            | Some v' => if truthy v' then Some v' else None
            | None => None
            end
  end.

(** A string of decimal digits as a number. *)
Fixpoint decimal (acc : Z) (s : string) : option Z :=
  match s with
  | EmptyString => Some acc
  | String a rest =>
      let n := nat_of_ascii a in
      if ((48 <=? n) && (n <=? 57))%nat then decimal (10 * acc + (Z.of_nat n - 48)) rest
      else None
  end.

(** [Number(v)]; [None] is [NaN]. Numbers are integers in this model: a
    string converts when it is a plain decimal integer; other numeric
    spellings and the conversion of arrays are left as [NaN]. *)
Definition ToNumber (v : json) : option Z :=
  match v with
  | JNull => Some 0
  | JBool b => Some (if b then 1 else 0)
  | JNum n => Some n
  | JStr s => decimal 0 s
  | JArr _ | JObj _ => None
  end.

(** [a + b] for numbers that may be [NaN]. The sum of two integers is
    the platform's as long as it stays within 2^53; the properties that
    state sums ask for that. *)
Definition num_add (a b : option Z) : option Z :=
  match a, b with
  | Some x, Some y => Some (x + y)
  | _, _ => None
  end.

(** [a < b]: strings by code units, anything else as numbers. *)
Definition js_lt (a b : json) : bool :=
  match a, b with
  | JStr x, JStr y => String.ltb x y
  | _, _ => match ToNumber a, ToNumber b with
            | Some x, Some y => x <? y
            | _, _ => false
            end
  end.

(** [a === b] for a string [b]. *)
Definition is_string (a : json) (b : string) : bool :=
  match a with
  | JStr x => String.eqb x b
  | _ => false
  end.

(** [Set.prototype.add]: primitives are the same value when they are
    equal; every parsed array or object is a value of its own. *)
Definition same_value (a b : json) : bool :=
  match a, b with
  | JNull, JNull => true
  | JBool x, JBool y => Bool.eqb x y
  | JNum x, JNum y => x =? y
  | JStr x, JStr y => String.eqb x y
  | _, _ => false
  end.

Definition Set_add (v : json) (members : list json) : list json :=
  if existsb (same_value v) members then members else members ++ [v].

(** [JSON.stringify] of a number: [NaN] becomes [null]. *)
Definition json_of_num (n : option Z) : json :=
  match n with
  | Some z => JNum z
  | None => JNull
  end.

(** A [Map<string, V>] in insertion order. *)
Definition Map_get {V} (k : string) (m : list (string * V)) : option V :=
  match List.find (fun kv => String.eqb (fst kv) k) m with
  | Some kv => Some (snd kv)
  | None => None
  end.

Fixpoint Map_set {V} (k : string) (v : V) (m : list (string * V)) : list (string * V) :=
  match m with
  | [] => [(k, v)]
  | (k', v') :: m' => if String.eqb k' k then (k, v) :: m' else (k', v') :: Map_set k v m'
  end.

(** Comparison by code units. On the lower-case ASCII identifiers the
    routes use as parameter names ([start_date], [end_date],
    [wallet_address], [chain]) collation orders strings this way. *)
Definition codeUnitCompare (a b : string) : Z :=
  match String.compare a b with
  | Lt => -1
  | Eq => 0
  | Gt => 1
  end.

End Js.

Import Js.


(** ** The platform's [Date]

    Time values are integer milliseconds since the epoch (UTC). The
    calendar functions follow ECMAScript's definitions ([Day],
    [DayFromYear], [YearFromTime], [MonthFromTime], [DateFromTime],
    [MakeDay], [MakeTime]). *)

Module JsDate.

Definition msPerSecond : Z := 1000.
Definition msPerMinute : Z := 60000.
Definition msPerHour : Z := 3600000.
Definition msPerDay : Z := 86400000.

Definition Day (t : Z) : Z := t / msPerDay.
Definition TimeWithinDay (t : Z) : Z := t mod msPerDay.

Definition InLeapYear (y : Z) : bool :=
  (y mod 4 =? 0) && (negb (y mod 100 =? 0) || (y mod 400 =? 0)).

Definition DaysInYear (y : Z) : Z := if InLeapYear y then 366 else 365.

Definition DayFromYear (y : Z) : Z :=
  365 * (y - 1970) + (y - 1969) / 4 - (y - 1901) / 100 + (y - 1601) / 400.

(** The largest year whose first day is not after day [d], found by
    walking up from an estimate that is never too large. *)
Fixpoint find_year (fuel : nat) (y d : Z) : Z :=
  match fuel with
  | O => y
  | S fuel' => if d <? DayFromYear (y + 1) then y else find_year fuel' (y + 1) d
  end.

Definition YearFromDay (d : Z) : Z :=
  find_year 64 (1970 + (if d <? 0 then d / 365 else d / 366)) d.

(** Day within the year on which each month starts (month 0 = January). *)
Definition month_starts (leap : bool) : list Z :=
  let l := if leap then 1 else 0 in
  [0; 31; 59 + l; 90 + l; 120 + l; 151 + l; 181 + l; 212 + l; 243 + l; 273 + l;
   304 + l; 334 + l].

Definition month_start (leap : bool) (m : Z) : Z :=
  nth (Z.to_nat m) (month_starts leap) 0.

Definition DaysInMonth (leap : bool) (m : Z) : Z :=
  (if m =? 11 then (if leap then 366 else 365) else month_start leap (m + 1))
  - month_start leap m.

Definition MonthFromDayInYear (leap : bool) (dayInYear : Z) : Z :=
  Z.of_nat (List.length (List.filter (fun s => s <=? dayInYear) (month_starts leap))) - 1.

Definition YearFromTime (t : Z) : Z := YearFromDay (Day t).
Definition DayWithinYear (t : Z) : Z := Day t - DayFromYear (YearFromTime t).
Definition MonthFromTime (t : Z) : Z :=
  MonthFromDayInYear (InLeapYear (YearFromTime t)) (DayWithinYear t).
Definition DateFromTime (t : Z) : Z :=
  DayWithinYear t - month_start (InLeapYear (YearFromTime t)) (MonthFromTime t) + 1.
Definition HourFromTime (t : Z) : Z := (t / msPerHour) mod 24.
Definition MinFromTime (t : Z) : Z := (t / msPerMinute) mod 60.
Definition SecFromTime (t : Z) : Z := (t / msPerSecond) mod 60.
Definition msFromTime (t : Z) : Z := t mod msPerSecond.

(** [MakeDay] for a month in [0..11]; [MakeTime]; [MakeDate]. *)
Definition MakeDay (year month date : Z) : Z :=
  DayFromYear year + month_start (InLeapYear year) month + date - 1.
Definition MakeTime (hour min sec ms : Z) : Z :=
  hour * msPerHour + min * msPerMinute + sec * msPerSecond + ms.
Definition MakeDate (day time : Z) : Z := day * msPerDay + time.

(** Decimal digits. *)
Definition digit (n : Z) : ascii := ascii_of_nat (48 + Z.to_nat (n mod 10)).

Definition digit_val (a : ascii) : option Z :=
  let n := nat_of_ascii a in
  if ((48 <=? n) && (n <=? 57))%nat then Some (Z.of_nat n - 48) else None.

Definition pad2 (n : Z) : string :=
  String (digit (n / 10)) (String (digit n) EmptyString).
Definition pad3 (n : Z) : string := String (digit (n / 100)) (pad2 n).
Definition pad4 (n : Z) : string := String (digit (n / 1000)) (pad3 n).

Fixpoint digits_val (acc : Z) (l : list ascii) : option Z :=
  match l with
  | [] => Some acc
  | a :: l' =>
      match digit_val a with
      | Some d => digits_val (10 * acc + d) l'
      | None => None
      end
  end.

(** [toISOString()]: [YYYY-MM-DDTHH:mm:ss.sssZ], for the years [0..9999]
    that are printed with four digits. *)
Definition iso_format (year month date hour min sec ms : Z) : string :=
  pad4 year ++ "-" ++ pad2 month ++ "-" ++ pad2 date
  ++ "T" ++ pad2 hour ++ ":" ++ pad2 min ++ ":" ++ pad2 sec ++ "." ++ pad3 ms ++ "Z".

Definition toISOString (t : Z) : string :=
  iso_format (YearFromTime t) (MonthFromTime t + 1) (DateFromTime t)
             (HourFromTime t) (MinFromTime t) (SecFromTime t) (msFromTime t).

(** [new Date(s).getTime()] for the date-time form [YYYY-MM-DDTHH:mm:ssZ]
    of the ECMAScript format; [None] is [NaN] (an invalid date). Other
    spellings that engines accept, some of them engine-specific, are not
    modelled and also give [None]. *)
Definition getTime (s : string) : option Z :=
  match list_ascii_of_string s with
  | [y1; y2; y3; y4; c1; m1; m2; c2; d1; d2; cT; h1; h2; c3; n1; n2; c4; s1; s2; cZ] =>
      if Ascii.eqb c1 "-" && Ascii.eqb c2 "-" && Ascii.eqb cT "T"
         && Ascii.eqb c3 ":" && Ascii.eqb c4 ":" && Ascii.eqb cZ "Z"
      then
        match digits_val 0 [y1; y2; y3; y4], digits_val 0 [m1; m2], digits_val 0 [d1; d2],
              digits_val 0 [h1; h2], digits_val 0 [n1; n2], digits_val 0 [s1; s2] with
        | Some y, Some mo, Some d, Some h, Some mi, Some se =>
            if (1 <=? mo) && (mo <=? 12) && (1 <=? d)
               && (d <=? DaysInMonth (InLeapYear y) (mo - 1))
               && (h <=? 23) && (mi <=? 59) && (se <=? 59)
            then Some (MakeDate (MakeDay y (mo - 1) d) (MakeTime h mi se 0))
            else None
        | _, _, _, _, _, _ => None
        end
      else None
  | _ => None
  end.

(** [Math.round(x / d)] for integers [x] and [d > 0]. *)
Definition Math_round_div (x d : Z) : Z := (2 * x + d) / (2 * d).

(** [Math.floor(x / d) * d] *)
Definition floor_to (d x : Z) : Z := x / d * d.

End JsDate.

Import JsDate.

(** ** [src/lib/cache.ts]: pure helpers *)

Module Cache.

Section CacheKey.
(** [String.prototype.localeCompare] is the platform's collation; it is
    a parameter of the model. *)
Variable localeCompare : string -> string -> Z.

(** A [Record<string, string>] in insertion order, as [Object.entries]
    lists it. *)
Definition cacheKey (queryId : string) (params : list (string * string)) : string :=
  let sorted := Array_sort (fun a b => localeCompare (fst a) (fst b)) params in
  queryId ++ ":" ++ String.concat "&" (map (fun kv => fst kv ++ "=" ++ snd kv) sorted).

(** What ECMAScript requires of a comparison function: the sign flips
    with the arguments, and the order is transitive. *)
Record consistent_comparator : Prop := {
  cmp_flip : forall a b, localeCompare a b < 0 <-> 0 < localeCompare b a;
  cmp_trans : forall a b c,
    localeCompare a b <= 0 -> localeCompare b c <= 0 -> localeCompare a c <= 0
}.

(** The comparator tells the keys of a parameter set apart. *)
Definition distinguishes (keys : list string) : Prop :=
  forall k1 k2, In k1 keys -> In k2 keys -> localeCompare k1 k2 = 0 -> k1 = k2.

(** The order [cacheKey] sorts the entries by. *)
Definition by_key (a b : string * string) : Z := localeCompare (fst a) (fst b).
Definition key_le (a b : string * string) : Prop := by_key a b <= 0.
End CacheKey.

Arguments cmp_flip {localeCompare} _ a b.
Arguments cmp_trans {localeCompare} _ a b c _ _.

(** ["2025-01-07 14:32:15" -> "2025-01-07 14:00:00"] *)
Definition snapToHour (dateStr : string) : string :=
  slice0 13 dateStr ++ ":00:00".

(** A number that may be [NaN]; every comparison with [NaN] is false. *)
Definition ge_num (x : option Q) (c : Q) : bool :=
  match x with
  | Some q => Qle_bool c q
  | None => false
  end.

(** The cache lifetime for a date range, in milliseconds. *)
Definition ttlForRange (startDate endDate : string) : Z :=
  let startMs := getTime (replace_first " " "T" startDate ++ "Z") in
  let endMs := getTime (replace_first " " "T" endDate ++ "Z") in
  let spanHours :=
    match startMs, endMs with
    | Some s, Some e => Some (inject_Z (e - s) / inject_Z (3600 * 1000))%Q
    | _, _ => None
    end in
  if ge_num spanHours (inject_Z (7 * 24)) then 6 * 60 * 60 * 1000
  else if ge_num spanHours (inject_Z 24) then 2 * 60 * 60 * 1000
  else 1 * 60 * 60 * 1000.

(** The instant a timestamp of the routes denotes, read the way
    [ttlForRange] reads it. *)
Definition time_of (dateStr : string) : option Z :=
  getTime (replace_first " " "T" dateStr ++ "Z").

(** [Math.round(ttl / 1000)], as every caller of [ttlForRange] does. *)
Definition ttlSec (startDate endDate : string) : Z :=
  Math_round_div (ttlForRange startDate endDate) 1000.

End Cache.

Import Cache.


(** ** The edge cache, the in-flight table and the routes, one request at a time

    A route handler is a sequence of awaits. Here each await is answered
    from a [world]: the platform's cache store, the upstream engine and the
    in-flight table as the request finds them. How concurrent calls of
    [dedup] interleave is the subject of [Coalescer] below. *)

Module Routes.

(** The global [caches] of the platform. *)
Inductive caches_global :=
| CachesUndeclared      (* no [caches] binding: reading it throws *)
| CachesNoDefault       (* [caches.default] is undefined *)
| CachesDefault.        (* the edge cache is there *)

(** One call of [runQueryAndWait(queryId, apiKey, maxWaitMs, params)]. *)
Record query := {
  q_id : string;
  q_apiKey : string;
  q_maxWaitMs : Z;
  q_params : list (string * string)
}.

(** What a handler did, in order. *)
Inductive event :=
| EvCfCacheMatch (url : string)
| EvCfCachePut (url : string) (data : json) (ttlSec : Z)
| EvDedup (key : string) (q : query)      (* [dedup(key, () => runQueryAndWait(q))] *)
| EvFetch (q : query).                    (* the fetcher ran: the query was sent *)

Record world := {
  ALLIUM_API_KEY : option string;          (* [process.env.ALLIUM_API_KEY] *)
  now : Z;                                 (* [new Date().getTime()] *)
  caches : caches_global;
  store : gmap string (json * Z);          (* cached JSON and its max-age, by URL *)
  match_fails : string -> option thrown;   (* [cache.match] rejects for this URL *)
  body_fails : string -> option thrown;    (* reading the stored body rejects *)
  put_fails : string -> option thrown;     (* [cache.put] rejects for this URL *)
  upstream : query -> outcome;             (* how [runQueryAndWait] settles *)
  inflight : gmap string outcome           (* entries other requests have in flight,
                                              with the way each will settle *)
}.

Definition store_put (url : string) (data : json) (ttl : Z) (w : world) : world :=
  {| ALLIUM_API_KEY := ALLIUM_API_KEY w; now := now w; caches := caches w;
     store := <[url := (data, ttl)]> (store w); match_fails := match_fails w;
     body_fails := body_fails w; put_fails := put_fails w; upstream := upstream w;
     inflight := inflight w |}.

(** An async computation returns or throws, changes the world, and
    leaves the events it performed, in order. *)
Inductive result (A : Type) :=
| Ok (a : A)
| Throw (e : thrown).
Arguments Ok {A} a.
Arguments Throw {A} e.

Definition M (A : Type) : Type := world -> result A * world * list event.

Definition ret {A} (a : A) : M A := fun w => (Ok a, w, []).
Definition throw {A} (e : thrown) : M A := fun w => (Throw e, w, []).
Definition bind {A B} (c : M A) (k : A -> M B) : M B :=
  fun w => match c w with
           | (Ok a, w', evs) =>
               match k a w' with
               | (r, w'', evs') => (r, w'', (evs ++ evs')%list)
               end
           | (Throw e, w', evs) => (Throw e, w', evs)
           end.
Definition try_catch {A} (body : M A) (handler : thrown -> M A) : M A :=
  fun w => match body w with
           | (Ok a, w', evs) => (Ok a, w', evs)
           | (Throw e, w', evs) =>
               match handler e w' with
               | (r, w'', evs') => (r, w'', (evs ++ evs')%list)
               end
           end.
Definition emit (e : event) : M unit := fun w => (Ok tt, w, [e]).
Definition of_outcome (o : outcome) : M json :=
  match o with
  | Fulfilled v => ret v
  | Rejected e => throw e
  end.

Notation "'let_await' x ':=' c 'in' k" := (bind c (fun x => k))
  (at level 10, x name, c at level 100, k at level 200).
Notation "c ';;;' k" := (bind c (fun _ => k))
  (at level 100, k at level 200, right associativity).

(** *** [src/lib/cache.ts]: the edge cache *)

(** [try { return caches.default ?? null } catch { return null }] *)
Definition getCfCache : M bool :=
  fun w => match caches w with
           | CachesDefault => (Ok true, w, [])
           | CachesUndeclared | CachesNoDefault => (Ok false, w, [])
           end.

(** [await cache.match(new Request(url))]: [None] is a miss; a stored
    response is named by its URL. *)
Definition cache_match (url : string) : M (option string) :=
  fun w => match match_fails w url with
           | Some e => (Throw e, w, [])
           | None => match store w !! url with
                     | Some _ => (Ok (Some url), w, [])
                     | None => (Ok None, w, [])
                     end
           end.

(** [res.json()] on the response stored under [url]. *)
Definition response_json (url : string) : M json :=
  fun w => match body_fails w url with
           | Some e => (Throw e, w, [])
           | None => match store w !! url with
                     | Some (data, _) => (Ok data, w, [])
                     | None => (Ok JNull, w, [])
                     end
           end.

(** [cfCacheMatch]. [cache.match] is awaited inside the [try]; the
    promise of [res.json()] is returned from it without being awaited,
    so it settles outside the [try]. *)
Definition cfCacheMatch (url : string) : M json :=
  emit (EvCfCacheMatch url) ;;;
  let_await cache := getCfCache in
  if negb cache then ret JNull
  else
    let_await returned :=
      try_catch
        (let_await res := cache_match url in
         match res with
         | None => ret (inl JNull)
         | Some r => ret (inr r)
         end)
        (fun _ => ret (inl JNull)) in
    match returned with
    | inl v => ret v
    | inr r => response_json r
    end.

(** [await cache.put(new Request(url), res)] *)
Definition cache_put (url : string) (data : json) (ttlSec : Z) : M unit :=
  fun w => match put_fails w url with
           | Some e => (Throw e, w, [])
           | None => (Ok tt, store_put url data ttlSec w, [])
           end.

Definition cfCachePut (url : string) (data : json) (ttlSec : Z) : M unit :=
  emit (EvCfCachePut url data ttlSec) ;;;
  let_await cache := getCfCache in
  if negb cache then ret tt
  else try_catch (cache_put url data ttlSec) (fun _ => ret tt).

(** [await dedup(key, () => runQueryAndWait(...))], seen from the
    awaiting request: it joins the entry that is in flight, or it starts
    the query itself; either way it gets the way that promise settles.
    The entry a request registers is gone again when its await returns. *)
Definition dedup (key : string) (q : query) : M json :=
  emit (EvDedup key q) ;;;
  fun w => match inflight w !! key with
           | Some o => of_outcome o w
           | None => (emit (EvFetch q) ;;; of_outcome (upstream w q)) w
           end.

(** The way the promise that [dedup(key, ...)] hands out settles. *)
Definition awaited (w : world) (key : string) (q : query) : outcome :=
  match inflight w !! key with
  | Some o => o
  | None => upstream w q
  end.

(** *** Requests and responses *)

Definition searchParams_get (request : list (string * string)) (name : string)
  : option string :=
  match List.find (fun kv => String.eqb (fst kv) name) request with
  | Some kv => Some (snd kv)
  | None => None
  end.

Record response := {
  status : Z;
  body : json;
  headers : list (string * string)
}.

(** [NextResponse.json(body)], [NextResponse.json(body, { status })],
    [NextResponse.json(body, { headers })] *)
Definition json_response (b : json) : response :=
  {| status := 200; body := b; headers := [] |}.
Definition json_status (b : json) (st : Z) : response :=
  {| status := st; body := b; headers := [] |}.
Definition json_headers (b : json) (h : list (string * string)) : response :=
  {| status := 200; body := b; headers := h |}.

Definition error_body (message : string) : json := JObj [("error", JStr message)].

Definition FLOWS_QUERY_ID : string := "Gfa6Z0NU15RsYA4Hp3vB".
Definition BRIDGE_QUERY_ID : string := "i812m0VJTKobVxsYvdHB".
Definition WALLET_QUERY_ID : string := "uOYFdeodat5P0qaLVW2t".
Definition DEFAULT_WALLET : string := "0xdbf5e9c5206d0db70a90108bf936da60221dc080".

(** [d.toISOString().replace("T", " ").slice(0, 19)] *)
Definition stamp (t : Z) : string :=
  slice0 19 (replace_first "T" " " (toISOString t)).

Definition range_params (start_date end_date : string) : list (string * string) :=
  [("start_date", start_date); ("end_date", end_date)].

Definition cache_control (ttlSec : Z) : list (string * string) :=
  [("Cache-Control",
    "public, s-maxage=" ++ pretty ttlSec ++ ", stale-while-revalidate=" ++ pretty (ttlSec * 2))].

Section Handlers.
Variable localeCompare : string -> string -> Z.

(** The window a time-ranged route works on: the explicit parameters
    or, for each one that is missing or empty, the default; then
    [snapToHour] on both. [defaultSpanMs] is what the route subtracts
    from the snapped current hour to get the default start. *)
Definition window (defaultSpanMs : Z) (request : list (string * string)) (w : world)
  : string * string :=
  let startDate := searchParams_get request "start_date" in
  let endDate := searchParams_get request "end_date" in
  let endSnapped := floor_to (3600 * 1000) (now w) in
  let startSnapped := endSnapped - defaultSpanMs in
  let defaultEnd := stamp endSnapped in
  let defaultStart := stamp startSnapped in
  (snapToHour (or_str startDate defaultStart), snapToHour (or_str endDate defaultEnd)).

(** The body shared by [/api/flows] and [/api/bridges], which differ in
    the route name, the query, its time limit and the default span. *)
Definition ranged_route (name queryId : string) (maxWaitMs defaultSpanMs : Z)
    (request : list (string * string)) : M response :=
  fun w =>
  match ALLIUM_API_KEY w with
  | None => ret (json_status (error_body "Missing ALLIUM_API_KEY") 500) w
  | Some apiKey =>
    if String.eqb apiKey "" then
      ret (json_status (error_body "Missing ALLIUM_API_KEY") 500) w
    else
      let '(start_date, end_date) := window defaultSpanMs request w in
      let params := range_params start_date end_date in
      let cacheUrl := "https://cache.internal/api/" ++ name ++ "?start_date=" ++ start_date
                      ++ "&end_date=" ++ end_date in
      (let_await cached := cfCacheMatch cacheUrl in
       if truthy cached then ret (json_response cached)
       else
         let key := cacheKey localeCompare queryId params in
         let ttl := ttlForRange start_date end_date in
         let ttlSec := Math_round_div ttl 1000 in
         try_catch
           (let_await result :=
              dedup key {| q_id := queryId; q_apiKey := apiKey;
                           q_maxWaitMs := maxWaitMs; q_params := params |} in
            cfCachePut cacheUrl result ttlSec ;;;
            ret (json_headers result (cache_control ttlSec)))
           (fun err => ret (json_status (error_body (error_message err)) 500))) w
  end.

(** [/api/flows]: default window of 24 hours, 300 s time limit. *)
Definition GET_flows : list (string * string) -> M response :=
  ranged_route "flows" FLOWS_QUERY_ID 300000 (24 * 3600 * 1000).

(** [/api/bridges]: default window of 1 hour, 30 s time limit. *)
Definition GET_bridges : list (string * string) -> M response :=
  ranged_route "bridges" BRIDGE_QUERY_ID 30000 (3600 * 1000).

End Handlers.

(** *** [/api/wallet] *)

(** [EntityLabel], and the running totals kept per counterparty. *)
Record EntityLabel := {
  el_chain : string;
  el_address : string;
  el_category : json;
  el_project : json;
  el_name : json
}.

Record totals := {
  entity : EntityLabel;
  sent : option Z;
  received : option Z;
  tokens : list json;
  firstSeen : option json
}.

Record EnrichedCounterparty := {
  cp_address : string;
  cp_chain : string;
  cp_entity : EntityLabel;
  totalSent : option Z;
  totalReceived : option Z;
  transferCount : option Z;
  cp_tokens : list json;
  cp_firstSeen : option json
}.

Definition TypeError (message : string) : thrown := JsError "TypeError" message.

(** One turn of the loop over the rows. Reading a column of a [null] row
    throws, and so does [toLowerCase] on an address that is not a string
    (the texts are the engine's). *)
Definition add_row (address chain : string) (cpMap : list (string * totals)) (row : json)
  : result (list (string * totals)) :=
  match row with
  | JNull => Throw (TypeError "Cannot read properties of null (reading 'COUNTERPARTY_ADDRESS')")
  | _ =>
    match or_json (prop row "COUNTERPARTY_ADDRESS")
                  (or_json (prop row "counterparty_address") (JStr "")) with
    | JStr a =>
      let addr := toLowerCase a in
      let direction := or_json (prop row "DIRECTION") (or_json (prop row "direction") (JStr "")) in
      let txCount := ToNumber (or_json (prop row "TX_COUNT")
                                       (or_json (prop row "tx_count") (JNum 0))) in
      let category := or_json (prop row "CATEGORY")
                              (or_json (prop row "category") (JStr "unknown")) in
      let project := or_json (prop row "PROJECT") (or_json (prop row "project") (JStr "")) in
      let name := or_json (prop row "NAME") (or_json (prop row "name") (JStr "")) in
      let first := or_undefined (prop row "FIRST_SEEN") (prop row "first_seen") in
      if String.eqb addr (toLowerCase address) then Ok cpMap
      else
        let existing :=
          match Map_get addr cpMap with
          | Some t => t
          | None =>
              {| entity := {| el_chain := chain; el_address := addr; el_category := category;
                              el_project := project; el_name := name |};
                 sent := Some 0; received := Some 0; tokens := []; firstSeen := None |}
          end in
        let sent' := if is_string direction "sent" then num_add (sent existing) txCount
                     else sent existing in
        let received' := if is_string direction "sent" then received existing
                         else num_add (received existing) txCount in
        let firstSeen' :=
          match first with
          | Some f =>
              match firstSeen existing with
              | None => Some f
              | Some old => if js_lt f old then Some f else Some old
              end
          | None => firstSeen existing
          end in
        Ok (Map_set addr
              {| entity := entity existing; sent := sent'; received := received';
                 tokens := Set_add category (tokens existing); firstSeen := firstSeen' |}
              cpMap)
    | _ => Throw (TypeError "(intermediate value).toLowerCase is not a function")
    end
  end.

Fixpoint add_rows (address chain : string) (cpMap : list (string * totals)) (rows : list json)
  : result (list (string * totals)) :=
  match rows with
  | [] => Ok cpMap
  | row :: rest =>
      match add_row address chain cpMap row with
      | Ok cpMap' => add_rows address chain cpMap' rest
      | Throw e => Throw e
      end
  end.

(** [Array.from(cpMap.entries()).map(...).sort((a, b) => b.transferCount - a.transferCount)];
    a comparison that is [NaN] counts as zero. *)
Definition counterparties_of (chain : string) (cpMap : list (string * totals))
  : list EnrichedCounterparty :=
  Array_sort
    (fun a b => match transferCount b, transferCount a with
                | Some x, Some y => x - y
                | _, _ => 0
                end)
    (map (fun kv =>
            {| cp_address := fst kv; cp_chain := chain; cp_entity := entity (snd kv);
               totalSent := sent (snd kv); totalReceived := received (snd kv);
               transferCount := num_add (sent (snd kv)) (received (snd kv));
               cp_tokens := tokens (snd kv); cp_firstSeen := firstSeen (snd kv) |})
         cpMap).

(** The JSON a [WalletData] serialises to. *)
Definition json_of_entity (e : EntityLabel) : json :=
  JObj [("chain", JStr (el_chain e)); ("address", JStr (el_address e));
        ("category", el_category e); ("project", el_project e); ("name", el_name e)].

Definition json_of_counterparty (c : EnrichedCounterparty) : json :=
  JObj ([("address", JStr (cp_address c)); ("chain", JStr (cp_chain c));
         ("entity", json_of_entity (cp_entity c));
         ("totalSent", json_of_num (totalSent c));
         ("totalReceived", json_of_num (totalReceived c));
         ("transferCount", json_of_num (transferCount c));
         ("tokens", JArr (cp_tokens c))]
        ++ match cp_firstSeen c with
           | Some f => [("firstSeen", f)]
           | None => []
           end).

Definition WalletData (address chain : string) (counterparties : list EnrichedCounterparty)
  : json :=
  JObj [("address", JStr address); ("chain", JStr chain); ("transactions", JArr []);
        ("counterparties", JArr (map json_of_counterparty counterparties))].

(** [result?.data || result || []] *)
Definition rows_of (result : json) : json :=
  or_json (match result with JNull => None | _ => prop result "data" end)
          (or_json (Some result) (JArr [])).

Definition of_result {A} (r : result A) : M A := fun w => (r, w, []).

Definition wallet_cache_control : list (string * string) :=
  [("Cache-Control", "public, s-maxage=3600, stale-while-revalidate=7200")].

Definition wallet_cache_url (address chain : string) : string :=
  "https://cache.internal/api/wallet?address=" ++ toLowerCase address ++ "&chain=" ++ chain.

Definition GET_wallet (request : list (string * string)) : M response :=
  fun w =>
  match ALLIUM_API_KEY w with
  | None => ret (json_status (error_body "Missing ALLIUM_API_KEY") 500) w
  | Some apiKey =>
    if String.eqb apiKey "" then
      ret (json_status (error_body "Missing ALLIUM_API_KEY") 500) w
    else
      let chain := or_str (searchParams_get request "chain") "ethereum" in
      match searchParams_get request "address" with
      | None => ret (json_status (error_body "Missing address parameter") 400) w
      | Some address =>
        if String.eqb address "" then
          ret (json_status (error_body "Missing address parameter") 400) w
        else
          let cacheUrl := wallet_cache_url address chain in
          (let_await cached := cfCacheMatch cacheUrl in
           if truthy cached then ret (json_headers cached wallet_cache_control)
           else
             try_catch
               (let walletKey := "wallet:" ++ toLowerCase address ++ ":" ++ chain in
                let_await result :=
                  dedup walletKey
                    {| q_id := WALLET_QUERY_ID; q_apiKey := apiKey; q_maxWaitMs := 60000;
                       q_params := [("wallet_address", toLowerCase address);
                                    ("chain", chain)] |} in
                match rows_of result with
                | JArr (row :: rest) =>
                    let_await cpMap := of_result (add_rows address chain [] (row :: rest)) in
                    let response := WalletData address chain (counterparties_of chain cpMap) in
                    cfCachePut cacheUrl response 3600 ;;;
                    ret (json_headers response wallet_cache_control)
                | _ => ret (json_response (WalletData address chain []))
                end)
               (fun err => ret (json_status (error_body (error_message err)) 500))) w
      end
  end.

(** *** [/api/prefetch] *)

Section Prefetch.
Variable localeCompare : string -> string -> Z.

Definition ranged_job (name queryId : string) (maxWaitMs spanMs : Z) (apiKey : string)
  : M string :=
  fun w =>
  let endSnapped := floor_to (3600 * 1000) (now w) in
  let start := endSnapped - spanMs in
  let start_date := snapToHour (stamp start) in
  let end_date := snapToHour (stamp endSnapped) in
  let params := range_params start_date end_date in
  let cacheUrl := "https://cache.internal/api/" ++ name ++ "?start_date=" ++ start_date
                  ++ "&end_date=" ++ end_date in
  let key := cacheKey localeCompare queryId params in
  let ttlSec := Math_round_div (ttlForRange start_date end_date) 1000 in
  (let_await cached := cfCacheMatch cacheUrl in
   if truthy cached then ret (name ++ " (cached)")
   else
     let_await result :=
       dedup key {| q_id := queryId; q_apiKey := apiKey; q_maxWaitMs := maxWaitMs;
                    q_params := params |} in
     cfCachePut cacheUrl result ttlSec ;;;
     ret name) w.

Definition flows_job : string -> M string :=
  ranged_job "flows" FLOWS_QUERY_ID 300000 (24 * 3600 * 1000).
Definition bridges_job : string -> M string :=
  ranged_job "bridges" BRIDGE_QUERY_ID 30000 (3600 * 1000).

(** The wallet job fetches the raw query result and stores nothing. *)
Definition wallet_job (apiKey : string) : M string :=
  let walletCacheUrl :=
    "https://cache.internal/api/wallet?address=" ++ DEFAULT_WALLET ++ "&chain=ethereum" in
  let walletKey := "wallet:" ++ DEFAULT_WALLET ++ ":ethereum" in
  let_await cached := cfCacheMatch walletCacheUrl in
  if truthy cached then ret "wallet (cached)"
  else
    let_await result :=
      dedup walletKey
        {| q_id := WALLET_QUERY_ID; q_apiKey := apiKey; q_maxWaitMs := 60000;
           q_params := [("wallet_address", DEFAULT_WALLET); ("chain", "ethereum")] |} in
    ret "wallet".

(** One entry of [Promise.allSettled]'s result, as the summary shows it. *)
Definition settled (job : M string) : M json :=
  try_catch
    (let_await value := job in
     ret (JObj [("status", JStr "fulfilled"); ("result", JStr value)]))
    (fun reason =>
       ret (JObj [("status", JStr "rejected"); ("result", JStr (String_of_thrown reason))])).

(** The three jobs touch different cache URLs and different in-flight
    keys; they are run here one after the other. *)
Definition GET_prefetch : M response :=
  fun w =>
  match ALLIUM_API_KEY w with
  | None => ret (json_status (error_body "Missing ALLIUM_API_KEY") 500) w
  | Some apiKey =>
    if String.eqb apiKey "" then
      ret (json_status (error_body "Missing ALLIUM_API_KEY") 500) w
    else
      (let_await r1 := settled (flows_job apiKey) in
       let_await r2 := settled (bridges_job apiKey) in
       let_await r3 := settled (wallet_job apiKey) in
       ret (json_response (JObj [("prefetched", JArr [r1; r2; r3])]))) w
  end.
End Prefetch.

End Routes.

Import Routes.

(** ** [dedup] among concurrent requests

    One isolate, one thread: requests call [dedup], the upstream settles
    the promises the fetchers returned, and the microtask queue runs one
    job at a time, in order. Promises, their reactions and the queue
    follow ECMAScript ([PerformPromiseThen], [TriggerPromiseReactions],
    [PromiseReactionJob], [NewPromiseResolveThenableJob]). *)

Module Coalescer.

(** Promises are named by the order of their creation. *)
Abbreviation pid := nat.

(** Where a promise was created. The code never reads this; it names the
    promises in the statements. *)
Inductive origin :=
| FromFetcher (key : string)             (* [fetcher()] *)
| FromThen (key : string) (op : pid)     (* [fetcher().then(...)] *)
| FromCatch (key : string) (t : pid)     (* [.catch(...)]: the promise put in the table *)
| FromDedup (key : string) (p : pid).    (* the promise of one call of the async [dedup],
                                            which returned [p] *)

(** The callbacks that occur. *)
Inductive handler :=
| ThenDelete (key : string)     (* [(result) => { inflight.delete(key); return result; }] *)
| CatchDelete (key : string)    (* [(err) => { inflight.delete(key); throw err; }] *)
| Resolve.                      (* the resolving functions of the derived promise *)

Record reaction := { handle : handler; derived : pid }.

Inductive job :=
| ReactionJob (r : reaction) (o : outcome)
| ThenableJob (promise thenable : pid).   (* [thenable.then(resolve, reject)] of [promise] *)

Inductive pstate :=
| Pending (reactions : list reaction)
| Settled (o : outcome).

Record promise := { born : origin; pst : pstate }.

Inductive event :=
| EvFetcher (key : string) (op : pid)    (* [fetcher()] was called and returned [op] *)
| EvReturn (key : string) (r : pid)      (* a call of [dedup(key, ...)] returned [r] *)
| EvDelete (key : string).               (* [inflight.delete(key)] *)

Record state := {
  inflight : gmap string pid;     (* [const inflight = new Map<string, Promise<unknown>>()] *)
  heap : gmap pid promise;
  queue : list job;               (* the microtask queue, next job first *)
  next : pid;
  trace : list event
}.

Definition init : state :=
  {| inflight := ∅; heap := ∅; queue := []; next := 0%nat; trace := [] |}.

Definition set_heap (h : gmap pid promise) (s : state) : state :=
  {| inflight := inflight s; heap := h; queue := queue s; next := next s; trace := trace s |}.

Definition set_inflight (m : gmap string pid) (s : state) : state :=
  {| inflight := m; heap := heap s; queue := queue s; next := next s; trace := trace s |}.

Definition enqueue (js : list job) (s : state) : state :=
  {| inflight := inflight s; heap := heap s; queue := (queue s ++ js)%list; next := next s;
     trace := trace s |}.

Definition log (e : event) (s : state) : state :=
  {| inflight := inflight s; heap := heap s; queue := queue s; next := next s;
     trace := (trace s ++ [e])%list |}.

(** A new pending promise. *)
Definition alloc (b : origin) (s : state) : pid * state :=
  (next s,
   {| inflight := inflight s;
      heap := <[next s := {| born := b; pst := Pending [] |}]> (heap s);
      queue := queue s; next := S (next s); trace := trace s |}).

(** [p.then(...)]: the reaction waits on a pending [p]; on a settled
    [p] its job is queued at once. *)
Definition perform_then (p : pid) (r : reaction) (s : state) : state :=
  match heap s !! p with
  | Some {| born := b; pst := Pending rs |} =>
      set_heap (<[p := {| born := b; pst := Pending (rs ++ [r]) |}]> (heap s)) s
  | Some {| born := _; pst := Settled o |} => enqueue [ReactionJob r o] s
  | None => s
  end.

(** Fulfil or reject [p]: its reactions become jobs. A settled promise
    stays as it is. *)
Definition settle (p : pid) (o : outcome) (s : state) : state :=
  match heap s !! p with
  | Some {| born := b; pst := Pending rs |} =>
      enqueue (map (fun r => ReactionJob r o) rs)
              (set_heap (<[p := {| born := b; pst := Settled o |}]> (heap s)) s)
  | _ => s
  end.

Definition inflight_delete (key : string) (s : state) : state :=
  log (EvDelete key) (set_inflight (delete key (inflight s)) s).

(** One call of [dedup(key, fetcher)], up to its [return]. The fetcher
    returns a pending promise ([runQueryAndWait] awaits the network before
    it can settle). Returning a promise from an async function resolves
    the function's own promise with it, by a job. *)
Definition dedup (key : string) (s : state) : pid * state :=
  match inflight s !! key with
  | Some existing =>
      let '(r, s) := alloc (FromDedup key existing) s in
      (r, log (EvReturn key r) (enqueue [ThenableJob r existing] s))
  | None =>
      let '(op, s) := alloc (FromFetcher key) s in
      let s := log (EvFetcher key op) s in
      let '(t, s) := alloc (FromThen key op) s in
      let s := perform_then op {| handle := ThenDelete key; derived := t |} s in
      let '(p, s) := alloc (FromCatch key t) s in
      let s := perform_then t {| handle := CatchDelete key; derived := p |} s in
      let s := set_inflight (<[key := p]> (inflight s)) s in
      let '(r, s) := alloc (FromDedup key p) s in
      (r, log (EvReturn key r) (enqueue [ThenableJob r p] s))
  end.

(** A reaction job calls its handler with the outcome and settles the
    derived promise with what the handler returns or throws; where
    [then] was given no handler for the outcome, it passes through. *)
Definition run_job (j : job) (s : state) : state :=
  match j with
  | ThenableJob promise thenable =>
      perform_then thenable {| handle := Resolve; derived := promise |} s
  | ReactionJob {| handle := ThenDelete key; derived := t |} (Fulfilled v) =>
      settle t (Fulfilled v) (inflight_delete key s)
  | ReactionJob {| handle := ThenDelete key; derived := t |} (Rejected e) =>
      settle t (Rejected e) s
  | ReactionJob {| handle := CatchDelete key; derived := p |} (Fulfilled v) =>
      settle p (Fulfilled v) s
  | ReactionJob {| handle := CatchDelete key; derived := p |} (Rejected e) =>
      settle p (Rejected e) (inflight_delete key s)
  | ReactionJob {| handle := Resolve; derived := r |} o => settle r o s
  end.

Definition is_fetcher_promise (op : pid) (s : state) : bool :=
  match heap s !! op with
  | Some {| born := FromFetcher _; pst := _ |} => true
  | _ => false
  end.

(** What can happen next. *)
Inductive action :=
| Call (key : string)                  (* a request calls [dedup(key, fetcher)] *)
| Upstream (op : pid) (o : outcome)    (* the operation behind [op] succeeds or fails *)
| Tick.                                (* the next microtask runs *)

Definition step (a : action) (s : state) : state :=
  match a with
  | Call key => snd (dedup key s)
  | Upstream op o => if is_fetcher_promise op s then settle op o s else s
  | Tick =>
      match queue s with
      | [] => s
      | j :: rest =>
          run_job j {| inflight := inflight s; heap := heap s; queue := rest;
                       next := next s; trace := trace s |}
      end
  end.

Definition run (acts : list action) (s : state) : state :=
  fold_left (fun s a => step a s) acts s.

(** The microtask queue runs until it is empty; [backlog] bounds the
    number of jobs that takes. *)
Fixpoint ticks (n : nat) (s : state) : state :=
  match n with
  | O => s
  | S n' => ticks n' (step Tick s)
  end.

Definition is_thenable_job (j : job) : bool :=
  match j with
  | ThenableJob _ _ => true
  | ReactionJob _ _ => false
  end.

Definition reactions_of (pr : promise) : nat :=
  match pst pr with
  | Pending rs => List.length rs
  | Settled _ => 0%nat
  end.

(** The reactions that wait on pending promises, counted. *)
Definition waiting (s : state) : nat :=
  map_fold (fun _ pr acc =>
              match pst pr with
              | Pending rs => (List.length rs + acc)%nat
              | Settled _ => acc
              end) 0%nat (heap s).

(** A reaction job is one step from done, a thenable job two, a waiting
    reaction becomes a reaction job. *)
Definition backlog (s : state) : nat :=
  (List.length (queue s) + List.length (List.filter is_thenable_job (queue s))
   + waiting s)%nat.

Definition drain (s : state) : state := ticks (backlog s) s.

(** The promises the fetcher returned under [key], and the promises
    handed to the callers of [dedup(key, ...)], in order. *)
Definition fetched (key : string) (tr : list event) : list pid :=
  flat_map (fun e => match e with
                     | EvFetcher k op => if String.eqb k key then [op] else []
                     | _ => []
                     end) tr.

Definition returned (key : string) (tr : list event) : list pid :=
  flat_map (fun e => match e with
                     | EvReturn k r => if String.eqb k key then [r] else []
                     | _ => []
                     end) tr.

Definition settled_with (s : state) (x : pid) (o : outcome) : Prop :=
  exists b, heap s !! x = Some {| born := b; pst := Settled o |}.

(** *** The shape of the reachable states *)

Definition has (s : state) (x : pid) (b : origin) (st : pstate) : Prop :=
  heap s !! x = Some {| born := b; pst := st |}.

(** The promise a derived promise was made from, and the callback that
    settles it. *)
Definition source (b : origin) : option (pid * handler) :=
  match b with
  | FromFetcher _ => None
  | FromThen key op => Some (op, ThenDelete key)
  | FromCatch key t => Some (t, CatchDelete key)
  | FromDedup _ p => Some (p, Resolve)
  end.

Definition targets (x : pid) (j : job) : bool :=
  match j with
  | ReactionJob r _ => Nat.eqb (derived r) x
  | ThenableJob promise _ => Nat.eqb promise x
  end.

(** The queued jobs that will settle [x], and the reactions of [y] that
    will. *)
Definition jobs_for (x : pid) (q : list job) : list job := List.filter (targets x) q.

Definition waits_for (x : pid) (rs : list reaction) : list reaction :=
  List.filter (fun r => Nat.eqb (derived r) x) rs.

Definition waiting_on (s : state) (y x : pid) : list reaction :=
  match heap s !! y with
  | Some {| born := _; pst := Pending rs |} => waits_for x rs
  | _ => []
  end.

(** Where a derived promise [x] stands with respect to its source [y]:
    exactly one thing is on its way to settle it, or it is settled as
    its source is. *)
Inductive link (s : state) (x y : pid) (h : handler) : Prop :=
| LinkThenable b rs :
    h = Resolve -> has s x b (Pending rs) ->
    jobs_for x (queue s) = [ThenableJob x y] -> waiting_on s y x = [] ->
    link s x y h
| LinkWaiting b rs :
    has s x b (Pending rs) ->
    jobs_for x (queue s) = [] -> waiting_on s y x = [{| handle := h; derived := x |}] ->
    link s x y h
| LinkQueued b rs b' o :
    has s x b (Pending rs) -> has s y b' (Settled o) ->
    jobs_for x (queue s) = [ReactionJob {| handle := h; derived := x |} o] ->
    link s x y h
| LinkDone b b' o :
    has s x b (Settled o) -> has s y b' (Settled o) ->
    jobs_for x (queue s) = [] ->
    link s x y h.

(** The table holds [p] from its registration until the one callback
    that deletes the entry has run. *)
Definition registered (s : state) (t p : pid) : Prop :=
  (exists b rs, has s t b (Pending rs)) \/
  (exists b e b' rs, has s t b (Settled (Rejected e)) /\ has s p b' (Pending rs)).

Definition origin_ok (s : state) (b : origin) : Prop :=
  match b with
  | FromFetcher _ => True
  | FromThen key op => exists st, has s op (FromFetcher key) st
  | FromCatch key t => exists op st, has s t (FromThen key op) st
  | FromDedup key p => exists t st, has s p (FromCatch key t) st
  end.

Definition job_ok (s : state) (j : job) : Prop :=
  match j with
  | ReactionJob r _ =>
      exists b st y, has s (derived r) b st /\ source b = Some (y, handle r)
  | ThenableJob x y => exists key st, has s x (FromDedup key y) st
  end.

Record Shape (s : state) : Prop := {
  inv_fresh : forall x, (next s <= x)%nat -> heap s !! x = None;
  inv_origin : forall x b st, has s x b st -> origin_ok s b;
  inv_then : forall op key st,
    has s op (FromFetcher key) st -> exists t st', has s t (FromThen key op) st';
  inv_catch : forall t key op st,
    has s t (FromThen key op) st -> exists p st', has s p (FromCatch key t) st';
  inv_reactions : forall y b rs r,
    has s y b (Pending rs) -> In r rs ->
    exists b' st', has s (derived r) b' st' /\ source b' = Some (y, handle r);
  inv_queue : forall j, In j (queue s) -> job_ok s j;
  inv_link : forall x b st y h, has s x b st -> source b = Some (y, h) -> link s x y h
}.

Record Inv (s : state) : Prop := {
  inv_shape :> Shape s;
  inv_table : forall key p,
    inflight s !! key = Some p -> exists t st, has s p (FromCatch key t) st;
  inv_registered : forall p key t st,
    has s p (FromCatch key t) st -> (inflight s !! key = Some p <-> registered s t p);
  inv_fetched : forall key op,
    In op (fetched key (trace s)) -> exists st, has s op (FromFetcher key) st;
  inv_returned : forall key r,
    In r (returned key (trace s)) -> exists p st, has s r (FromDedup key p) st
}.

(** The heap after a call that starts the operation: the four new
    promises, with the two reactions registered. *)
Definition started_heap (key : string) (n : pid) (h : gmap pid promise) : gmap pid promise :=
  <[S (S (S n)) := {| born := FromDedup key (S (S n)); pst := Pending [] |}]>
    (<[S n := {| born := FromThen key n;
                 pst := Pending [{| handle := CatchDelete key; derived := S (S n) |}] |}]>
       (<[S (S n) := {| born := FromCatch key (S n); pst := Pending [] |}]>
          (<[n := {| born := FromFetcher key;
                     pst := Pending [{| handle := ThenDelete key; derived := S n |}] |}]>
             (<[S n := {| born := FromThen key n; pst := Pending [] |}]>
                (<[n := {| born := FromFetcher key; pst := Pending [] |}]> h))))).

(** *** The cases of a step *)

(** The table key a reaction job deletes: the [then] callback runs on
    success, the [catch] callback on failure. *)
Definition deleted (h : handler) (o : outcome) : option string :=
  match h, o with
  | ThenDelete key, Fulfilled _ => Some key
  | CatchDelete key, Rejected _ => Some key
  | _, _ => None
  end.

Definition table_after (d : option string) (m : gmap string pid) : gmap string pid :=
  match d with
  | Some key => delete key m
  | None => m
  end.

Definition trace_after (d : option string) (tr : list event) : list event :=
  match d with
  | Some key => (tr ++ [EvDelete key])%list
  | None => tr
  end.

(** What a step does in a reachable state, case by case. *)
Inductive moved (s : state) : action -> state -> Prop :=
| MovedNoJob : queue s = [] -> moved s Tick s
| MovedNoUpstream op o : moved s (Upstream op o) s
| MovedJoin key p t st :
    inflight s !! key = Some p -> has s p (FromCatch key t) st ->
    moved s (Call key)
      {| inflight := inflight s;
         heap := <[next s := {| born := FromDedup key p; pst := Pending [] |}]> (heap s);
         queue := (queue s ++ [ThenableJob (next s) p])%list;
         next := S (next s);
         trace := (trace s ++ [EvReturn key (next s)])%list |}
| MovedStart key :
    inflight s !! key = None ->
    moved s (Call key)
      {| inflight := <[key := S (S (next s))]> (inflight s);
         heap := started_heap key (next s) (heap s);
         queue := (queue s ++ [ThenableJob (S (S (S (next s)))) (S (S (next s)))])%list;
         next := S (S (S (S (next s))));
         trace := (trace s ++ [EvFetcher key (next s)]
                   ++ [EvReturn key (S (S (S (next s))))])%list |}
| MovedUpstream op key rs o :
    has s op (FromFetcher key) (Pending rs) ->
    moved s (Upstream op o)
      {| inflight := inflight s;
         heap := <[op := {| born := FromFetcher key; pst := Settled o |}]> (heap s);
         queue := (queue s ++ map (fun r => ReactionJob r o) rs)%list;
         next := next s;
         trace := trace s |}
| MovedRegister x y rest b rs :
    queue s = ThenableJob x y :: rest -> has s y b (Pending rs) ->
    moved s Tick
      {| inflight := inflight s;
         heap := <[y := {| born := b;
                           pst := Pending (rs ++ [{| handle := Resolve; derived := x |}]) |}]>
                   (heap s);
         queue := rest;
         next := next s;
         trace := trace s |}
| MovedResolved x y rest b o :
    queue s = ThenableJob x y :: rest -> has s y b (Settled o) ->
    moved s Tick
      {| inflight := inflight s;
         heap := heap s;
         queue := (rest ++ [ReactionJob {| handle := Resolve; derived := x |} o])%list;
         next := next s;
         trace := trace s |}
| MovedReact h x o rest b rs :
    queue s = ReactionJob {| handle := h; derived := x |} o :: rest ->
    has s x b (Pending rs) ->
    moved s Tick
      {| inflight := table_after (deleted h o) (inflight s);
         heap := <[x := {| born := b; pst := Settled o |}]> (heap s);
         queue := (rest ++ map (fun r => ReactionJob r o) rs)%list;
         next := next s;
         trace := trace_after (deleted h o) (trace s) |}.

(** *** Schedules *)

(** The calls of [dedup(key, ...)] among the actions. *)
Definition is_call (key : string) (a : action) : bool :=
  match a with
  | Call k => String.eqb k key
  | _ => false
  end.

Definition calls (key : string) (acts : list action) : nat :=
  List.length (List.filter (is_call key) acts).

(** The upstream settles the operation behind [op]. *)
Definition settles (op : pid) (a : action) : bool :=
  match a with
  | Upstream op' _ => Nat.eqb op' op
  | _ => false
  end.

Definition unsettled (op : pid) (acts : list action) : bool :=
  forallb (fun a => negb (settles op a)) acts.

(** The operation behind [op], started for [key], has not settled. *)
Definition in_flight (s : state) (key : string) (op : pid) : Prop :=
  exists rs, has s op (FromFetcher key) (Pending rs).

End Coalescer.

(** ** Concrete worlds for the examples *)

Module Examples.

(** Tuesday 2025-01-06, 12:29:32.123 UTC; an empty, working edge cache;
    an upstream that answers every query with [payload]. *)
Definition world_with (payload : outcome) : world :=
  {| ALLIUM_API_KEY := Some "key"; now := 1736166572123; caches := CachesDefault;
     store := ∅;
     match_fails := fun _ => None; body_fails := fun _ => None; put_fails := fun _ => None;
     upstream := fun _ => payload;
     inflight := ∅ |}.


(** The upstream finds no rows. *)
Definition no_rows_world : world := world_with (Fulfilled (JObj [("data", JArr [])])).


Definition flows_default_url : string :=
  "https://cache.internal/api/flows?start_date=2025-01-05 12:00:00&end_date=2025-01-06 12:00:00".

(** The edge cache holds the default flows entry, and its body cannot
    be read back. *)
Definition unreadable_entry_world : world :=
  {| ALLIUM_API_KEY := Some "key"; now := 1736166572123; caches := CachesDefault;
     store := {[ flows_default_url := (JObj [("data", JArr [])], 7200) ]};
     match_fails := fun _ => None;
     body_fails := fun _ => Some (JsError "TypeError" "Failed to read the response body");
     put_fails := fun _ => None;
     upstream := fun _ => Fulfilled (JObj [("data", JArr [])]);
     inflight := ∅ |}.

End Examples.

Import Examples.

(** ** Predicates used in the statements *)


(** The cache URL of a time-ranged prefetch job. *)
Definition ranged_url (name : string) (spanMs : Z) (w : world) : string :=
  "https://cache.internal/api/" ++ name ++ "?start_date="
  ++ snapToHour (stamp (floor_to (3600 * 1000) (now w) - spanMs))
  ++ "&end_date=" ++ snapToHour (stamp (floor_to (3600 * 1000) (now w))).

(** No call of [cfCachePut] among the events. *)
Definition no_put (evs : list event) : Prop :=
  forall url d t, ~ In (EvCfCachePut url d t) evs.

(** ** Further predicates and examples used in the statements *)

(** [s.includes(c)] for a one-character [c]. *)
Fixpoint occurs (c : ascii) (s : string) : bool :=
  match s with
  | EmptyString => false
  | String a rest => Ascii.eqb a c || occurs c rest
  end.

(** The names and values of a parameter set hold no separator of the
    fingerprint: no [&] anywhere and no [=] in a name. *)
Definition plain_entry (kv : string * string) : Prop :=
  occurs "=" (fst kv) = false /\ occurs "&" (fst kv) = false /\ occurs "&" (snd kv) = false.

(** The cache URL and the query of a time-ranged request, and the
    lifetime in seconds its result is stored with. *)
Definition window_url (name : string) (span : Z) (request : list (string * string))
    (w : world) : string :=
  "https://cache.internal/api/" ++ name ++ "?start_date=" ++ fst (window span request w)
  ++ "&end_date=" ++ snd (window span request w).


Definition window_ttlSec (span : Z) (request : list (string * string)) (w : world) : Z :=
  ttlSec (fst (window span request w)) (snd (window span request w)).

(** The edge cache is there and none of its operations fails. *)
Definition cache_works (w : world) : Prop :=
  caches w = CachesDefault /\
  forall url, match_fails w url = None /\ body_fails w url = None /\ put_fails w url = None.

(** The API key is set: [process.env.ALLIUM_API_KEY] is a non-empty string. *)
Definition has_key (w : world) (apiKey : string) : Prop :=
  ALLIUM_API_KEY w = Some apiKey /\ String.eqb apiKey "" = false.

(** The wallet request's chain: [searchParams.get("chain") || "ethereum"]. *)
Definition chain_of (request : list (string * string)) : string :=
  or_str (searchParams_get request "chain") "ethereum".

(** The entries of a prefetch summary. *)
Definition summary_entry (j : json) : Prop :=
  exists text, j = JObj [("status", JStr "fulfilled"); ("result", JStr text)] \/
               j = JObj [("status", JStr "rejected"); ("result", JStr text)].

(** The edge cache holds a result for the default flows window. *)
Definition warm_world : world :=
  {| ALLIUM_API_KEY := Some "key"; now := 1736166572123; caches := CachesDefault;
     store := {[ flows_default_url := (JObj [("data", JArr [JNum 1])], 7200) ]};
     match_fails := fun _ => None; body_fails := fun _ => None; put_fails := fun _ => None;
     upstream := fun _ => Rejected (Error "Query timed out");
     inflight := ∅ |}.

(** The upstream answers every query with one row. *)
Definition one_row_world : world :=
  world_with (Fulfilled (JObj [("data", JArr [JObj [("N", JNum 1)]])])).

(** *** Rows of the wallet query *)

(** A row as the saved wallet query sends it, with upper-case columns:
    the counterparty's address, the direction seen from the wallet, the
    number of transfers and the counterparty's category. *)
Record transfer := {
  t_address : string;
  t_direction : string;
  t_count : Z;
  t_category : string
}.

Definition transfer_row (t : transfer) : json :=
  JObj [("COUNTERPARTY_ADDRESS", JStr (t_address t)); ("DIRECTION", JStr (t_direction t));
        ("TX_COUNT", JNum (t_count t)); ("CATEGORY", JStr (t_category t))].

(** The transfers of the rows whose counterparty, lower-cased, is [a]:
    those sent to it, and the others. *)
Definition is_sent (t : transfer) : bool := String.eqb (t_direction t) "sent".

Definition sent_to (a : string) (items : list transfer) : Z :=
  fold_right Z.add 0
    (map t_count
       (List.filter (fun t => String.eqb (toLowerCase (t_address t)) a && is_sent t) items)).

Definition received_from (a : string) (items : list transfer) : Z :=
  fold_right Z.add 0
    (map t_count
       (List.filter (fun t => String.eqb (toLowerCase (t_address t)) a && negb (is_sent t))
          items)).

(** The upstream answers the wallet query with two rows for one exchange
    address, in two spellings, and one for the wallet itself. *)
Definition exchange_rows : list transfer :=
  [ {| t_address := "0xAAAA"; t_direction := "sent"; t_count := 3; t_category := "cex" |};
    {| t_address := "0xdbf5e9c5206d0db70a90108bf936da60221dc080"; t_direction := "sent";
       t_count := 9; t_category := "wallet" |};
    {| t_address := "0xaaaa"; t_direction := "received"; t_count := 4; t_category := "cex" |};
    {| t_address := "0xbbbb"; t_direction := "sent"; t_count := 20; t_category := "dex" |} ].

Definition exchange_world : world :=
  world_with (Fulfilled (JObj [("data", JArr (map transfer_row exchange_rows))])).

(** [c1] has at least as many transfers as [c2]. *)
Definition busier (c1 c2 : EnrichedCounterparty) : Prop :=
  exists n1 n2, transferCount c1 = Some n1 /\ transferCount c2 = Some n2 /\ n2 <= n1.

(** ** The page: the ranges it asks for

    [src/app/page.tsx] and the date range picker of the sidebar build the
    [start_date] and [end_date] of the flows requests. *)

Module Page.

(** A [DateRange]: [startDate] and [endDate]. *)
Definition DateRange : Type := string * string.

(** [makeDefaultStablecoinDateRange()], with [now] the page's clock. *)
Definition makeDefaultStablecoinDateRange (now : Z) : DateRange :=
  let e := floor_to (3600 * 1000) now in
  let s := e - 24 * 3600 * 1000 in
  (stamp s, stamp e).

(** [handleQuickSelect(hours)] of the picker: the range it hands on. *)
Definition handleQuickSelect (now hours : Z) : DateRange :=
  let snapMs := if 24 * 7 <=? hours then 86400 * 1000 else 3600 * 1000 in
  let e := floor_to snapMs now in
  let s := e - hours * 3600 * 1000 in
  (stamp s, stamp e).

(** ["2025-01-01 00:00:00" -> "2025-01-01T00:00"] and back, with the
    seconds set to zero. *)
Definition toDateTimeInputValue (isoish : string) : string :=
  slice0 10 isoish ++ "T" ++ String.substring 11 5 isoish.

Definition fromDateTimeInput (value : string) : string :=
  replace_first "T" " " value ++ ":00".

(** [handleLoadCustom()] of the picker with the two fields as they
    stand: the range it hands on, if any. *)
Definition handleLoadCustom (localStart localEnd : string) : option DateRange :=
  if String.eqb localStart "" || String.eqb localEnd "" then None
  else Some (fromDateTimeInput localStart, fromDateTimeInput localEnd).

(** The search parameters [fetchFlows] sends for a range: each value
    goes through [encodeURIComponent] and is decoded again by
    [searchParams.get]. *)
Definition fetchFlows_request (range : DateRange) : list (string * string) :=
  [("start_date", fst range); ("end_date", snd range)].

End Page.

(** ** [src/lib/entities.ts]: the client of the query engine

    The client talks to the engine over HTTP and watches the clock. The
    network is a parameter: it says what the n-th exchange answers and how
    long it takes, and by how much each timer is late. The clock moves
    only while the client awaits an exchange or a timer. *)

Module Allium.

Definition ALLIUM_API_BASE : string := "https://api.allium.so/api/v1/explorer".

Record http_request := {
  method : string;
  url : string;
  req_headers : list (string * string);
  req_body : option json              (* the value given to [JSON.stringify] *)
}.

Record http_response := {
  ok : bool;                          (* [res.ok] *)
  http_status : Z;                    (* [res.status] *)
  text : result string;               (* [await res.text()] *)
  json_of : result json               (* [await res.json()] *)
}.

(** [fetch] rejects, or resolves with a response. *)
Inductive fetched :=
| NetworkError (e : thrown)
| Response (r : http_response).

Record network := {
  answer : nat -> http_request -> Z * fetched;  (* the n-th exchange: the time it takes,
                                                   body included, and what comes back *)
  timer_late : nat -> Z                         (* how late the n-th timer fires *)
}.

Record net_state := {
  clock : Z;                    (* [Date.now()] *)
  sent : list http_request;     (* the requests so far, in order *)
  timers : nat                  (* the timers so far *)
}.

Definition N (A : Type) : Type := net_state -> result A * net_state.

Definition retN {A} (a : A) : N A := fun st => (Ok a, st).
Definition throwN {A} (e : thrown) : N A := fun st => (Throw e, st).
Definition bindN {A B} (c : N A) (k : A -> N B) : N B :=
  fun st => match c st with
            | (Ok a, st') => k a st'
            | (Throw e, st') => (Throw e, st')
            end.
Definition liftN {A} (r : result A) : N A := fun st => (r, st).

Notation "'await_let' x ':=' c 'in' k" := (bindN c (fun x => k))
  (at level 10, x name, c at level 100, k at level 200).

(** [a ?? b]: [b] when [a] is [undefined] or [null]. *)
Definition nullish_or (a b : option json) : option json :=
  match a with
  | None | Some JNull => b
  | Some v => Some v
  end.

(** [v === s] for a value that may be [undefined]. *)
Definition is_text (v : option json) (s : string) : bool :=
  match v with
  | Some x => is_string x s
  | None => false
  end.

(** [`${v}`] for a value that may be [undefined]. *)
Definition String_of (v : option json) : string :=
  match v with
  | Some x => String_of_json x
  | None => "undefined"
  end.

Section Client.
(** [JSON.stringify] is the platform's. *)
Variable JSON_stringify : json -> string.
Variable net : network.

Definition fetch (req : http_request) : N http_response :=
  fun st =>
    let '(d, a) := answer net (List.length (sent st)) req in
    let st' := {| clock := clock st + d; sent := (sent st ++ [req])%list;
                  timers := timers st |} in
    match a with
    | NetworkError e => (Throw e, st')
    | Response r => (Ok r, st')
    end.

(** [await new Promise((r) => setTimeout(r, ms))] *)
Definition sleep (ms : Z) : N unit :=
  fun st => (Ok tt, {| clock := clock st + ms + timer_late net (timers st);
                       sent := sent st; timers := S (timers st) |}).

Definition parameters_object (params : list (string * string)) : json :=
  JObj (map (fun kv => (fst kv, JStr (snd kv))) params).

Definition runQuery (queryId apiKey : string) (params : list (string * string)) : N json :=
  await_let runRes :=
    fetch {| method := "POST";
             url := ALLIUM_API_BASE ++ "/queries/" ++ queryId ++ "/run-async";
             req_headers := [("X-API-KEY", apiKey); ("Content-Type", "application/json")];
             req_body := Some (JObj [("parameters", parameters_object params);
                                     ("compute_profile", JStr "large")]) |} in
  if negb (ok runRes) then
    await_let t := liftN (text runRes) in
    throwN (Error ("Failed to trigger query: " ++ pretty (http_status runRes) ++ " " ++ t))
  else
    await_let body := liftN (json_of runRes) in
    match body with
    | JNull => throwN (TypeError "Cannot read properties of null (reading 'run_id')")
    | _ =>
        let runId := nullish_or (prop body "run_id")
                       (nullish_or (prop body "query_run_id") (prop body "id")) in
        match runId with
        | Some id =>
            if truthy id then retN id
            else throwN (Error ("No run_id in response: " ++ JSON_stringify body))
        | None => throwN (Error ("No run_id in response: " ++ JSON_stringify body))
        end
    end.

(** The status, which may be [undefined]. *)
Definition pollQueryStatus (runId : json) (apiKey : string) : N (option json) :=
  await_let res :=
    fetch {| method := "GET";
             url := ALLIUM_API_BASE ++ "/query-runs/" ++ String_of_json runId ++ "/status";
             req_headers := [("X-API-KEY", apiKey)];
             req_body := None |} in
  if negb (ok res) then
    throwN (Error ("Failed to check status: " ++ pretty (http_status res)))
  else
    await_let data := liftN (json_of res) in
    match data with
    | JStr s => retN (Some (JStr s))
    | JNull => throwN (TypeError "Cannot read properties of null (reading 'status')")
    | _ => retN (nullish_or (prop data "status") (prop data "state"))
    end.

Definition getQueryResults (runId : json) (apiKey : string) : N json :=
  await_let res :=
    fetch {| method := "GET";
             url := ALLIUM_API_BASE ++ "/query-runs/" ++ String_of_json runId ++ "/results";
             req_headers := [("X-API-KEY", apiKey)];
             req_body := None |} in
  if negb (ok res) then
    throwN (Error ("Failed to get results: " ++ pretty (http_status res)))
  else liftN (json_of res).

(** The loop of [runQueryAndWait], for at most [fuel] turns; [None] when
    the turns run out before the loop ends. *)
Fixpoint wait (fuel : nat) (runId : json) (apiKey : string) (start maxWaitMs : Z)
    (st : net_state) : option (result json * net_state) :=
  if clock st - start <? maxWaitMs then
    match fuel with
    | O => None
    | S fuel' =>
        match pollQueryStatus runId apiKey st with
        | (Throw e, st1) => Some (Throw e, st1)
        | (Ok status, st1) =>
            if is_text status "success" then Some (getQueryResults runId apiKey st1)
            else if is_text status "failed" || is_text status "canceled" then
              Some (Throw (Error ("Query " ++ String_of status)), st1)
            else wait fuel' runId apiKey start maxWaitMs (snd (sleep 3000 st1))
        end
    end
  else Some (Throw (Error "Query timed out"), st).

Definition runQueryAndWait_turns (fuel : nat) (queryId apiKey : string) (maxWaitMs : Z)
    (params : list (string * string)) (st : net_state)
  : option (result json * net_state) :=
  match runQuery queryId apiKey params st with
  | (Throw e, st1) => Some (Throw e, st1)
  | (Ok runId, st1) => wait fuel runId apiKey (clock st1) maxWaitMs st1
  end.

(** The turns the loop can take when the clock does not run backwards:
    one for every started three seconds of the time limit. *)
Definition turns (maxWaitMs : Z) : nat := Z.to_nat ((maxWaitMs + 2999) / 3000).

Definition runQueryAndWait (queryId apiKey : string) (maxWaitMs : Z)
    (params : list (string * string)) : net_state -> option (result json * net_state) :=
  runQueryAndWait_turns (turns maxWaitMs) queryId apiKey maxWaitMs params.

End Client.

(** Time does not run backwards: no exchange takes a negative time and
    no timer fires early. *)
Definition forward (net : network) : Prop :=
  (forall n req, 0 <= fst (answer net n req)) /\ (forall n, 0 <= timer_late net n).

(** The status request of a run, and the request for its results. *)
Definition status_request (runId : json) (apiKey : string) : http_request :=
  {| method := "GET";
     url := ALLIUM_API_BASE ++ "/query-runs/" ++ String_of_json runId ++ "/status";
     req_headers := [("X-API-KEY", apiKey)];
     req_body := None |}.

Definition results_request (runId : json) (apiKey : string) : http_request :=
  {| method := "GET";
     url := ALLIUM_API_BASE ++ "/query-runs/" ++ String_of_json runId ++ "/results";
     req_headers := [("X-API-KEY", apiKey)];
     req_body := None |}.

(** A status that ends the loop. *)
Definition terminal (s : string) : bool :=
  String.eqb s "success" || String.eqb s "failed" || String.eqb s "canceled".

(** Every status request is answered, and with a status that does not
    end the loop, given as a bare string or in an object. *)
Definition keeps_running (net : network) : Prop :=
  forall n req, method req = "GET" ->
    exists r s, snd (answer net n req) = Response r /\ ok r = true /\ terminal s = false /\
      (json_of r = Ok (JStr s) \/
       exists more, json_of r = Ok (JObj (("status", JStr s) :: more))).

(** The answer to a status request names the status [s]: as a bare
    string, or in the field the client reads. *)
Definition names_status (r : http_response) (s : string) : Prop :=
  ok r = true /\
  exists data, json_of r = Ok data /\
    (data = JStr s \/ prop data "status" = Some (JStr s) \/ prop data "state" = Some (JStr s)).

(** The engine accepts every run and goes on reporting it as running:
    each exchange takes [d] milliseconds, the run is number 7. *)
Definition busy_engine (d : Z) : network :=
  {| answer := fun _ req =>
       (d, Response {| ok := true; http_status := 200; text := Ok "";
                       json_of := if String.eqb (method req) "POST"
                                  then Ok (JObj [("run_id", JStr "7")])
                                  else Ok (JStr "running") |});
     timer_late := fun _ => 0 |}.

(** The engine accepts the run, reports it as running once and then as
    done, and hands out [rows]. *)
Definition ready_engine (rows : json) : network :=
  {| answer := fun n _ =>
       (200, Response {| ok := true; http_status := 200; text := Ok "";
                         json_of := match n with
                                    | 0%nat => Ok (JObj [("run_id", JStr "7")])
                                    | 1%nat => Ok (JStr "running")
                                    | 2%nat => Ok (JObj [("status", JStr "success")])
                                    | _ => Ok rows
                                    end |});
     timer_late := fun _ => 5 |}.

End Allium.

(** ** [src/lib/cache.ts]: the cache in the memory of the server

    The first routes keep their results in a [Map] of the module, each
    with the time it was stored. *)

Module MemoryCache.

Definition CACHE_TTL_MS : Z := 2 * 60 * 60 * 1000.

Record CacheEntry := { data : json; timestamp : Z }.

(** The [Map] of the module. *)
Definition store : Type := gmap string CacheEntry.

(** [cacheGet(key)] at the time [now]: what it returns ([JNull] for
    [null]) and the store it leaves. *)
Definition cacheGet (now : Z) (key : string) (s : store) : json * store :=
  match s !! key with
  | None => (JNull, s)
  | Some entry =>
      if now - timestamp entry >? CACHE_TTL_MS then (JNull, delete key s)
      else (data entry, s)
  end.

(** [cacheSet(key, data)] at the time [now]. *)
Definition cacheSet (now : Z) (key : string) (d : json) (s : store) : store :=
  <[key := {| data := d; timestamp := now |}]> s.

End MemoryCache.

(** ** [src/lib/entities.ts]: the hash of an address *)

Module Entities.

(** [ToInt32]: the value in [-2^31, 2^31) that differs by a multiple of
    [2^32]. *)
Definition ToInt32 (x : Z) : Z := (x + 2 ^ 31) mod 2 ^ 32 - 2 ^ 31.

(** [a << n] *)
Definition shl (a n : Z) : Z := ToInt32 (Z.shiftl (ToInt32 a) n).

(** [str.charCodeAt(i)] for every [i], for a string of code units below
    256. *)
Definition charCodes (str : string) : list Z :=
  map (fun a => Z.of_nat (nat_of_ascii a)) (list_ascii_of_string str).

(** One turn of the loop: [hash = ((hash << 5) - hash + c) | 0]. *)
Definition simpleHash_turn (hash c : Z) : Z := ToInt32 (shl hash 5 - hash + c).

Definition simpleHash (str : string) : Z :=
  Z.abs (fold_left simpleHash_turn (charCodes str) 0).

(** The polynomial in 31 of the code units, the first one with the
    highest power. *)
Definition polynomial31 (codes : list Z) : Z :=
  fold_left (fun h c => 31 * h + c) codes 0.

End Entities.








(** Collation does not tell all strings apart: [localeCompare] gives 0
    for canonically equivalent strings, such as the two spellings of the
    letter e with an acute accent, U+00E9 and U+0065 U+0301. A string
    beyond ASCII is given here by its UTF-8 bytes. *)
Definition e_acute : string := String "195" (String "169" "").
Definition e_then_accent : string := String "e" (String "204" (String "129" "")).

(** The second spelling rewritten to the first, and comparison by code
    units after that: a comparator that, like the platform's, is
    consistent and ties on the two spellings. *)
Fixpoint compose_accent (s : string) : string :=
  match s with
  | EmptyString => EmptyString
  | String a r1 =>
      match r1 with
      | String b (String c rest) =>
          if Ascii.eqb a "e" && Ascii.eqb b "204" && Ascii.eqb c "129"
          then String "195" (String "169" (compose_accent rest))
          else String a (compose_accent r1)
      | _ => String a (compose_accent r1)
      end
  end.

Definition canonicalCompare (a b : string) : Z :=
  codeUnitCompare (compose_accent a) (compose_accent b).


(** The counts of the rows are non-negative and stay, all together,
    within 2^53: the sums the route computes in floating point are then
    the sums of the integers. *)
Definition safe_counts (items : list transfer) : Prop :=
  List.Forall (fun t => 0 <= t_count t) items /\
  fold_right Z.add 0 (map t_count items) <= 2 ^ 53.

(* ===================================================================== *)
(** * Part II. Properties *)
(* ===================================================================== *)

Example toISOString_ex : toISOString 1736166572123 = "2025-01-06T12:29:32.123Z".
Proof. vm_compute. reflexivity. Qed.

Example getTime_ex : getTime "2025-01-06T12:29:32Z" = Some 1736166572000.
Proof. vm_compute. reflexivity. Qed.

Example ttl_ex : ttlForRange "2025-01-06 00:00:00" "2025-01-06 12:00:00" = 3600000.
Proof. vm_compute. reflexivity. Qed.

Example snapToHour_doc : snapToHour "2025-01-07 14:32:15" = "2025-01-07 14:00:00".
Proof. reflexivity. Qed.

(** ** Fingerprints: [cacheKey] *)

Section CacheKeyFacts.
Variable localeCompare : string -> string -> Z.

Local Abbreviation by_key := (Cache.by_key localeCompare).
Local Abbreviation key_le := (Cache.key_le localeCompare).
Local Abbreviation consistent_comparator := (Cache.consistent_comparator localeCompare).
Local Abbreviation distinguishes := (Cache.distinguishes localeCompare).

Lemma sort_insert_perm (x : string * string) l :
  Permutation (sort_insert by_key x l) (x :: l).
Proof.
  induction l as [|y l IH]; simpl; [reflexivity|].
  destruct (by_key x y <=? 0); [reflexivity|].
  rewrite IH. apply perm_swap.
Qed.

Lemma Array_sort_perm (l : list (string * string)) :
  Permutation (Array_sort by_key l) l.
Proof.
  induction l as [|x l IH]; simpl; [reflexivity|].
  rewrite sort_insert_perm. now constructor.
Qed.

Hypothesis Hcmp : consistent_comparator.

Lemma key_le_total a b : key_le a b \/ key_le b a.
Proof.
  unfold key_le, by_key.
  destruct (Z_le_gt_dec (localeCompare (fst a) (fst b)) 0) as [H|H]; [now left|right].
  pose proof (proj2 (cmp_flip Hcmp (fst b) (fst a))). lia.
Qed.

Lemma key_le_trans a b c : key_le a b -> key_le b c -> key_le a c.
Proof. unfold key_le, by_key. apply (cmp_trans Hcmp). Qed.

Lemma sort_insert_sorted x l :
  StronglySorted key_le l -> StronglySorted key_le (sort_insert by_key x l).
Proof.
  induction 1 as [|y l Hs IH Hall]; simpl.
  - repeat constructor.
  - destruct (Z.leb_spec (by_key x y) 0) as [Hle|Hgt].
    + constructor; [now constructor|].
      constructor; [exact Hle|].
      rewrite List.Forall_forall in Hall |- *.
      intros z Hz. apply key_le_trans with y; [exact Hle|now apply Hall].
    + constructor; [exact IH|].
      assert (Hyx : key_le y x).
      { destruct (key_le_total x y) as [H|H]; [unfold key_le in H; lia|exact H]. }
      eapply Permutation_Forall; [symmetry; apply sort_insert_perm|].
      now constructor.
Qed.

Lemma Array_sort_sorted l : StronglySorted key_le (Array_sort by_key l).
Proof.
  induction l as [|x l IH]; simpl; [constructor|]. now apply sort_insert_sorted.
Qed.

(** Two sorted arrangements of the same entries coincide as soon as
    the order is antisymmetric on those entries. *)
Lemma sorted_perm_unique (l1 l2 : list (string * string)) :
  (forall x y, In x l1 -> In y l1 -> key_le x y -> key_le y x -> x = y) ->
  StronglySorted key_le l1 -> StronglySorted key_le l2 ->
  Permutation l1 l2 -> l1 = l2.
Proof.
  revert l2. induction l1 as [|x l1 IH]; intros l2 Hanti Hs1 Hs2 Hp.
  - now apply Permutation_nil in Hp.
  - destruct l2 as [|y l2]; [now apply Permutation_sym, Permutation_nil in Hp|].
    apply StronglySorted_inv in Hs1 as [Hs1 Hx].
    apply StronglySorted_inv in Hs2 as [Hs2 Hy].
    rewrite List.Forall_forall in Hx, Hy.
    assert (Hxy : x = y).
    { assert (Hin_y : In y (x :: l1)).
      { eapply Permutation_in; [symmetry; exact Hp|now left]. }
      assert (Hin_x : In x (y :: l2)).
      { eapply Permutation_in; [exact Hp|now left]. }
      destruct Hin_y as [->|Hin_y]; [reflexivity|].
      destruct Hin_x as [->|Hin_x]; [reflexivity|].
      apply Hanti; [now left|now right|apply Hx; exact Hin_y|apply Hy; exact Hin_x]. }
    subst y. f_equal.
    apply IH; auto.
    + intros a b Ha Hb. apply Hanti; now right.
    + now apply Permutation_cons_inv in Hp.
Qed.

Lemma entry_of_key (l : list (string * string)) x y :
  List.NoDup (map fst l) -> In x l -> In y l -> fst x = fst y -> x = y.
Proof.
  induction l as [|z l IH]; simpl; intros Hnd Hx Hy Hk; [contradiction|].
  apply NoDup_cons_iff in Hnd as [Hz Hnd].
  destruct Hx as [->|Hx], Hy as [->|Hy]; auto.
  - exfalso. apply Hz. rewrite Hk. now apply in_map.
  - exfalso. apply Hz. rewrite <- Hk. now apply in_map.
Qed.

(** C7. [cacheKey] does not depend on the insertion order of the
    parameters: for a parameter set (distinct keys, which the platform's
    [localeCompare], a consistent comparator, tells apart) every
    permutation of the entries gives the same string, which is the
    query identity, a colon, and the [key=value] pairs in key order
    joined by [&]. *)
Theorem cacheKey_order_independent (queryId : string) (params params' : list (string * string)) :
  List.NoDup (map fst params) ->
  distinguishes (map fst params) ->
  Permutation params params' ->
  exists sorted,
    Permutation sorted params /\ StronglySorted key_le sorted /\
    cacheKey localeCompare queryId params
      = queryId ++ ":" ++ String.concat "&" (map (fun kv => fst kv ++ "=" ++ snd kv) sorted) /\
    cacheKey localeCompare queryId params' = cacheKey localeCompare queryId params.
Proof.
  intros Hnd Hdist Hp.
  exists (Array_sort by_key params).
  split; [apply Array_sort_perm|].
  split; [apply Array_sort_sorted|].
  split; [reflexivity|].
  unfold cacheKey. fold by_key.
  replace (Array_sort by_key params') with (Array_sort by_key params); [reflexivity|].
  apply sorted_perm_unique.
  - intros x y Hx Hy Hxy Hyx.
    apply (Permutation_in _ (Array_sort_perm params)) in Hx, Hy.
    apply (entry_of_key params); auto.
    apply Hdist; [now apply in_map|now apply in_map|].
    unfold key_le, by_key in Hxy, Hyx.
    pose proof (proj1 (cmp_flip Hcmp (fst x) (fst y))). lia.
  - apply Array_sort_sorted.
  - apply Array_sort_sorted.
  - rewrite !Array_sort_perm. exact Hp.
Qed.

End CacheKeyFacts.

Lemma codeUnitCompare_consistent : consistent_comparator codeUnitCompare.
Proof.
  split; unfold codeUnitCompare.
  - intros a b. rewrite (String.compare_antisym b a).
    destruct (String.compare a b); simpl; lia.
  - intros a b c Hab Hbc.
    destruct (String.compare a b) eqn:Eab; try lia;
      destruct (String.compare b c) eqn:Ebc; try lia.
    + apply String_as_OT.cmp_eq in Eab. subst b. now rewrite Ebc.
    + apply String_as_OT.cmp_eq in Eab. subst b. now rewrite Ebc.
    + apply String_as_OT.cmp_eq in Ebc. subst c. now rewrite Eab.
    + apply String_as_OT.cmp_lt in Eab, Ebc.
      pose proof (String_as_OT.lt_trans _ _ _ Eab Ebc) as Hac.
      apply String_as_OT.cmp_lt in Hac. unfold String_as_OT.cmp in Hac.
      now rewrite Hac.
Qed.

Lemma codeUnitCompare_distinguishes keys : distinguishes codeUnitCompare keys.
Proof.
  intros k1 k2 _ _. unfold codeUnitCompare.
  destruct (String.compare k1 k2) eqn:E; try discriminate.
  intros _. now apply String_as_OT.cmp_eq.
Qed.

Lemma cacheKey_order_independent_witness :
  cacheKey codeUnitCompare "Gfa6Z0NU15RsYA4Hp3vB"
    [("end_date", "2025-01-06 12:00:00"); ("start_date", "2025-01-06 00:00:00")]
  = cacheKey codeUnitCompare "Gfa6Z0NU15RsYA4Hp3vB"
    [("start_date", "2025-01-06 00:00:00"); ("end_date", "2025-01-06 12:00:00")].
Proof.
  destruct (cacheKey_order_independent codeUnitCompare codeUnitCompare_consistent
              "Gfa6Z0NU15RsYA4Hp3vB"
              [("start_date", "2025-01-06 00:00:00"); ("end_date", "2025-01-06 12:00:00")]
              [("end_date", "2025-01-06 12:00:00"); ("start_date", "2025-01-06 00:00:00")])
    as (sorted & _ & _ & _ & H).
  - repeat constructor; simpl; intuition discriminate.
  - apply codeUnitCompare_distinguishes.
  - apply perm_swap.
  - exact H.
Defined.

Lemma canonicalCompare_consistent : consistent_comparator canonicalCompare.
Proof.
  split; unfold canonicalCompare.
  - intros a b. apply (cmp_flip codeUnitCompare_consistent).
  - intros a b c. apply (cmp_trans codeUnitCompare_consistent).
Qed.

(** C7. As worded the claim fails where collation ties: the two
    spellings of the accented letter are different parameter names that
    [localeCompare] does not tell apart, the sort leaves them in insertion
    order, and the two orders of the same parameter set give different
    fingerprints. *)
Lemma cacheKey_order_dependent_counterexample :
  consistent_comparator canonicalCompare /\
  canonicalCompare e_acute e_then_accent = 0 /\
  List.NoDup (map fst [(e_acute, "1"); (e_then_accent, "2")]) /\
  Permutation [(e_acute, "1"); (e_then_accent, "2")] [(e_then_accent, "2"); (e_acute, "1")] /\
  cacheKey canonicalCompare "q" [(e_acute, "1"); (e_then_accent, "2")]
  = "q:" ++ e_acute ++ "=1&" ++ e_then_accent ++ "=2" /\
  cacheKey canonicalCompare "q" [(e_then_accent, "2"); (e_acute, "1")]
  = "q:" ++ e_then_accent ++ "=2&" ++ e_acute ++ "=1" /\
  cacheKey canonicalCompare "q" [(e_acute, "1"); (e_then_accent, "2")]
  <> cacheKey canonicalCompare "q" [(e_then_accent, "2"); (e_acute, "1")].
Proof.
  split; [exact canonicalCompare_consistent|].
  split; [vm_compute; reflexivity|].
  split; [repeat constructor; cbn; intuition discriminate|].
  split; [apply perm_swap|].
  split; [vm_compute; reflexivity|].
  split; [vm_compute; reflexivity|].
  vm_compute. discriminate.
Qed.

Example cacheKey_flows :
  cacheKey codeUnitCompare "Gfa6Z0NU15RsYA4Hp3vB"
    [("start_date", "2025-01-06 00:00:00"); ("end_date", "2025-01-06 12:00:00")]
  = "Gfa6Z0NU15RsYA4Hp3vB:end_date=2025-01-06 12:00:00&start_date=2025-01-06 00:00:00".
Proof. reflexivity. Qed.

(** ** TTL policy: [ttlForRange] *)

Lemma ge_num_span (d c : Z) :
  ge_num (Some (inject_Z d / inject_Z (3600 * 1000))%Q) (inject_Z c) = (c * 3600000 <=? d).
Proof.
  unfold ge_num. apply eq_true_iff_eq.
  rewrite Qle_bool_iff, Z.leb_le.
  unfold Qle, Qdiv, Qmult, Qinv, inject_Z. simpl. lia.
Qed.

(** The brackets of [ttlForRange], by the span in milliseconds. *)
Lemma ttlForRange_by_span (startDate endDate : string) (s e : Z) :
  getTime (replace_first " " "T" startDate ++ "Z") = Some s ->
  getTime (replace_first " " "T" endDate ++ "Z") = Some e ->
  ttlForRange startDate endDate
  = if 168 * 3600000 <=? e - s then 21600000
    else if 24 * 3600000 <=? e - s then 7200000 else 3600000.
Proof.
  intros Hs He. unfold ttlForRange. rewrite Hs, He.
  rewrite !ge_num_span. reflexivity.
Qed.

(** An invalid date makes the span [NaN], which is in no bracket. *)
Lemma ttlForRange_invalid (startDate endDate : string) :
  getTime (replace_first " " "T" startDate ++ "Z") = None \/
  getTime (replace_first " " "T" endDate ++ "Z") = None ->
  ttlForRange startDate endDate = 3600000.
Proof.
  unfold ttlForRange. intros [H|H]; rewrite H.
  - reflexivity.
  - destruct (getTime (replace_first " " "T" startDate ++ "Z")); reflexivity.
Qed.

(** C4, as stated, fails: on a 12-hour range [ttlForRange] returns
    3600000, a count of milliseconds, not 3600. *)
Lemma ttlForRange_seconds_counterexample :
  exists s e,
    getTime (replace_first " " "T" "2025-01-06 00:00:00" ++ "Z") = Some s /\
    getTime (replace_first " " "T" "2025-01-06 12:00:00" ++ "Z") = Some e /\
    e - s = 12 * 3600000 /\
    ttlForRange "2025-01-06 00:00:00" "2025-01-06 12:00:00" <> 3600.
Proof.
  exists 1736121600000, 1736164800000. vm_compute. repeat split; discriminate.
Qed.

(** C4, amended. [ttlForRange] returns its lifetime in milliseconds:
    3600000 for a span of 12 hours, 7200000 for 48 hours and 21600000 for
    200 hours; the seconds 3600, 7200 and 21600 are what the callers'
    [Math.round(ttl / 1000)] makes of it. *)
Theorem ttlForRange_milliseconds (startDate endDate : string) (s e : Z) :
  getTime (replace_first " " "T" startDate ++ "Z") = Some s ->
  getTime (replace_first " " "T" endDate ++ "Z") = Some e ->
  (e - s = 12 * 3600000 ->
     ttlForRange startDate endDate = 3600000 /\ ttlSec startDate endDate = 3600) /\
  (e - s = 48 * 3600000 ->
     ttlForRange startDate endDate = 7200000 /\ ttlSec startDate endDate = 7200) /\
  (e - s = 200 * 3600000 ->
     ttlForRange startDate endDate = 21600000 /\ ttlSec startDate endDate = 21600).
Proof.
  intros Hs He. unfold ttlSec.
  rewrite (ttlForRange_by_span _ _ _ _ Hs He).
  split; [|split]; intros Hspan; rewrite Hspan; split; reflexivity.
Qed.

Lemma ttlForRange_milliseconds_witness :
  ttlForRange "2025-01-06 00:00:00" "2025-01-06 12:00:00" = 3600000 /\
  ttlSec "2025-01-06 00:00:00" "2025-01-06 12:00:00" = 3600.
Proof.
  destruct (ttlForRange_milliseconds "2025-01-06 00:00:00" "2025-01-06 12:00:00"
              1736121600000 1736164800000) as [H _].
  - vm_compute. reflexivity.
  - vm_compute. reflexivity.
  - apply H. reflexivity.
Defined.

(** ** The edge cache: [cfCacheMatch], [cfCachePut] *)

(** [cfCacheMatch] leaves the world as it is and performs one event. *)
Lemma cfCacheMatch_run (url : string) (w : world) :
  exists r, cfCacheMatch url w = (r, w, [EvCfCacheMatch url]).
Proof.
  unfold cfCacheMatch, bind, emit, getCfCache, try_catch, cache_match, response_json, ret.
  destruct (caches w); simpl; eauto.
  destruct (match_fails w url); simpl; eauto.
  destruct (store w !! url) as [[d t]|] eqn:Hs; simpl; eauto.
  destruct (body_fails w url); simpl; eauto.
  rewrite Hs. simpl. eauto.
Qed.



(** Nothing stored: a miss. *)
Lemma cfCacheMatch_absent (url : string) (w : world) :
  store w !! url = None -> cfCacheMatch url w = (Ok JNull, w, [EvCfCacheMatch url]).
Proof.
  intros H. unfold cfCacheMatch, bind, emit, getCfCache, try_catch, cache_match, ret.
  destruct (caches w); simpl; try reflexivity.
  destruct (match_fails w url); simpl; try reflexivity. rewrite H. reflexivity.
Qed.

(** The stored body cannot be read: the error is the caller's. *)
Lemma cfCacheMatch_body_error (url : string) (w : world) (e : thrown) (d : json) (t : Z) :
  caches w = CachesDefault -> match_fails w url = None ->
  store w !! url = Some (d, t) -> body_fails w url = Some e ->
  cfCacheMatch url w = (Throw e, w, [EvCfCacheMatch url]).
Proof.
  intros Hc Hm Hs Hb.
  unfold cfCacheMatch, bind, emit, getCfCache, try_catch, cache_match, response_json, ret.
  rewrite Hc. simpl. rewrite Hm, Hs. simpl. rewrite Hb. reflexivity.
Qed.

(** [cfCachePut] never throws; it stores the value or drops the write. *)
Lemma cfCachePut_run (url : string) (data : json) (ttl : Z) (w : world) :
  cfCachePut url data ttl w = (Ok tt, w, [EvCfCachePut url data ttl]) \/
  cfCachePut url data ttl w = (Ok tt, store_put url data ttl w, [EvCfCachePut url data ttl]).
Proof.
  unfold cfCachePut, bind, emit, getCfCache, try_catch, cache_put, ret.
  destruct (caches w); simpl; auto.
  destruct (put_fails w url); simpl; auto.
Qed.

Lemma dedup_run (key : string) (q : query) (w : world) :
  exists evs,
    dedup key q w
    = (match awaited w key q with Fulfilled v => Ok v | Rejected e => Throw e end, w, evs)
    /\ (evs = [EvDedup key q] \/ evs = [EvDedup key q; EvFetch q]).
Proof.
  unfold dedup, awaited, bind, emit, of_outcome, ret, throw.
  destruct (inflight w !! key) as [o|]; simpl.
  - destruct o; simpl; eauto.
  - destruct (upstream w q); simpl; eauto.
Qed.

(** C3. The code misses what the claim says: when the entry is found but
    its body cannot be read, [cfCacheMatch] does not return [null]; it
    rejects, and so does the flows route that awaits it outside its
    [try]. *)
Theorem cfCacheMatch_body_error_escapes :
  fst (fst (cfCacheMatch flows_default_url unreadable_entry_world))
  = Throw (JsError "TypeError" "Failed to read the response body")
  /\ fst (fst (GET_flows codeUnitCompare [] unreadable_entry_world))
     = Throw (JsError "TypeError" "Failed to read the response body").
Proof. split; vm_compute; reflexivity. Qed.

(** ** Routes: upstream failures *)

Ltac in_events :=
  repeat match goal with
         | H : In _ (_ ++ _)%list |- _ => apply in_app_or in H; destruct H as [H|H]
         | H : In _ (_ :: _) |- _ => destruct H as [H|H]
         | H : In _ [] |- _ => destruct H
         | H : _ \/ _ |- _ => destruct H as [H|H]
         | H : False |- _ => destruct H
         | H : EvCfCacheMatch _ = _ |- _ => discriminate H
         | H : EvFetch _ = _ |- _ => discriminate H
         | H : EvCfCachePut _ _ _ = EvDedup _ _ |- _ => discriminate H
         | H : EvDedup _ _ = EvCfCachePut _ _ _ |- _ => discriminate H
         | H : EvDedup _ _ = EvDedup _ _ |- _ => injection H as ? ?; subst
         | H : EvCfCachePut _ _ _ = EvCfCachePut _ _ _ |- _ => injection H as ? ? ?; subst
         end.






(** ** The wallet route *)

(** C9. With the API key configured and no [address] parameter, the
    wallet route answers 400 with the body
    [{error: "Missing address parameter"}], performs no event (no cache
    read, no cache write, no upstream call) and leaves the world as it
    was. *)
Theorem wallet_missing_address (request : list (string * string)) (w : world) (apiKey : string) :
  ALLIUM_API_KEY w = Some apiKey -> apiKey <> "" ->
  searchParams_get request "address" = None ->
  GET_wallet request w
  = (Ok {| status := 400; body := JObj [("error", JStr "Missing address parameter")];
           headers := [] |}, w, []).
Proof.
  intros Hkey Hne Haddr. unfold GET_wallet. rewrite Hkey.
  destruct (String.eqb apiKey "") eqn:E; [apply String.eqb_eq in E; contradiction|].
  rewrite Haddr. reflexivity.
Qed.

Lemma wallet_missing_address_witness :
  GET_wallet [("chain", "ethereum")] no_rows_world
  = (Ok {| status := 400; body := JObj [("error", JStr "Missing address parameter")];
           headers := [] |}, no_rows_world, []).
Proof.
  apply (wallet_missing_address [("chain", "ethereum")] no_rows_world "key").
  - reflexivity.
  - discriminate.
  - reflexivity.
Defined.




(** ** Prefetch *)

(** A time-ranged prefetch job writes, if anything, its own cache URL. *)
Lemma ranged_job_run cmp name queryId maxWaitMs spanMs apiKey w :
  exists r w' evs,
    ranged_job cmp name queryId maxWaitMs spanMs apiKey w = (r, w', evs) /\
    (w' = w \/ exists d t, w' = store_put (ranged_url name spanMs w) d t w) /\
    (forall url d t, In (EvCfCachePut url d t) evs -> url = ranged_url name spanMs w).
Proof.
  unfold ranged_job, ranged_url.
  unfold bind at 1.
  match goal with |- context [cfCacheMatch ?u w] =>
    destruct (cfCacheMatch_run u w) as [r Hr]; rewrite Hr end.
  destruct r as [cached|e0].
  2: { do 3 eexists. split; [reflexivity|]. split; [now left|]. intros; in_events. }
  destruct (truthy cached).
  { unfold ret. do 3 eexists. split; [reflexivity|]. split; [now left|]. intros; in_events. }
  unfold bind.
  match goal with |- context [dedup ?k ?q w] =>
    destruct (dedup_run k q w) as (de & Hd & Hde); rewrite Hd;
    destruct (awaited w k q) as [v|e1] end.
  - match goal with |- context [cfCachePut ?u ?d ?t w] =>
      destruct (cfCachePut_run u d t w) as [Hp|Hp]; rewrite Hp end;
      unfold ret; simpl; do 3 eexists; (split; [reflexivity|]); split; eauto.
    all: intros url d t Hin; destruct Hde; subst de; in_events; reflexivity.
  - do 3 eexists. split; [reflexivity|]. split; [now left|].
    intros url d t Hin. destruct Hde; subst de; in_events.
Qed.

Lemma wallet_job_run apiKey w :
  exists r evs, wallet_job apiKey w = (r, w, evs) /\ no_put evs.
Proof.
  unfold wallet_job, no_put. unfold bind at 1.
  match goal with |- context [cfCacheMatch ?u w] =>
    destruct (cfCacheMatch_run u w) as [r Hr]; rewrite Hr end.
  destruct r as [cached|e0].
  2: { do 2 eexists. split; [reflexivity|]. intros; intros Hin; in_events. }
  destruct (truthy cached).
  { unfold ret. do 2 eexists. split; [reflexivity|]. intros; intros Hin; in_events. }
  unfold bind.
  match goal with |- context [dedup ?k ?q w] =>
    destruct (dedup_run k q w) as (de & Hd & Hde); rewrite Hd;
    destruct (awaited w k q) as [v|e1] end.
  all: unfold ret; do 2 eexists; (split; [reflexivity|]).
  all: intros url d t Hin; destruct Hde; subst de; in_events.
Qed.

Lemma cfCacheMatch_first {A} (url : string) (k : json -> M A) (w : world) :
  exists rest, snd (bind (cfCacheMatch url) k w) = EvCfCacheMatch url :: rest.
Proof.
  unfold bind. destruct (cfCacheMatch_run url w) as [r Hr]. rewrite Hr.
  destruct r as [a|e]; [destruct (k a w) as [[r' w'] evs]|]; simpl; eauto.
Qed.

Lemma settled_run job w r w' evs :
  job w = (r, w', evs) -> exists j, settled job w = (Ok j, w', evs).
Proof.
  intros H. unfold settled, try_catch, bind, ret. rewrite H.
  destruct r; simpl; rewrite app_nil_r; eauto.
Qed.

Lemma ranged_url_not_wallet name spanMs w :
  name = "flows" \/ name = "bridges" ->
  ranged_url name spanMs w <> wallet_cache_url DEFAULT_WALLET "ethereum".
Proof. intros [->| ->]; unfold ranged_url; simpl; discriminate. Qed.

(** C8. The wallet job of the prefetch route calls no [cfCachePut] and
    leaves the world, the edge cache with it, as it was, whether the job
    succeeds or not; after the whole prefetch the entry under the URL
    that the wallet route looks up for the default wallet is what it was
    before (absent if it was absent), and nothing was put under it. *)
Theorem prefetch_wallet_job_no_write (localeCompare : string -> string -> Z)
    (apiKey : string) (w : world) :
  ALLIUM_API_KEY w = Some apiKey -> apiKey <> "" ->
  snd (fst (wallet_job apiKey w)) = w /\
  no_put (snd (wallet_job apiKey w)) /\
  store (snd (fst (GET_prefetch localeCompare w))) !! wallet_cache_url DEFAULT_WALLET "ethereum"
  = store w !! wallet_cache_url DEFAULT_WALLET "ethereum" /\
  (forall d t, ~ In (EvCfCachePut (wallet_cache_url DEFAULT_WALLET "ethereum") d t)
                    (snd (GET_prefetch localeCompare w))) /\
  (exists rest,
     snd (GET_wallet [("address", DEFAULT_WALLET); ("chain", "ethereum")] w)
     = EvCfCacheMatch (wallet_cache_url DEFAULT_WALLET "ethereum") :: rest).
Proof.
  intros Hkey Hne.
  assert (Heqb : String.eqb apiKey "" = false).
  { destruct (String.eqb apiKey "") eqn:E; [apply String.eqb_eq in E; contradiction|reflexivity]. }
  destruct (wallet_job_run apiKey w) as (r & evs & Hrun & Hnp).
  split; [now rewrite Hrun|]. split; [now rewrite Hrun|].
  (* the whole prefetch *)
  unfold GET_prefetch. rewrite Hkey, Heqb.
  destruct (ranged_job_run localeCompare "flows" FLOWS_QUERY_ID 300000 (24 * 3600 * 1000) apiKey w)
    as (r1 & w1 & e1 & H1 & Hw1 & Hp1).
  destruct (settled_run _ _ _ _ _ H1) as [j1 Hs1].
  destruct (ranged_job_run localeCompare "bridges" BRIDGE_QUERY_ID 30000 (3600 * 1000) apiKey w1)
    as (r2 & w2 & e2 & H2 & Hw2 & Hp2).
  destruct (settled_run _ _ _ _ _ H2) as [j2 Hs2].
  destruct (wallet_job_run apiKey w2) as (r3 & e3 & H3 & Hp3).
  destruct (settled_run _ _ _ _ _ H3) as [j3 Hs3].
  unfold bind, flows_job, bridges_job. rewrite Hs1, Hs2, Hs3. unfold ret. simpl.
  split; [|split].
  - assert (E1 : store w1 !! wallet_cache_url DEFAULT_WALLET "ethereum"
                 = store w !! wallet_cache_url DEFAULT_WALLET "ethereum").
    { destruct Hw1 as [->|(d & t & ->)]; [reflexivity|]. simpl.
      apply lookup_insert_ne, ranged_url_not_wallet. now left. }
    rewrite <- E1.
    destruct Hw2 as [->|(d & t & ->)]; [reflexivity|]. simpl.
    apply lookup_insert_ne, ranged_url_not_wallet. now right.
  - intros d t Hin. rewrite app_nil_r in Hin.
    apply in_app_or in Hin as [Hin|Hin]; [|apply in_app_or in Hin as [Hin|Hin]].
    + apply Hp1 in Hin. symmetry in Hin. revert Hin. apply ranged_url_not_wallet. now left.
    + apply Hp2 in Hin. symmetry in Hin. revert Hin. apply ranged_url_not_wallet. now right.
    + exact (Hp3 _ _ _ Hin).
  - unfold GET_wallet. rewrite Hkey, Heqb.
    change (searchParams_get [("address", DEFAULT_WALLET); ("chain", "ethereum")] "address")
      with (Some DEFAULT_WALLET).
    change (or_str (searchParams_get [("address", DEFAULT_WALLET); ("chain", "ethereum")]
                      "chain") "ethereum") with "ethereum".
    change (String.eqb DEFAULT_WALLET "") with false. cbv iota.
    apply cfCacheMatch_first.
Qed.

Lemma prefetch_wallet_job_no_write_witness :
  snd (fst (wallet_job "key" no_rows_world)) = no_rows_world /\
  store (snd (fst (GET_prefetch codeUnitCompare no_rows_world)))
    !! wallet_cache_url DEFAULT_WALLET "ethereum" = None.
Proof.
  destruct (prefetch_wallet_job_no_write codeUnitCompare "key" no_rows_world)
    as (Hw & _ & Hs & _).
  - reflexivity.
  - discriminate.
  - split; [exact Hw|]. rewrite Hs. reflexivity.
Defined.

(** ** Dates: formatting and reading back *)

Lemma digit_cases (n : Z) :
  exists k, In k [0; 1; 2; 3; 4; 5; 6; 7; 8; 9] /\ n mod 10 = k.
Proof.
  exists (n mod 10). split; [|reflexivity].
  assert (H : 0 <= n mod 10 < 10) by (apply Z.mod_pos_bound; lia).
  assert (Hc : n mod 10 = 0 \/ n mod 10 = 1 \/ n mod 10 = 2 \/ n mod 10 = 3 \/ n mod 10 = 4 \/
               n mod 10 = 5 \/ n mod 10 = 6 \/ n mod 10 = 7 \/ n mod 10 = 8 \/ n mod 10 = 9)
    by lia.
  simpl. intuition.
Qed.

Lemma digit_val_digit (n : Z) : digit_val (digit n) = Some (n mod 10).
Proof.
  unfold digit. destruct (digit_cases n) as (k & Hk & ->).
  simpl in Hk. intuition; subst; reflexivity.
Qed.

Lemma digit_not_T (n : Z) : Ascii.eqb (digit n) "T" = false.
Proof.
  unfold digit. destruct (digit_cases n) as (k & Hk & ->).
  simpl in Hk. intuition; subst; reflexivity.
Qed.

Lemma digit_not_space (n : Z) : Ascii.eqb (digit n) " " = false.
Proof.
  unfold digit. destruct (digit_cases n) as (k & Hk & ->).
  simpl in Hk. intuition; subst; reflexivity.
Qed.

Lemma replace_first_skip (c d a : ascii) (s : string) :
  Ascii.eqb a c = false ->
  replace_first c d (String a s) = String a (replace_first c d s).
Proof. intros H. simpl. now rewrite H. Qed.

Lemma replace_first_hit (c d : ascii) (s : string) :
  replace_first c d (String c s) = String d s.
Proof. simpl. now rewrite Ascii.eqb_refl. Qed.

(** A stamped instant, snapped and spelled as [ttlForRange] parses it,
    is the date and the hour of the ISO string followed by [:00:00Z]. *)
Lemma snapped_stamp_format (Y Mo D H Mi S ms : Z) :
  replace_first " " "T"
    (snapToHour (slice0 19 (replace_first "T" " " (iso_format Y Mo D H Mi S ms)))) ++ "Z"
  = pad4 Y ++ "-" ++ pad2 Mo ++ "-" ++ pad2 D ++ "T" ++ pad2 H ++ ":00:00Z".
Proof.
  unfold iso_format, pad4, pad3, pad2, snapToHour.
  cbv [String.append].
  rewrite !(replace_first_skip "T" " ") by (apply digit_not_T || reflexivity).
  rewrite replace_first_hit.
  cbv [slice0 String.substring String.append].
  rewrite !(replace_first_skip " " "T") by (apply digit_not_space || reflexivity).
  rewrite replace_first_hit.
  reflexivity.
Qed.

Lemma snapToHour_stamp_format (Y Mo D H Mi S ms : Z) :
  snapToHour (slice0 19 (replace_first "T" " " (iso_format Y Mo D H Mi S ms)))
  = pad4 Y ++ "-" ++ pad2 Mo ++ "-" ++ pad2 D ++ " " ++ pad2 H ++ ":00:00".
Proof.
  unfold iso_format, pad4, pad3, pad2, snapToHour.
  cbv [String.append].
  rewrite !(replace_first_skip "T" " ") by (apply digit_not_T || reflexivity).
  rewrite replace_first_hit.
  reflexivity.
Qed.

(** Linear arithmetic with division and remainder by constants. *)
Ltac zdiv := Z.to_euclidean_division_equations; lia.

Lemma pad2_value (n : Z) : 0 <= n < 100 ->
  digits_val 0 [digit (n / 10); digit n] = Some n.
Proof.
  intros H. cbn [digits_val]. rewrite !digit_val_digit. f_equal. zdiv.
Qed.

Lemma pad4_value (n : Z) : 0 <= n < 10000 ->
  digits_val 0 [digit (n / 1000); digit (n / 100); digit (n / 10); digit n] = Some n.
Proof.
  intros H. cbn [digits_val]. rewrite !digit_val_digit. f_equal. zdiv.
Qed.

Lemma DaysInMonth_le_31 (leap : bool) (m : Z) : 0 <= m <= 11 -> DaysInMonth leap m <= 31.
Proof.
  intros H.
  assert (Hc : m = 0 \/ m = 1 \/ m = 2 \/ m = 3 \/ m = 4 \/ m = 5 \/ m = 6 \/ m = 7 \/
               m = 8 \/ m = 9 \/ m = 10 \/ m = 11) by lia.
  destruct leap; intuition; subst; vm_compute; discriminate.
Qed.

(** Reading back a formatted date and hour. *)
Lemma getTime_formatted (Y Mo D H : Z) :
  0 <= Y < 10000 -> 1 <= Mo <= 12 -> 1 <= D <= DaysInMonth (InLeapYear Y) (Mo - 1) ->
  0 <= H <= 23 ->
  getTime (pad4 Y ++ "-" ++ pad2 Mo ++ "-" ++ pad2 D ++ "T" ++ pad2 H ++ ":00:00Z")
  = Some (MakeDate (MakeDay Y (Mo - 1) D) (MakeTime H 0 0 0)).
Proof.
  intros HY HMo HD HH.
  pose proof (DaysInMonth_le_31 (InLeapYear Y) (Mo - 1) ltac:(lia)) as H31.
  unfold pad4, pad3, pad2, getTime.
  cbv [String.append list_ascii_of_string].
  change (Ascii.eqb "-" "-" && Ascii.eqb "-" "-" && Ascii.eqb "T" "T" && Ascii.eqb ":" ":"
          && Ascii.eqb ":" ":" && Ascii.eqb "Z" "Z") with true.
  cbv iota.
  rewrite (pad4_value Y) by lia.
  rewrite (pad2_value Mo), (pad2_value D), (pad2_value H) by lia.
  change (digits_val 0 ["0"%char; "0"%char]) with (Some 0).
  cbv iota.
  replace ((1 <=? Mo) && (Mo <=? 12) && (1 <=? D)
           && (D <=? DaysInMonth (InLeapYear Y) (Mo - 1))
           && (H <=? 23) && (0 <=? 59) && (0 <=? 59)) with true; [reflexivity|].
  symmetry. rewrite !andb_true_iff, !Z.leb_le. lia.
Qed.

(** *** The calendar *)

Lemma DayFromYear_next (y : Z) :
  DayFromYear (y + 1) = DayFromYear y + DaysInYear y.
Proof.
  unfold DayFromYear, DaysInYear, InLeapYear.
  destruct (y mod 4 =? 0) eqn:E4; destruct (y mod 100 =? 0) eqn:E100;
    destruct (y mod 400 =? 0) eqn:E400; simpl;
    rewrite ?Z.eqb_eq, ?Z.eqb_neq in *; zdiv.
Qed.

Lemma DaysInYear_bounds (y : Z) : 365 <= DaysInYear y <= 366.
Proof. unfold DaysInYear. destruct (InLeapYear y); lia. Qed.

Lemma find_year_spec (fuel : nat) (y d : Z) :
  DayFromYear y <= d -> d < DayFromYear (y + Z.of_nat fuel) ->
  DayFromYear (find_year fuel y d) <= d < DayFromYear (find_year fuel y d + 1) /\
  y <= find_year fuel y d < y + Z.of_nat fuel.
Proof.
  revert y. induction fuel as [|fuel IH]; intros y Hlo Hhi.
  - rewrite Z.add_0_r in Hhi. lia.
  - cbn [find_year].
    destruct (Z.ltb_spec d (DayFromYear (y + 1))) as [Hlt|Hge].
    + split; lia.
    + destruct (IH (y + 1)) as [H1 H2]; [exact Hge|
        replace (y + 1 + Z.of_nat fuel) with (y + Z.of_nat (S fuel)) by lia; exact Hhi|].
      split; [exact H1|lia].
Qed.

(** From 1970 to the end of 9999. *)
Lemma YearFromDay_spec (d : Z) :
  0 <= d < 2932897 ->
  DayFromYear (YearFromDay d) <= d < DayFromYear (YearFromDay d + 1) /\
  1970 <= YearFromDay d < 10000.
Proof.
  intros Hd. unfold YearFromDay.
  destruct (Z.ltb_spec d 0) as [Hneg|_]; [lia|].
  destruct (find_year_spec 64 (1970 + d / 366) d) as [H1 H2].
  - unfold DayFromYear. zdiv.
  - unfold DayFromYear. change (Z.of_nat 64) with 64. zdiv.
  - split; [exact H1|]. split; [zdiv|].
    destruct (Z_lt_ge_dec (find_year 64 (1970 + d / 366) d) 10000) as [Hlt|Hge]; [exact Hlt|].
    exfalso.
    assert (Hmono : forall a b, a <= b -> DayFromYear a <= DayFromYear b).
    { intros a b Hab. unfold DayFromYear. zdiv. }
    pose proof (Hmono 10000 (find_year 64 (1970 + d / 366) d) ltac:(lia)) as Hm.
    change (DayFromYear 10000) with 2932897 in Hm. lia.
Qed.

Lemma month_of_day (leap : bool) (dayInYear : Z) :
  0 <= dayInYear < (if leap then 366 else 365) ->
  let m := MonthFromDayInYear leap dayInYear in
  0 <= m <= 11 /\
  1 <= dayInYear - month_start leap m + 1 <= DaysInMonth leap m.
Proof.
  intros Hd.
  set (ok := fun (lp : bool) (n : nat) =>
    let d := Z.of_nat n in
    let m := MonthFromDayInYear lp d in
    (0 <=? m) && (m <=? 11) && (1 <=? d - month_start lp m + 1)
    && (d - month_start lp m + 1 <=? DaysInMonth lp m)).
  assert (Hall : forall (lp : bool) (n : nat),
             (n < (if lp then 366 else 365))%nat -> ok lp n = true).
  { intros lp n Hn.
    assert (Hf : forallb (ok lp) (seq 0 (if lp then 366 else 365)) = true)
      by (destruct lp; vm_compute; reflexivity).
    rewrite forallb_forall in Hf. apply Hf. apply in_seq. lia. }
  specialize (Hall leap (Z.to_nat dayInYear)).
  unfold ok in Hall. rewrite Z2Nat.id in Hall by lia.
  cbv zeta in Hall |- *.
  rewrite !andb_true_iff, !Z.leb_le in Hall.
  destruct leap; lia.
Qed.

(** A stamp that is snapped to the hour and read back is the instant's
    hour. *)
Lemma time_of_snapped_stamp (t : Z) :
  0 <= t < 253402300800000 ->
  time_of (snapToHour (stamp t)) = Some (floor_to (3600 * 1000) t).
Proof.
  intros Ht. unfold time_of, stamp, toISOString.
  rewrite snapped_stamp_format.
  assert (Hday : 0 <= Day t < 2932897) by (unfold Day, msPerDay; zdiv).
  destruct (YearFromDay_spec (Day t) Hday) as [Hy Hyr].
  fold (YearFromTime t) in Hy, Hyr.
  rewrite DayFromYear_next in Hy.
  assert (Hdwy : 0 <= DayWithinYear t < (if InLeapYear (YearFromTime t) then 366 else 365)).
  { unfold DayWithinYear. unfold DaysInYear in Hy. lia. }
  destruct (month_of_day _ _ Hdwy) as [Hm Hdate].
  fold (MonthFromTime t) in Hm, Hdate. fold (DateFromTime t) in Hdate.
  rewrite getTime_formatted.
  - f_equal. replace (MonthFromTime t + 1 - 1) with (MonthFromTime t) by lia.
    unfold MakeDate, MakeDay, MakeTime, floor_to.
    unfold DateFromTime, DayWithinYear, HourFromTime, Day, msPerDay, msPerHour.
    zdiv.
  - lia.
  - lia.
  - replace (MonthFromTime t + 1 - 1) with (MonthFromTime t) by lia. exact Hdate.
  - unfold HourFromTime. zdiv.
Qed.

Lemma stamp_not_empty (t : Z) : String.eqb (stamp t) "" = false.
Proof.
  unfold stamp, toISOString, iso_format, pad4.
  cbv [String.append].
  rewrite (replace_first_skip "T" " ") by apply digit_not_T.
  reflexivity.
Qed.

(** ** The default window *)

Lemma window_default (span : Z) (w : world) :
  window span [] w
  = (snapToHour (stamp (floor_to (3600 * 1000) (now w) - span)),
     snapToHour (stamp (floor_to (3600 * 1000) (now w)))).
Proof. reflexivity. Qed.

Lemma window_explicit (span : Z) (w : world) (a b : string) :
  String.eqb a "" = false -> String.eqb b "" = false ->
  window span [("start_date", a); ("end_date", b)] w = (snapToHour a, snapToHour b).
Proof.
  intros Ha Hb. unfold window, searchParams_get. simpl. unfold or_str. now rewrite Ha, Hb.
Qed.





(** ** Routes: upstream failures *)


















(** ** The coalescer: the microtask queue runs dry *)

Section CoalescerFacts.
Import Coalescer.

Lemma waiting_update (s : state) (x : pid) (old new : promise) :
  heap s !! x = Some old ->
  (waiting (set_heap (<[x := new]> (heap s)) s) + reactions_of old
   = waiting s + reactions_of new)%nat.
Proof.
  intros Hx. unfold waiting, set_heap, reactions_of. cbn [heap].
  rewrite <- (insert_delete_eq (heap s) x new).
  rewrite map_fold_insert_L.
  - rewrite (map_fold_delete_L _ _ x old (heap s)); [|intros; destruct (pst z1), (pst z2); lia|exact Hx].
    destruct (pst old), (pst new); lia.
  - intros; destruct (pst z1), (pst z2); lia.
  - apply lookup_delete_eq.
Qed.

Lemma backlog_perform_then (p : pid) (r : reaction) (s : state) :
  (backlog (perform_then p r s) <= S (backlog s))%nat.
Proof.
  unfold perform_then.
  destruct (heap s !! p) as [[b [rs|o]]|] eqn:Hp.
  - pose proof (waiting_update s p _ {| born := b; pst := Pending (rs ++ [r]) |} Hp) as Hw.
    unfold reactions_of in Hw. cbn [pst] in Hw. rewrite length_app in Hw. simpl in Hw.
    unfold backlog, set_heap in *. cbn [queue] in *. lia.
  - unfold backlog, enqueue, waiting. cbn [queue heap].
    rewrite List.filter_app, !length_app. simpl. lia.
  - lia.
Qed.

Lemma backlog_settle (x : pid) (o : outcome) (s : state) :
  (backlog (settle x o s) <= backlog s)%nat.
Proof.
  unfold settle.
  destruct (heap s !! x) as [[b [rs|o']]|] eqn:Hx; try lia.
  pose proof (waiting_update s x _ {| born := b; pst := Settled o |} Hx) as Hw.
  unfold reactions_of in Hw. cbn [pst] in Hw.
  assert (Hnone : List.filter is_thenable_job (map (fun r => ReactionJob r o) rs) = []).
  { clear. induction rs; simpl; auto. }
  unfold backlog, enqueue, set_heap in *. cbn [queue] in *.
  rewrite List.filter_app, !length_app, length_map, Hnone.
  unfold waiting in *. cbn [heap] in *. simpl. lia.
Qed.

Lemma backlog_inflight_delete (key : string) (s : state) :
  backlog (inflight_delete key s) = backlog s.
Proof. reflexivity. Qed.

(** Every job that runs brings the queue closer to empty. *)
Lemma backlog_tick (s : state) :
  queue s <> [] -> (backlog (step Tick s) < backlog s)%nat.
Proof.
  intros Hq. unfold step. destruct (queue s) as [|j rest] eqn:Eq; [contradiction|].
  set (s0 := {| inflight := inflight s; heap := heap s; queue := rest; next := next s;
                trace := trace s |}).
  assert (H0 : (backlog s0 + (if is_thenable_job j then 2 else 1) = backlog s)%nat).
  { unfold backlog, waiting. cbn [queue heap s0]. rewrite Eq. simpl.
    destruct (is_thenable_job j); simpl; lia. }
  destruct j as [[h x] o|promise thenable]; cbn [run_job is_thenable_job] in *.
  - destruct h as [key|key|]; [destruct o|destruct o|].
    + pose proof (backlog_settle x (Fulfilled v) (inflight_delete key s0)).
      rewrite backlog_inflight_delete in *. lia.
    + pose proof (backlog_settle x (Rejected e) s0). lia.
    + pose proof (backlog_settle x (Fulfilled v) s0). lia.
    + pose proof (backlog_settle x (Rejected e) (inflight_delete key s0)).
      rewrite backlog_inflight_delete in *. lia.
    + pose proof (backlog_settle x o s0). lia.
  - pose proof (backlog_perform_then thenable {| handle := Resolve; derived := promise |} s0).
    lia.
Qed.

Lemma ticks_idle (n : nat) (s : state) : queue s = [] -> ticks n s = s.
Proof.
  intros Hq. induction n as [|n IH]; [reflexivity|].
  cbn [ticks]. unfold step. rewrite Hq. exact IH.
Qed.

Lemma ticks_empty (n : nat) (s : state) :
  (backlog s <= n)%nat -> queue (ticks n s) = [].
Proof.
  revert s. induction n as [|n IH]; intros s Hb.
  - cbn [ticks]. unfold backlog in Hb. destruct (queue s); [reflexivity|simpl in Hb; lia].
  - destruct (queue s) as [|j rest] eqn:Eq.
    + now rewrite ticks_idle.
    + cbn [ticks]. apply IH.
      assert (Hne : queue s <> []) by (rewrite Eq; discriminate).
      pose proof (backlog_tick s Hne). lia.
Qed.

Lemma drain_empty (s : state) : queue (drain s) = [].
Proof. apply ticks_empty. lia. Qed.

(** ** The coalescer: the shape of the reachable states is kept *)

Lemma jobs_for_app x q1 q2 : jobs_for x (q1 ++ q2) = (jobs_for x q1 ++ jobs_for x q2)%list.
Proof. apply List.filter_app. Qed.

Lemma waits_for_app x r1 r2 : waits_for x (r1 ++ r2) = (waits_for x r1 ++ waits_for x r2)%list.
Proof. apply List.filter_app. Qed.

Lemma jobs_for_reactions x o rs :
  jobs_for x (map (fun r => ReactionJob r o) rs) = map (fun r => ReactionJob r o) (waits_for x rs).
Proof.
  induction rs as [|r rs IH]; [reflexivity|].
  simpl. destruct (Nat.eqb (derived r) x); simpl; now rewrite IH.
Qed.

Lemma jobs_for_In x j q : In j q -> targets x j = true -> In j (jobs_for x q).
Proof. intros. apply List.filter_In. auto. Qed.

Lemma jobs_for_none x q : (forall j, In j q -> targets x j = false) -> jobs_for x q = [].
Proof.
  induction q as [|j q IH]; intros H; [reflexivity|].
  simpl. rewrite (H j) by now left. apply IH. intros j' Hj'. apply H. now right.
Qed.

Lemma waits_for_none x rs : (forall r, In r rs -> derived r <> x) -> waits_for x rs = [].
Proof.
  induction rs as [|r rs IH]; intros H; [reflexivity|].
  simpl. destruct (Nat.eqb_spec (derived r) x) as [E|_].
  - exfalso. apply (H r); [now left|exact E].
  - apply IH. intros r' Hr'. apply H. now right.
Qed.

Lemma waits_for_In x r rs : In r rs -> derived r = x -> In r (waits_for x rs).
Proof. intros Hin E. apply List.filter_In. split; [exact Hin|]. now apply Nat.eqb_eq. Qed.

Lemma has_inj s x b st b' st' : has s x b st -> has s x b' st' -> b = b' /\ st = st'.
Proof. unfold has. intros H1 H2. rewrite H1 in H2. now injection H2. Qed.

(** A derived promise is not its own source. *)
Lemma source_other' s x b st y h :
  Shape s -> has s x b st -> source b = Some (y, h) -> y <> x.
Proof.
  intros HI Hx Hs ->. pose proof (inv_origin s HI x b st Hx) as Ho.
  destruct b as [key|key op|key t|key p]; simpl in Hs; try discriminate;
    injection Hs as <- <-; simpl in Ho.
  - destruct Ho as [st' H']. destruct (has_inj _ _ _ _ _ _ Hx H') as [E _]. discriminate E.
  - destruct Ho as (op & st' & H'). destruct (has_inj _ _ _ _ _ _ Hx H') as [E _].
    discriminate E.
  - destruct Ho as (t & st' & H'). destruct (has_inj _ _ _ _ _ _ Hx H') as [E _].
    discriminate E.
Qed.


(** A link depends on the two promises and on the jobs of the derived one. *)
Lemma link_frame s s' x y h :
  link s x y h ->
  heap s' !! x = heap s !! x -> heap s' !! y = heap s !! y ->
  jobs_for x (queue s') = jobs_for x (queue s) ->
  link s' x y h.
Proof.
  intros L Ex Ey Ej.
  assert (Hw : waiting_on s' y x = waiting_on s y x) by (unfold waiting_on; now rewrite Ey).
  destruct L as [bx rsx Hh Hpx Hj Hwo|bx rsx Hpx Hj Hwo|bx rsx by' oy Hpx Hy Hj
                |bx by' oy Hpx Hy Hj]; unfold has in *.
  - eapply LinkThenable; unfold has; rewrite ?Ex, ?Ej, ?Hw; eauto.
  - eapply LinkWaiting; unfold has; rewrite ?Ex, ?Ej, ?Hw; eauto.
  - eapply LinkQueued; unfold has; rewrite ?Ex, ?Ey, ?Ej; eauto.
  - eapply LinkDone; unfold has; rewrite ?Ex, ?Ey, ?Ej; eauto.
Qed.

(** The promise a job will settle is in the heap. *)
Lemma job_target s j x :
  Shape s -> In j (queue s) -> targets x j = true -> exists b st, has s x b st.
Proof.
  intros HI Hj Ht. pose proof (inv_queue s HI j Hj) as Hok.
  destruct j as [r o|promise thenable]; simpl in *; apply Nat.eqb_eq in Ht; subst x.
  - destruct Hok as (b & st & y & H & _). eauto.
  - destruct Hok as (key & st & H). eauto.
Qed.

(** The source of a derived promise is in the heap. *)
Lemma source_has s x b st y h :
  Shape s -> has s x b st -> source b = Some (y, h) -> exists b' st', has s y b' st'.
Proof.
  intros HI Hx Hs. pose proof (inv_origin s HI x b st Hx) as Ho.
  destruct b as [key|key op|key t|key p]; simpl in Hs; try discriminate;
    injection Hs as <- <-; simpl in Ho.
  - destruct Ho as [st' H']. eauto.
  - destruct Ho as (op & st' & H'). eauto.
  - destruct Ho as (t & st' & H'). eauto.
Qed.

Section Thenable.
(** The job [ThenableJob x y] leaves the queue and runs. *)
Variables (s s' : state) (x y : pid) (rest : list job).
Hypothesis HI : Shape s.
Hypothesis Hq : queue s = ThenableJob x y :: rest.
Hypothesis Hnext : next s' = next s.

Lemma thenable_origin : exists key st, has s x (FromDedup key y) st.
Proof. apply (inv_queue s HI (ThenableJob x y)). rewrite Hq. now left. Qed.

Lemma thenable_link :
  exists b rs, has s x b (Pending rs) /\ jobs_for x rest = [] /\ waiting_on s y x = [].
Proof.
  destruct thenable_origin as (key & st & Hx).
  pose proof (inv_link s HI x _ _ y Resolve Hx eq_refl) as L.
  assert (Hin : In (ThenableJob x y) (jobs_for x (queue s))).
  { apply jobs_for_In; [rewrite Hq; now left|simpl; apply Nat.eqb_refl]. }
  assert (Hjx : jobs_for x (queue s) = ThenableJob x y :: jobs_for x rest).
  { rewrite Hq. simpl. now rewrite Nat.eqb_refl. }
  destruct L as [bx rsx Hh Hpx Hj Hwo|bx rsx Hpx Hj Hwo|bx rsx by' oy Hpx Hy Hj
                |bx by' oy Hpx Hy Hj]; rewrite Hj in Hin; simpl in Hin.
  - rewrite Hjx in Hj. injection Hj as Hj. eauto.
  - contradiction.
  - destruct Hin as [E|[]]. discriminate E.
  - contradiction.
Qed.

Lemma thenable_other x' : x' <> x -> jobs_for x' rest = jobs_for x' (queue s).
Proof.
  intros Hne. rewrite Hq. simpl. destruct (Nat.eqb_spec x x'); [congruence|reflexivity].
Qed.

Lemma thenable_yx : y <> x.
Proof.
  destruct thenable_origin as (key & st & Hx).
  exact (source_other' s x _ _ y Resolve HI Hx eq_refl).
Qed.

(** [y] is pending: the reaction is added to it. *)
Section Registering.
Variables (by' : origin) (rsy : list reaction).
Hypothesis Hy : has s y by' (Pending rsy).
Hypothesis Hheap :
  heap s' = <[y := {| born := by';
                      pst := Pending (rsy ++ [{| handle := Resolve; derived := x |}]) |}]>
              (heap s).
Hypothesis Hqueue : queue s' = rest.

Lemma registering_has z b st :
  has s' z b st <->
  (z = y /\ b = by' /\ st = Pending (rsy ++ [{| handle := Resolve; derived := x |}])) \/
  (z <> y /\ has s z b st).
Proof.
  unfold has. rewrite Hheap, lookup_insert_Some. split.
  - intros [[-> E]|[Hne H]]; [left|right; auto]. injection E as -> ->. auto.
  - intros [(-> & -> & ->)|[Hne H]]; [left|right]; auto.
Qed.

Lemma registering_keeps z b st : has s z b st -> exists st', has s' z b st'.
Proof.
  intros H. destruct (Nat.eq_dec z y) as [->|Hne].
  - destruct (has_inj _ _ _ _ _ _ H Hy) as [-> _]. eexists.
    apply registering_has. left. eauto.
  - exists st. apply registering_has. now right.
Qed.

Lemma registering_back z b st' : has s' z b st' -> exists st, has s z b st.
Proof.
  intros H. apply registering_has in H as [(-> & -> & ->)|[_ H]]; eauto.
Qed.

Lemma registering_shape : Shape s'.
Proof.
  destruct thenable_origin as (key & stx & Hx).
  destruct thenable_link as (bx & rsx & Hpx & Hjx & Hwx).
  pose proof thenable_yx as Hyx.
  split.
  - intros z Hz. rewrite Hnext in Hz. rewrite Hheap.
    rewrite lookup_insert_ne; [now apply (inv_fresh s HI)|].
    intros <-. pose proof Hy as Hy0. unfold has in Hy0.
    rewrite (inv_fresh s HI y Hz) in Hy0. discriminate.
  - intros z bz st Hz. destruct (registering_back _ _ _ Hz) as [st0 H0].
    pose proof (inv_origin s HI _ _ _ H0) as Ho.
    destruct bz; simpl in *; auto.
    + destruct Ho as [st1 H1]. apply registering_keeps in H1. exact H1.
    + destruct Ho as (op & st1 & H1). apply registering_keeps in H1 as [st2 H2]. eauto.
    + destruct Ho as (t & st1 & H1). apply registering_keeps in H1 as [st2 H2]. eauto.
  - intros op k st Hop. destruct (registering_back _ _ _ Hop) as [st0 H0].
    destruct (inv_then s HI _ _ _ H0) as (t & st1 & H1).
    apply registering_keeps in H1 as [st2 H2]. eauto.
  - intros t k op st Ht. destruct (registering_back _ _ _ Ht) as [st0 H0].
    destruct (inv_catch s HI _ _ _ _ H0) as (p & st1 & H1).
    apply registering_keeps in H1 as [st2 H2]. eauto.
  - intros y0 b0 rs0 r H0 Hr.
    apply registering_has in H0 as [(-> & -> & E)|[Hne H0]].
    + injection E as ->. apply in_app_or in Hr as [Hr|[<-|[]]].
      * destruct (inv_reactions s HI _ _ _ _ Hy Hr) as (b1 & st1 & H1 & Hs1).
        apply registering_keeps in H1 as [st2 H2]. eauto.
      * simpl. destruct (registering_keeps _ _ _ Hx) as [st2 H2]. eauto.
    + destruct (inv_reactions s HI _ _ _ _ H0 Hr) as (b1 & st1 & H1 & Hs1).
      apply registering_keeps in H1 as [st2 H2]. eauto.
  - intros j Hj. rewrite Hqueue in Hj.
    assert (Hj' : In j (queue s)) by (rewrite Hq; now right).
    pose proof (inv_queue s HI j Hj') as Hok.
    destruct j as [r oj|xj yj]; simpl in *.
    + destruct Hok as (b1 & st1 & y1 & H1 & Hs1).
      apply registering_keeps in H1 as [st2 H2]. eauto.
    + destruct Hok as (k & st1 & H1). apply registering_keeps in H1 as [st2 H2]. eauto.
  - intros x' b' st' y' h' Hx' Hs'.
    assert (Hwy : forall z, waiting_on s' y z
                  = (waiting_on s y z
                     ++ waits_for z [{| handle := Resolve; derived := x |}])%list).
    { intros z. unfold waiting_on. pose proof Hy as Hy0. unfold has in Hy0.
      rewrite Hheap, lookup_insert_eq, Hy0. apply waits_for_app. }
    apply registering_has in Hx' as [(-> & -> & ->)|[Hne Hx']].
    + (* [y] itself, with respect to its own source *)
      pose proof (inv_link s HI _ _ _ _ _ Hy Hs') as L.
      assert (Hy'y : y' <> y) by (eapply source_other'; eauto).
      assert (Ej : jobs_for y (queue s') = jobs_for y (queue s))
        by (rewrite Hqueue; now apply thenable_other).
      assert (Ew : waiting_on s' y' y = waiting_on s y' y).
      { unfold waiting_on. now rewrite Hheap, lookup_insert_ne. }
      assert (Ey' : forall b1 st1, has s y' b1 st1 -> has s' y' b1 st1).
      { intros b1 st1 H1. apply registering_has. right. auto. }
      destruct L as [bx0 rsx0 Hh Hpx0 Hj Hwo|bx0 rsx0 Hpx0 Hj Hwo|bx0 rsx0 by0 oy Hpx0 Hy0 Hj
                    |bx0 by0 oy Hpx0 Hy0 Hj].
      * eapply LinkThenable; eauto; [apply registering_has; left; eauto|congruence|congruence].
      * eapply LinkWaiting; [apply registering_has; left; eauto|congruence|congruence].
      * eapply LinkQueued; [apply registering_has; left; eauto|eauto|congruence].
      * destruct (has_inj _ _ _ _ _ _ Hy Hpx0) as [_ E]. discriminate E.
    + pose proof (inv_link s HI _ _ _ _ _ Hx' Hs') as L.
      destruct (Nat.eq_dec x' x) as [->|Hx'x].
      * (* the promise the job resolves *)
        destruct (has_inj _ _ _ _ _ _ Hx Hx') as [<- _]. simpl in Hs'.
        injection Hs' as <- <-.
        eapply LinkWaiting.
        -- apply registering_has. right. eauto.
        -- now rewrite Hqueue.
        -- rewrite Hwy, Hwx. simpl. now rewrite Nat.eqb_refl.
      * assert (Ej : jobs_for x' (queue s') = jobs_for x' (queue s))
          by (rewrite Hqueue; now apply thenable_other).
        destruct (Nat.eq_dec y' y) as [->|Hy'y].
        -- assert (Ew : waiting_on s' y x' = waiting_on s y x').
           { rewrite Hwy. simpl. destruct (Nat.eqb_spec x x'); [congruence|].
             now rewrite app_nil_r. }
           destruct L as [bx0 rsx0 Hh Hpx0 Hj Hwo|bx0 rsx0 Hpx0 Hj Hwo
                         |bx0 rsx0 by0 oy Hpx0 Hy0 Hj|bx0 by0 oy Hpx0 Hy0 Hj].
           ++ eapply LinkThenable; eauto;
                [apply registering_has; right; eauto|congruence|congruence].
           ++ eapply LinkWaiting; [apply registering_has; right; eauto|congruence|congruence].
           ++ destruct (has_inj _ _ _ _ _ _ Hy Hy0) as [_ E]. discriminate E.
           ++ destruct (has_inj _ _ _ _ _ _ Hy Hy0) as [_ E]. discriminate E.
        -- eapply link_frame; eauto; rewrite Hheap; now apply lookup_insert_ne.
Qed.

End Registering.

(** [y] is settled: the reaction job is queued. *)
Section Resolved.
Variables (by' : origin) (o : outcome).
Hypothesis Hy : has s y by' (Settled o).
Hypothesis Hheap : heap s' = heap s.
Hypothesis Hqueue :
  queue s' = (rest ++ [ReactionJob {| handle := Resolve; derived := x |} o])%list.

Lemma resolved_has z b st : has s' z b st <-> has s z b st.
Proof. unfold has. now rewrite Hheap. Qed.

Lemma resolved_shape : Shape s'.
Proof.
  destruct thenable_origin as (key & stx & Hx).
  destruct thenable_link as (bx & rsx & Hpx & Hjx & Hwx).
  split.
  - intros z Hz. rewrite Hnext in Hz. rewrite Hheap. now apply (inv_fresh s HI).
  - intros z bz st Hz. apply resolved_has in Hz.
    pose proof (inv_origin s HI _ _ _ Hz) as Ho.
    destruct bz; simpl in *; auto.
    + destruct Ho as [st1 H1]. apply resolved_has in H1. eauto.
    + destruct Ho as (op & st1 & H1). apply resolved_has in H1. eauto.
    + destruct Ho as (t & st1 & H1). apply resolved_has in H1. eauto.
  - intros op k st Hop. apply resolved_has in Hop.
    destruct (inv_then s HI _ _ _ Hop) as (t & st1 & H1). apply resolved_has in H1. eauto.
  - intros t k op st Ht. apply resolved_has in Ht.
    destruct (inv_catch s HI _ _ _ _ Ht) as (p & st1 & H1). apply resolved_has in H1. eauto.
  - intros y0 b0 rs0 r H0 Hr. apply resolved_has in H0.
    destruct (inv_reactions s HI _ _ _ _ H0 Hr) as (b1 & st1 & H1 & Hs1).
    apply resolved_has in H1. eauto.
  - intros j Hj. rewrite Hqueue in Hj. apply in_app_or in Hj as [Hj|[<-|[]]].
    + assert (Hj' : In j (queue s)) by (rewrite Hq; now right).
      pose proof (inv_queue s HI j Hj') as Hok.
      destruct j as [r oj|xj yj]; simpl in *.
      * destruct Hok as (b1 & st1 & y1 & H1 & Hs1). apply resolved_has in H1. eauto.
      * destruct Hok as (k & st1 & H1). apply resolved_has in H1. eauto.
    + simpl. apply resolved_has in Hx. eauto.
  - intros x' b' st' y' h' Hx' Hs'. apply resolved_has in Hx'.
    pose proof (inv_link s HI _ _ _ _ _ Hx' Hs') as L.
    destruct (Nat.eq_dec x' x) as [->|Hx'x].
    + destruct (has_inj _ _ _ _ _ _ Hx Hx') as [<- _]. simpl in Hs'.
      injection Hs' as <- <-.
      eapply LinkQueued.
      * apply resolved_has. eauto.
      * apply resolved_has. eauto.
      * rewrite Hqueue, jobs_for_app, Hjx. simpl. now rewrite Nat.eqb_refl.
    + eapply link_frame; eauto; try now rewrite Hheap.
      rewrite Hqueue, jobs_for_app, thenable_other by auto. simpl.
      destruct (Nat.eqb_spec x x'); [congruence|]. now rewrite app_nil_r.
Qed.

End Resolved.

End Thenable.

Section Settling.
(** [x] is pending in [s] and settles with [o]; the job that did it, if
    any, has left the queue ([q0] is the queue without it). *)
Variables (s s' : state) (x : pid) (b : origin) (rs : list reaction) (o : outcome).
Variable q0 : list job.
Hypothesis HI : Shape s.
Hypothesis Hx : has s x b (Pending rs).
Hypothesis Hheap : heap s' = <[x := {| born := b; pst := Settled o |}]> (heap s).
Hypothesis Hqueue : queue s' = (q0 ++ map (fun r => ReactionJob r o) rs)%list.
Hypothesis Hnext : next s' = next s.
Hypothesis Hq0_in : forall j, In j q0 -> In j (queue s).
Hypothesis Hq0_other : forall x', x' <> x -> jobs_for x' q0 = jobs_for x' (queue s).
Hypothesis Hq0_x : jobs_for x q0 = [].
Hypothesis Hsrc : forall y h, source b = Some (y, h) -> exists b', has s y b' (Settled o).

Lemma settling_has x' b' st' :
  has s' x' b' st' <->
  (x' = x /\ b' = b /\ st' = Settled o) \/ (x' <> x /\ has s x' b' st').
Proof.
  unfold has. rewrite Hheap, lookup_insert_Some. split.
  - intros [[-> E]|[Hne H]]; [left|right; auto]. injection E as -> ->. auto.
  - intros [(-> & -> & ->)|[Hne H]]; [left|right]; auto.
Qed.

Lemma settling_keeps x' b' st : has s x' b' st -> exists st', has s' x' b' st'.
Proof.
  intros H. destruct (Nat.eq_dec x' x) as [->|Hne].
  - destruct (has_inj _ _ _ _ _ _ H Hx) as [-> _]. exists (Settled o).
    apply settling_has. now left.
  - exists st. apply settling_has. now right.
Qed.

Lemma settling_back x' b' st' : has s' x' b' st' -> exists st, has s x' b' st.
Proof.
  intros H. apply settling_has in H as [(-> & -> & ->)|[_ H]]; eauto.
Qed.

Lemma settling_waits x' b' st' y' h' :
  has s x' b' st' -> source b' = Some (y', h') -> y' <> x -> waits_for x' rs = [].
Proof.
  intros Hx' Hs Hne. apply waits_for_none. intros r Hr E.
  destruct (inv_reactions s HI x b rs r Hx Hr) as (b'' & st'' & H'' & Hs'').
  rewrite E in H''. destruct (has_inj _ _ _ _ _ _ Hx' H'') as [<- _].
  rewrite Hs in Hs''. injection Hs'' as ? ?. contradiction.
Qed.

Lemma settling_waiting_on y' x' : y' <> x -> waiting_on s' y' x' = waiting_on s y' x'.
Proof. intros Hne. unfold waiting_on. rewrite Hheap, lookup_insert_ne by auto. reflexivity. Qed.

Lemma settling_waiting_on_x x' : waiting_on s' x x' = [].
Proof. unfold waiting_on. rewrite Hheap, lookup_insert_eq. reflexivity. Qed.

Lemma settling_shape : Shape s'.
Proof.
  split.
  - intros z Hz. rewrite Hnext in Hz. rewrite Hheap.
    rewrite lookup_insert_ne; [now apply (inv_fresh s HI)|].
    intros <-. pose proof Hx as Hx0. unfold has in Hx0.
    rewrite (inv_fresh s HI x Hz) in Hx0. discriminate.
  - intros z bz st Hz. destruct (settling_back _ _ _ Hz) as [st0 H0].
    pose proof (inv_origin s HI _ _ _ H0) as Ho.
    destruct bz; simpl in *; auto.
    + destruct Ho as [st1 H1]. apply settling_keeps in H1. exact H1.
    + destruct Ho as (op & st1 & H1). apply settling_keeps in H1 as [st2 H2]. eauto.
    + destruct Ho as (t & st1 & H1). apply settling_keeps in H1 as [st2 H2]. eauto.
  - intros op key st Hop. destruct (settling_back _ _ _ Hop) as [st0 H0].
    destruct (inv_then s HI _ _ _ H0) as (t & st1 & H1).
    apply settling_keeps in H1 as [st2 H2]. eauto.
  - intros t key op st Ht. destruct (settling_back _ _ _ Ht) as [st0 H0].
    destruct (inv_catch s HI _ _ _ _ H0) as (p & st1 & H1).
    apply settling_keeps in H1 as [st2 H2]. eauto.
  - intros y by' rsy r Hy Hr.
    apply settling_has in Hy as [(_ & _ & E)|[Hne Hy]]; [discriminate E|].
    destruct (inv_reactions s HI _ _ _ _ Hy Hr) as (b1 & st1 & H1 & Hs1).
    apply settling_keeps in H1 as [st2 H2]. eauto.
  - intros j Hj. rewrite Hqueue in Hj. apply in_app_or in Hj as [Hj|Hj].
    + pose proof (inv_queue s HI j (Hq0_in j Hj)) as Hok.
      destruct j as [r oj|xj yj]; simpl in *.
      * destruct Hok as (b1 & st1 & y1 & H1 & Hs1).
        apply settling_keeps in H1 as [st2 H2]. eauto.
      * destruct Hok as (key & st1 & H1). apply settling_keeps in H1 as [st2 H2]. eauto.
    + apply in_map_iff in Hj as (r & <- & Hr). simpl.
      destruct (inv_reactions s HI _ _ _ _ Hx Hr) as (b1 & st1 & H1 & Hs1).
      apply settling_keeps in H1 as [st2 H2]. eauto.
  - intros x' b' st' y' h' Hx' Hs'.
    apply settling_has in Hx' as [(-> & -> & ->)|[Hne Hx']].
    + (* the promise that settles *)
      destruct (Hsrc _ _ Hs') as [by' Hy].
      assert (Hyx : y' <> x) by (eapply source_other'; eauto).
      eapply LinkDone.
      * apply settling_has. left. eauto.
      * apply settling_has. right. eauto.
      * rewrite Hqueue, jobs_for_app, Hq0_x, jobs_for_reactions.
        rewrite (waits_for_none x rs); [reflexivity|].
        intros r Hr E.
        destruct (inv_reactions s HI _ _ _ _ Hx Hr) as (b1 & st1 & H1 & Hs1).
        rewrite E in H1. destruct (has_inj _ _ _ _ _ _ Hx H1) as [<- _].
        eapply source_other'; eauto.
    + pose proof (inv_link s HI _ _ _ _ _ Hx' Hs') as L.
      assert (Hjobs : jobs_for x' (queue s')
                      = (jobs_for x' (queue s)
                         ++ map (fun r => ReactionJob r o) (waits_for x' rs))%list).
      { rewrite Hqueue, jobs_for_app, jobs_for_reactions, Hq0_other; auto. }
      destruct (Nat.eq_dec y' x) as [->|Hy].
      * (* a promise made from the one that settles *)
        assert (Hw : waiting_on s x x' = waits_for x' rs).
        { unfold waiting_on. pose proof Hx as Hx0. unfold has in Hx0. now rewrite Hx0. }
        destruct L as [bx rsx Hh Hpx Hj Hwo|bx rsx Hpx Hj Hwo|bx rsx by' oy Hpx Hy Hj
                      |bx by' oy Hpx Hy Hj].
        -- rewrite Hw in Hwo. eapply LinkThenable; eauto.
           ++ apply settling_has. right. eauto.
           ++ rewrite Hjobs, Hj, Hwo. reflexivity.
           ++ apply settling_waiting_on_x.
        -- rewrite Hw in Hwo. eapply LinkQueued.
           ++ apply settling_has. right. eauto.
           ++ apply settling_has. left. eauto.
           ++ rewrite Hjobs, Hj, Hwo. reflexivity.
        -- destruct (has_inj _ _ _ _ _ _ Hx Hy) as [_ E]. discriminate E.
        -- destruct (has_inj _ _ _ _ _ _ Hx Hy) as [_ E]. discriminate E.
      * rewrite (settling_waits _ _ _ _ _ Hx' Hs' Hy), app_nil_r in Hjobs.
        destruct L as [bx rsx Hh Hpx Hj Hwo|bx rsx Hpx Hj Hwo|bx rsx by' oy Hpx Hy' Hj
                      |bx by' oy Hpx Hy' Hj].
        -- eapply LinkThenable; eauto.
           ++ apply settling_has. right. eauto.
           ++ now rewrite Hjobs.
           ++ now rewrite settling_waiting_on.
        -- eapply LinkWaiting.
           ++ apply settling_has. right. eauto.
           ++ now rewrite Hjobs.
           ++ now rewrite settling_waiting_on.
        -- eapply LinkQueued.
           ++ apply settling_has. right. eauto.
           ++ apply settling_has. right. eauto.
           ++ now rewrite Hjobs.
        -- eapply LinkDone.
           ++ apply settling_has. right. eauto.
           ++ apply settling_has. right. eauto.
           ++ now rewrite Hjobs.
Qed.

End Settling.

Section Reacting.
(** The job [ReactionJob {h; x} o] is at the head of the queue. *)
Variables (s : state) (h : handler) (x : pid) (o : outcome) (rest : list job).
Hypothesis HI : Shape s.
Hypothesis Hq : queue s = ReactionJob {| handle := h; derived := x |} o :: rest.

Lemma reacting_link :
  exists b rs y b',
    has s x b (Pending rs) /\ source b = Some (y, h) /\ has s y b' (Settled o) /\
    jobs_for x rest = [].
Proof.
  assert (Hin0 : In (ReactionJob {| handle := h; derived := x |} o) (queue s))
    by (rewrite Hq; now left).
  destruct (inv_queue s HI _ Hin0) as (b & st & y & Hx & Hs). simpl in Hx, Hs.
  pose proof (inv_link s HI x _ _ y h Hx Hs) as L.
  assert (Hin : In (ReactionJob {| handle := h; derived := x |} o) (jobs_for x (queue s))).
  { apply jobs_for_In; [exact Hin0|simpl; apply Nat.eqb_refl]. }
  assert (Hjx : jobs_for x (queue s)
                = ReactionJob {| handle := h; derived := x |} o :: jobs_for x rest).
  { rewrite Hq. simpl. now rewrite Nat.eqb_refl. }
  destruct L as [bx rsx Hh Hpx Hj Hwo|bx rsx Hpx Hj Hwo|bx rsx by' oy Hpx Hy Hj
                |bx by' oy Hpx Hy Hj]; rewrite Hj in Hin; simpl in Hin.
  - destruct Hin as [E|[]]. discriminate E.
  - contradiction.
  - destruct Hin as [E|[]]. injection E as ->.
    rewrite Hjx in Hj. injection Hj as Hj.
    destruct (has_inj _ _ _ _ _ _ Hx Hpx) as [<- _].
    exists b, rsx, y, by'. auto.
  - contradiction.
Qed.

Lemma reacting_other x' : x' <> x -> jobs_for x' rest = jobs_for x' (queue s).
Proof.
  intros Hne. rewrite Hq. simpl. destruct (Nat.eqb_spec x x'); [congruence|reflexivity].
Qed.

Lemma reacting_in j : In j rest -> In j (queue s).
Proof. intros Hj. rewrite Hq. now right. Qed.

End Reacting.

(** What is in the heap has a name below [next]; nothing waits for a
    name that is not in use yet. *)
Lemma has_old s z b st : Shape s -> has s z b st -> (z < next s)%nat.
Proof.
  intros HI H. destruct (Nat.lt_ge_cases z (next s)) as [Hlt|Hge]; [exact Hlt|].
  unfold has in H. rewrite (inv_fresh s HI z Hge) in H. discriminate.
Qed.

Lemma alloc_jobs_new s z : Shape s -> (next s <= z)%nat -> jobs_for z (queue s) = [].
Proof.
  intros HI Hz. apply jobs_for_none. intros j Hj.
  destruct (targets z j) eqn:E; [|reflexivity].
  destruct (job_target s j z HI Hj E) as (b & st & H).
  apply has_old in H; [lia|exact HI].
Qed.

Lemma alloc_waiting_new s y z : Shape s -> (next s <= z)%nat -> waiting_on s y z = [].
Proof.
  intros HI Hz. unfold waiting_on.
  destruct (heap s !! y) as [[b [rs|o]]|] eqn:Hy; try reflexivity.
  apply waits_for_none. intros r Hr E.
  destruct (inv_reactions s HI y b rs r Hy Hr) as (b' & st' & H' & _).
  apply has_old in H'; [lia|exact HI].
Qed.

Section Allocating.
(** New promises get the next names; what was there stays. *)
Variables (s s' : state).
Hypothesis HI : Shape s.
Hypothesis Hold : forall z, (z < next s)%nat -> heap s' !! z = heap s !! z.

Lemma alloc_keeps z b st : has s z b st -> has s' z b st.
Proof. intros H. unfold has. rewrite Hold; [exact H|]. eapply has_old; eauto. Qed.

(** Old links stay when the queue grows by jobs for new promises. *)
Lemma alloc_link x y h b st new :
  has s x b st -> source b = Some (y, h) ->
  queue s' = (queue s ++ new)%list ->
  (forall j, In j new -> targets x j = false) ->
  link s' x y h.
Proof.
  intros Hx Hs Hqueue Hnew.
  destruct (source_has s x b st y h HI Hx Hs) as (b' & st' & Hy).
  eapply link_frame.
  - exact (inv_link s HI _ _ _ _ _ Hx Hs).
  - apply Hold. eapply has_old; eauto.
  - apply Hold. eapply has_old; eauto.
  - rewrite Hqueue, jobs_for_app, (jobs_for_none x new Hnew). apply app_nil_r.
Qed.

End Allocating.

(** *** A call that joins *)

Lemma dedup_join (s : state) (key : string) (p : pid) :
  inflight s !! key = Some p ->
  dedup key s
  = (next s,
     {| inflight := inflight s;
        heap := <[next s := {| born := FromDedup key p; pst := Pending [] |}]> (heap s);
        queue := (queue s ++ [ThenableJob (next s) p])%list;
        next := S (next s);
        trace := (trace s ++ [EvReturn key (next s)])%list |}).
Proof. intros H. unfold dedup. rewrite H. reflexivity. Qed.

Section Joining.
Variables (s s' : state) (key : string) (p t : pid) (stp : pstate).
Hypothesis HI : Shape s.
Hypothesis Hp : has s p (FromCatch key t) stp.
Hypothesis Hheap :
  heap s' = <[next s := {| born := FromDedup key p; pst := Pending [] |}]> (heap s).
Hypothesis Hqueue : queue s' = (queue s ++ [ThenableJob (next s) p])%list.
Hypothesis Hnext : next s' = S (next s).

Lemma joining_old z : (z < next s)%nat -> heap s' !! z = heap s !! z.
Proof. intros Hz. rewrite Hheap. apply lookup_insert_ne. lia. Qed.

Lemma joining_fresh z : (next s' <= z)%nat -> heap s' !! z = None.
Proof.
  intros Hz. rewrite Hnext in Hz. rewrite Hheap, lookup_insert_ne by lia.
  apply (inv_fresh s HI). lia.
Qed.

Lemma joining_has z b st :
  has s' z b st ->
  (z = next s /\ b = FromDedup key p /\ st = Pending []) \/ ((z < next s)%nat /\ has s z b st).
Proof.
  unfold has. rewrite Hheap, lookup_insert_Some.
  intros [[<- E]|[Hne H]].
  - injection E as <- <-. now left.
  - right. split; [|exact H]. eapply has_old; eauto.
Qed.

Lemma joining_new : has s' (next s) (FromDedup key p) (Pending []).
Proof. unfold has. rewrite Hheap. apply lookup_insert_eq. Qed.

Lemma joining_shape : Shape s'.
Proof.
  pose proof (alloc_keeps s s' HI joining_old) as Hkeep.
  split.
  - exact joining_fresh.
  - intros z bz st Hz. apply joining_has in Hz as [(-> & -> & ->)|[Hlt Hz]].
    + simpl. eauto.
    + pose proof (inv_origin s HI _ _ _ Hz) as Ho.
      destruct bz; simpl in *; auto.
      * destruct Ho as [st1 H1]. eauto.
      * destruct Ho as (op & st1 & H1). eauto.
      * destruct Ho as (t' & st1 & H1). eauto.
  - intros op k st Hop. apply joining_has in Hop as [(_ & E & _)|[Hlt Hop]]; [discriminate E|].
    destruct (inv_then s HI _ _ _ Hop) as (t' & st1 & H1). eauto.
  - intros t' k op st Ht. apply joining_has in Ht as [(_ & E & _)|[Hlt Ht]]; [discriminate E|].
    destruct (inv_catch s HI _ _ _ _ Ht) as (p' & st1 & H1). eauto.
  - intros y0 b0 rs0 r H0 Hr. apply joining_has in H0 as [(_ & _ & E)|[Hlt H0]].
    + injection E as ->. destruct Hr.
    + destruct (inv_reactions s HI _ _ _ _ H0 Hr) as (b1 & st1 & H1 & Hs1). eauto.
  - intros j Hj. rewrite Hqueue in Hj. apply in_app_or in Hj as [Hj|[<-|[]]].
    + pose proof (inv_queue s HI j Hj) as Hok.
      destruct j as [r oj|xj yj]; simpl in *.
      * destruct Hok as (b1 & st1 & y1 & H1 & Hs1). eauto 10.
      * destruct Hok as (k & st1 & H1). eauto 10.
    + simpl. exists key, (Pending []). exact joining_new.
  - intros x' b' st' y' h' Hx' Hs'. apply joining_has in Hx' as [(-> & -> & ->)|[Hlt Hx']].
    + simpl in Hs'. injection Hs' as <- <-.
      eapply LinkThenable; [reflexivity|exact joining_new| |].
      * rewrite Hqueue, jobs_for_app, (alloc_jobs_new s _ HI) by lia.
        unfold jobs_for. cbn [List.filter targets app]. now rewrite Nat.eqb_refl.
      * unfold waiting_on. rewrite joining_old by (eapply has_old; eauto).
        apply (alloc_waiting_new s p (next s) HI). lia.
    + eapply (alloc_link s s' HI joining_old); eauto.
      intros j [<-|[]]. cbn [targets]. apply Nat.eqb_neq. lia.
Qed.

End Joining.

(** *** A call that starts the operation *)

Lemma perform_then_pending (s : state) (p : pid) (b : origin) (rs : list reaction)
    (r : reaction) :
  heap s !! p = Some {| born := b; pst := Pending rs |} ->
  perform_then p r s
  = set_heap (<[p := {| born := b; pst := Pending (rs ++ [r]) |}]> (heap s)) s.
Proof. intros H. unfold perform_then. rewrite H. reflexivity. Qed.

Lemma dedup_start (s : state) (key : string) :
  inflight s !! key = None ->
  dedup key s
  = (S (S (S (next s))),
     {| inflight := <[key := S (S (next s))]> (inflight s);
        heap := started_heap key (next s) (heap s);
        queue := (queue s ++ [ThenableJob (S (S (S (next s)))) (S (S (next s)))])%list;
        next := S (S (S (S (next s))));
        trace := (trace s ++ [EvFetcher key (next s)]
                  ++ [EvReturn key (S (S (S (next s))))])%list |}).
Proof.
  intros H. unfold dedup. rewrite H. cbv zeta.
  destruct (alloc (FromFetcher key) s) as [op s1] eqn:E1.
  destruct (alloc (FromThen key op) _) as [t s2] eqn:E2.
  destruct (alloc (FromCatch key t) _) as [p s3] eqn:E3.
  destruct (alloc (FromDedup key p) _) as [r s4] eqn:E4.
  unfold alloc in E1. injection E1 as <- <-.
  unfold alloc, log in E2. cbn [heap next inflight queue trace] in E2.
  injection E2 as <- <-.
  erewrite perform_then_pending in E3
    by (cbn [heap]; rewrite lookup_insert_ne by lia; apply lookup_insert_eq).
  unfold alloc, set_heap in E3. cbn [heap next inflight queue trace] in E3.
  injection E3 as <- <-.
  erewrite perform_then_pending in E4
    by (cbn [heap]; rewrite lookup_insert_ne by lia; rewrite lookup_insert_ne by lia;
        apply lookup_insert_eq).
  unfold alloc, set_heap, set_inflight in E4. cbn [heap next inflight queue trace] in E4.
  injection E4 as <- <-.
  unfold log, enqueue, started_heap. cbn [heap next inflight queue trace app].
  rewrite <- app_assoc. reflexivity.
Qed.

Section Starting.
Variables (s s' : state) (key : string).
Hypothesis HI : Shape s.
Hypothesis Hheap : heap s' = started_heap key (next s) (heap s).
Hypothesis Hqueue :
  queue s' = (queue s ++ [ThenableJob (S (S (S (next s)))) (S (S (next s)))])%list.
Hypothesis Hnext : next s' = S (S (S (S (next s)))).

Lemma starting_old z : (z < next s)%nat -> heap s' !! z = heap s !! z.
Proof.
  intros Hz. rewrite Hheap. unfold started_heap. now rewrite !lookup_insert_ne by lia.
Qed.

Lemma starting_fresh z : (next s' <= z)%nat -> heap s' !! z = None.
Proof.
  intros Hz. rewrite Hnext in Hz. rewrite Hheap. unfold started_heap.
  rewrite !lookup_insert_ne by lia. apply (inv_fresh s HI). lia.
Qed.

Lemma starting_op :
  has s' (next s) (FromFetcher key)
    (Pending [{| handle := ThenDelete key; derived := S (next s) |}]).
Proof.
  unfold has. rewrite Hheap. unfold started_heap.
  rewrite !(lookup_insert_ne _ _ (next s)) by lia. apply lookup_insert_eq.
Qed.

Lemma starting_then :
  has s' (S (next s)) (FromThen key (next s))
    (Pending [{| handle := CatchDelete key; derived := S (S (next s)) |}]).
Proof.
  unfold has. rewrite Hheap. unfold started_heap.
  rewrite !(lookup_insert_ne _ _ (S (next s))) by lia. apply lookup_insert_eq.
Qed.

Lemma starting_catch : has s' (S (S (next s))) (FromCatch key (S (next s))) (Pending []).
Proof.
  unfold has. rewrite Hheap. unfold started_heap.
  rewrite !(lookup_insert_ne _ _ (S (S (next s)))) by lia. apply lookup_insert_eq.
Qed.

Lemma starting_return :
  has s' (S (S (S (next s)))) (FromDedup key (S (S (next s)))) (Pending []).
Proof. unfold has. rewrite Hheap. unfold started_heap. apply lookup_insert_eq. Qed.

Lemma starting_has z b st :
  has s' z b st ->
  ((z < next s)%nat /\ has s z b st) \/
  (z = next s /\ b = FromFetcher key
   /\ st = Pending [{| handle := ThenDelete key; derived := S (next s) |}]) \/
  (z = S (next s) /\ b = FromThen key (next s)
   /\ st = Pending [{| handle := CatchDelete key; derived := S (S (next s)) |}]) \/
  (z = S (S (next s)) /\ b = FromCatch key (S (next s)) /\ st = Pending []) \/
  (z = S (S (S (next s))) /\ b = FromDedup key (S (S (next s))) /\ st = Pending []).
Proof.
  intros H.
  destruct (Nat.lt_ge_cases z (next s)) as [Hlt|Hge].
  { left. split; [exact Hlt|]. unfold has in *. now rewrite <- starting_old. }
  right.
  destruct (Nat.eq_dec z (next s)) as [->|H0].
  { left. destruct (has_inj _ _ _ _ _ _ H starting_op) as [-> ->]. auto. }
  destruct (Nat.eq_dec z (S (next s))) as [->|H1].
  { right; left. destruct (has_inj _ _ _ _ _ _ H starting_then) as [-> ->]. auto. }
  destruct (Nat.eq_dec z (S (S (next s)))) as [->|H2].
  { right; right; left. destruct (has_inj _ _ _ _ _ _ H starting_catch) as [-> ->]. auto. }
  destruct (Nat.eq_dec z (S (S (S (next s))))) as [->|H3].
  { right; right; right. destruct (has_inj _ _ _ _ _ _ H starting_return) as [-> ->]. auto. }
  exfalso. unfold has in H. rewrite starting_fresh in H; [discriminate|]. rewrite Hnext. lia.
Qed.

Lemma starting_shape : Shape s'.
Proof.
  pose proof (alloc_keeps s s' HI starting_old) as Hkeep.
  pose proof starting_op as Hop. pose proof starting_then as Hth.
  pose proof starting_catch as Hca. pose proof starting_return as Hre.
  assert (Hjobs : forall z, (next s <= z)%nat -> z <> S (S (S (next s))) ->
                            jobs_for z (queue s') = []).
  { intros z Hz Hne. rewrite Hqueue, jobs_for_app, (alloc_jobs_new s _ HI) by lia.
    unfold jobs_for. cbn [List.filter targets app].
    destruct (Nat.eqb_spec (S (S (S (next s)))) z); [congruence|reflexivity]. }
  split.
  - exact starting_fresh.
  - intros z bz st Hz.
    apply starting_has in Hz
      as [[Hlt Hz]|[(-> & -> & ->)|[(-> & -> & ->)|[(-> & -> & ->)|(-> & -> & ->)]]]];
      simpl; eauto.
    pose proof (inv_origin s HI _ _ _ Hz) as Ho.
    destruct bz; simpl in *; auto.
    + destruct Ho as [st1 H1]. eauto.
    + destruct Ho as (op & st1 & H1). eauto.
    + destruct Ho as (t' & st1 & H1). eauto.
  - intros op k st Hz.
    apply starting_has in Hz
      as [[Hlt Hz]|[(-> & E & ->)|[(-> & E & ->)|[(-> & E & ->)|(-> & E & ->)]]]];
      try discriminate E.
    + destruct (inv_then s HI _ _ _ Hz) as (t' & st1 & H1). eauto.
    + injection E as ->. eauto.
  - intros t' k op st Hz.
    apply starting_has in Hz
      as [[Hlt Hz]|[(-> & E & ->)|[(-> & E & ->)|[(-> & E & ->)|(-> & E & ->)]]]];
      try discriminate E.
    + destruct (inv_catch s HI _ _ _ _ Hz) as (p' & st1 & H1). eauto.
    + injection E as -> ->. eauto.
  - intros y0 b0 rs0 r Hz Hr.
    apply starting_has in Hz
      as [[Hlt Hz]|[(-> & -> & E)|[(-> & -> & E)|[(-> & -> & E)|(-> & -> & E)]]]];
      try (injection E as ->; destruct Hr as [<-|[]]; simpl; eauto; fail);
      try (injection E as ->; destruct Hr; fail).
    destruct (inv_reactions s HI _ _ _ _ Hz Hr) as (b1 & st1 & H1 & Hs1). eauto.
  - intros j Hj. rewrite Hqueue in Hj. apply in_app_or in Hj as [Hj|[<-|[]]].
    + pose proof (inv_queue s HI j Hj) as Hok.
      destruct j as [r oj|xj yj]; simpl in *.
      * destruct Hok as (b1 & st1 & y1 & H1 & Hs1). eauto 10.
      * destruct Hok as (k & st1 & H1). eauto 10.
    + simpl. eauto.
  - intros x' b' st' y' h' Hz Hs'.
    apply starting_has in Hz
      as [[Hlt Hz]|[(-> & -> & ->)|[(-> & -> & ->)|[(-> & -> & ->)|(-> & -> & ->)]]]];
      simpl in Hs'; try discriminate Hs'.
    + eapply (alloc_link s s' HI starting_old); eauto.
      intros j [<-|[]]. cbn [targets]. apply Nat.eqb_neq. lia.
    + injection Hs' as <- <-. eapply LinkWaiting; [exact Hth|apply Hjobs; lia|].
      unfold waiting_on. pose proof Hop as Hop0. unfold has in Hop0. rewrite Hop0.
      simpl. now rewrite Nat.eqb_refl.
    + injection Hs' as <- <-. eapply LinkWaiting; [exact Hca|apply Hjobs; lia|].
      unfold waiting_on. pose proof Hth as Hth0. unfold has in Hth0. rewrite Hth0.
      simpl. now rewrite Nat.eqb_refl.
    + injection Hs' as <- <-. eapply LinkThenable; [reflexivity|exact Hre| |].
      * rewrite Hqueue, jobs_for_app, (alloc_jobs_new s _ HI) by lia.
        unfold jobs_for. cbn [List.filter targets app]. now rewrite Nat.eqb_refl.
      * unfold waiting_on. pose proof Hca as Hca0. unfold has in Hca0. now rewrite Hca0.
Qed.

End Starting.

(** *** Every step is one of the cases *)

Lemma settle_pending (s : state) (x : pid) (b : origin) (rs : list reaction) (o : outcome) :
  has s x b (Pending rs) ->
  settle x o s
  = {| inflight := inflight s;
       heap := <[x := {| born := b; pst := Settled o |}]> (heap s);
       queue := (queue s ++ map (fun r => ReactionJob r o) rs)%list;
       next := next s;
       trace := trace s |}.
Proof. unfold has, settle. intros ->. reflexivity. Qed.

Lemma settle_settled (s : state) (x : pid) (b : origin) (o' o : outcome) :
  has s x b (Settled o') -> settle x o s = s.
Proof. unfold has, settle. intros ->. reflexivity. Qed.

Lemma perform_then_settled (s : state) (p : pid) (b : origin) (o : outcome) (r : reaction) :
  has s p b (Settled o) -> perform_then p r s = enqueue [ReactionJob r o] s.
Proof. unfold has, perform_then. intros ->. reflexivity. Qed.

Lemma run_job_reaction (h : handler) (x : pid) (o : outcome) (s : state) :
  run_job (ReactionJob {| handle := h; derived := x |} o) s
  = settle x o match deleted h o with
               | Some key => inflight_delete key s
               | None => s
               end.
Proof. destruct h, o; reflexivity. Qed.

Lemma state_eta (s : state) :
  {| inflight := inflight s; heap := heap s; queue := queue s; next := next s;
     trace := trace s |} = s.
Proof. now destruct s. Qed.

Lemma step_moved (a : action) (s : state) : Inv s -> moved s a (step a s).
Proof.
  intros HI. destruct a as [key|op o|].
  - unfold step. destruct (inflight s !! key) as [p|] eqn:E.
    + rewrite (dedup_join s key p E). cbn [snd].
      destruct (inv_table s HI key p E) as (t & st & Hp). eapply MovedJoin; eauto.
    + rewrite (dedup_start s key E). cbn [snd]. now apply MovedStart.
  - unfold step, is_fetcher_promise.
    destruct (heap s !! op) as [[[key|? ?|? ?|? ?] [rs|o']]|] eqn:E;
      try apply MovedNoUpstream.
    + rewrite (settle_pending s op (FromFetcher key) rs o E). now apply MovedUpstream.
    + rewrite (settle_settled s op (FromFetcher key) o' o E). apply MovedNoUpstream.
  - unfold step.
    destruct (queue s) as [|[[h x] o|x y] rest] eqn:Hq; [now apply MovedNoJob| |].
    + destruct (reacting_link s h x o rest HI Hq) as (b & rs & y & b' & Hx & _).
      rewrite run_job_reaction.
      destruct (deleted h o) as [key|] eqn:Ed.
      * rewrite (settle_pending _ x b rs o) by exact Hx.
        unfold inflight_delete, log, set_inflight. cbn [inflight heap queue next trace].
        pose proof (MovedReact s h x o rest b rs Hq Hx) as M. rewrite Ed in M. exact M.
      * rewrite (settle_pending _ x b rs o) by exact Hx.
        cbn [inflight heap queue next trace].
        pose proof (MovedReact s h x o rest b rs Hq Hx) as M. rewrite Ed in M. exact M.
    + destruct (thenable_origin s x y rest HI Hq) as (key & st & Hx).
      destruct (inv_origin s HI _ _ _ Hx) as (t & [rs|o] & Hy).
      * cbn [run_job]. rewrite (perform_then_pending _ y (FromCatch key t) rs) by exact Hy.
        unfold set_heap. cbn [inflight heap queue next trace].
        eapply MovedRegister; eauto.
      * cbn [run_job]. rewrite (perform_then_settled _ y (FromCatch key t) o) by exact Hy.
        unfold enqueue. cbn [inflight heap queue next trace].
        eapply MovedResolved; eauto.
Qed.

Lemma moved_shape (a : action) (s s' : state) : Shape s -> moved s a s' -> Shape s'.
Proof.
  intros HI M. destruct M as [Hq0|opi oi|key p t st Hk Hp|key Hk|op key rs o Hop
                             |x y rest b rs Hq Hy|x y rest b o Hq Hy|h x o rest b rs Hq Hx].
  - exact HI.
  - exact HI.
  - eapply (joining_shape s _ key p t st HI Hp); reflexivity.
  - eapply (starting_shape s _ key HI); reflexivity.
  - eapply (settling_shape s _ op (FromFetcher key) rs o (queue s) HI Hop); try reflexivity.
    + auto.
    + apply jobs_for_none. intros j Hj. destruct (targets op j) eqn:Et; [|reflexivity].
      pose proof (inv_queue s HI j Hj) as Hok.
      destruct j as [r oj|xj yj]; simpl in *; apply Nat.eqb_eq in Et; subst.
      * destruct Hok as (b1 & st1 & y1 & H1 & Hs1).
        destruct (has_inj _ _ _ _ _ _ Hop H1) as [<- _]. discriminate Hs1.
      * destruct Hok as (k & st1 & H1).
        destruct (has_inj _ _ _ _ _ _ Hop H1) as [E _]. discriminate E.
    + intros y h Hs. discriminate Hs.
  - eapply (registering_shape s _ x y rest HI Hq); try reflexivity. exact Hy.
  - eapply (resolved_shape s _ x y rest HI Hq); try reflexivity. exact Hy.
  - destruct (reacting_link s h x o rest HI Hq) as (b1 & rs1 & y & b' & Hx1 & Hs & Hy & Hj).
    destruct (has_inj _ _ _ _ _ _ Hx Hx1) as [<- E]. injection E as <-.
    eapply (settling_shape s _ x b rs o rest HI Hx); try reflexivity.
    + exact (reacting_in s h x o rest Hq).
    + exact (reacting_other s h x o rest Hq).
    + exact Hj.
    + intros y0 h0 Hs0. rewrite Hs in Hs0. injection Hs0 as <- <-. eauto.
Qed.

(** *** What a step does to one promise *)

Lemma moved_has (a : action) (s s' : state) (z : pid) (b : origin) (st : pstate) :
  Shape s -> moved s a s' -> has s z b st ->
  has s' z b st \/
  exists rs, st = Pending rs /\
    ((exists o, has s' z b (Settled o)) \/ (exists r, has s' z b (Pending (rs ++ [r])))).
Proof.
  intros HI M Hz. pose proof (has_old s z b st HI Hz) as Hlt.
  destruct M as [Hq0|opi oi|key p t st0 Hk Hp|key Hk|op key rs o Hop
                |x y rest b0 rs Hq Hy|x y rest b0 o Hq Hy|h x o rest b0 rs Hq Hx].
  - now left.
  - now left.
  - left. unfold has. cbn [heap]. rewrite lookup_insert_ne by lia. exact Hz.
  - left. unfold has.
    match goal with
    | |- heap ?s' !! _ = _ => rewrite (starting_old s s' key eq_refl eq_refl z Hlt)
    end. exact Hz.
  - destruct (Nat.eq_dec z op) as [->|Hne].
    + destruct (has_inj _ _ _ _ _ _ Hz Hop) as [-> ->]. right. exists rs. split; [reflexivity|].
      left. exists o. unfold has. cbn [heap]. apply lookup_insert_eq.
    + left. unfold has. cbn [heap]. rewrite lookup_insert_ne by congruence. exact Hz.
  - destruct (Nat.eq_dec z y) as [->|Hne].
    + destruct (has_inj _ _ _ _ _ _ Hz Hy) as [-> ->]. right. exists rs. split; [reflexivity|].
      right. eexists. unfold has. cbn [heap]. apply lookup_insert_eq.
    + left. unfold has. cbn [heap]. rewrite lookup_insert_ne by congruence. exact Hz.
  - now left.
  - destruct (Nat.eq_dec z x) as [->|Hne].
    + destruct (has_inj _ _ _ _ _ _ Hz Hx) as [-> ->]. right. exists rs. split; [reflexivity|].
      left. exists o. unfold has. cbn [heap]. apply lookup_insert_eq.
    + left. unfold has. cbn [heap]. rewrite lookup_insert_ne by congruence. exact Hz.
Qed.

(** Promises stay, with their origin; a settled promise stays as it is. *)
Lemma moved_keeps (a : action) (s s' : state) (z : pid) (b : origin) (st : pstate) :
  Shape s -> moved s a s' -> has s z b st -> exists st', has s' z b st'.
Proof.
  intros HI M Hz.
  destruct (moved_has a s s' z b st HI M Hz) as [H|(rs & _ & [[o H]|[r H]])]; eauto.
Qed.

Lemma moved_settled (a : action) (s s' : state) (z : pid) (b : origin) (o : outcome) :
  Shape s -> moved s a s' -> has s z b (Settled o) -> has s' z b (Settled o).
Proof.
  intros HI M Hz.
  destruct (moved_has a s s' z b _ HI M Hz) as [H|(rs & E & _)]; [exact H|discriminate E].
Qed.

(** The promise of the operation is settled by the upstream only. *)
Lemma moved_fetcher (a : action) (s s' : state) (op : pid) (key : string)
    (rs : list reaction) :
  Shape s -> moved s a s' -> (forall o, a <> Upstream op o) ->
  has s op (FromFetcher key) (Pending rs) -> has s' op (FromFetcher key) (Pending rs).
Proof.
  intros HI M Ha Hz. pose proof (has_old s op _ _ HI Hz) as Hlt.
  destruct M as [Hq0|opi oi|key0 p t st0 Hk Hp|key0 Hk|op0 key0 rs0 o Hop
                |x y rest b0 rs0 Hq Hy|x y rest b0 o Hq Hy|h x o rest b0 rs0 Hq Hx].
  - exact Hz.
  - exact Hz.
  - unfold has. cbn [heap]. rewrite lookup_insert_ne by lia. exact Hz.
  - unfold has.
    match goal with
    | |- heap ?s' !! _ = _ => rewrite (starting_old s s' key0 eq_refl eq_refl op Hlt)
    end. exact Hz.
  - assert (op <> op0) by (intros ->; now apply (Ha o)).
    unfold has. cbn [heap]. rewrite lookup_insert_ne by congruence. exact Hz.
  - destruct (thenable_origin s x y rest HI Hq) as (k & st & Hx).
    destruct (inv_origin s HI _ _ _ Hx) as (t & st' & Hy').
    assert (op <> y).
    { intros ->. destruct (has_inj _ _ _ _ _ _ Hz Hy') as [E _]. discriminate E. }
    unfold has. cbn [heap]. rewrite lookup_insert_ne by congruence. exact Hz.
  - exact Hz.
  - destruct (reacting_link s h x o rest HI Hq) as (b1 & rs1 & y & b' & Hx1 & Hs & _).
    assert (op <> x).
    { intros ->. destruct (has_inj _ _ _ _ _ _ Hz Hx1) as [<- _]. discriminate Hs. }
    unfold has. cbn [heap]. rewrite lookup_insert_ne by congruence. exact Hz.
Qed.

(** *** The table *)

Lemma registered_same (s s' : state) (t p : pid) :
  heap s' !! t = heap s !! t -> heap s' !! p = heap s !! p ->
  (registered s' t p <-> registered s t p).
Proof. unfold registered, has. intros -> ->. reflexivity. Qed.

Lemma registered_pending (s : state) (t p : pid) (b : origin) (rs : list reaction) :
  has s t b (Pending rs) -> registered s t p.
Proof. intros H. left. eauto. Qed.

Lemma registered_settled (s : state) (t p : pid) (b : origin) (o : outcome) :
  has s t b (Settled o) -> registered s t p ->
  exists e b' rs, o = Rejected e /\ has s p b' (Pending rs).
Proof.
  intros Ht [(b1 & rs & H1)|(b1 & e & b' & rs & H1 & H2)].
  - destruct (has_inj _ _ _ _ _ _ Ht H1) as [_ E]. discriminate E.
  - destruct (has_inj _ _ _ _ _ _ Ht H1) as [_ E]. injection E as ->. eauto.
Qed.

(** The promises of one registration: the table's promise [p], made by
    [catch] from [t], made by [then] from [op]. *)
Lemma catch_source (s : state) (p t : pid) (key : string) (st : pstate) :
  Shape s -> has s p (FromCatch key t) st -> exists op st', has s t (FromThen key op) st'.
Proof. intros HI Hp. exact (inv_origin s HI _ _ _ Hp). Qed.

Lemma catch_pending (s : state) (p t : pid) (key : string) (st : pstate) (b : origin)
    (rs : list reaction) :
  Shape s -> has s p (FromCatch key t) st -> has s t b (Pending rs) ->
  exists rs', st = Pending rs'.
Proof.
  intros HI Hp Ht.
  destruct (inv_link s HI p _ _ t (CatchDelete key) Hp eq_refl)
    as [bx rsx Hh Hpx Hj Hwo|bx rsx Hpx Hj Hwo|bx rsx by' oy Hpx Hy Hj|bx by' oy Hpx Hy Hj].
  - discriminate Hh.
  - destruct (has_inj _ _ _ _ _ _ Hp Hpx) as [_ ->]. eauto.
  - destruct (has_inj _ _ _ _ _ _ Ht Hy) as [_ E]. discriminate E.
  - destruct (has_inj _ _ _ _ _ _ Ht Hy) as [_ E]. discriminate E.
Qed.

Lemma registered_rejected (s : state) (t p : pid) (b b' : origin) (e : thrown)
    (rs : list reaction) :
  has s t b (Settled (Rejected e)) -> has s p b' (Pending rs) -> registered s t p.
Proof. intros H1 H2. right. eauto 10. Qed.

(** One more reaction on a pending promise changes no registration. *)
Lemma registered_register (s s' : state) (y : pid) (b : origin) (rs : list reaction)
    (r : reaction) (t p : pid) :
  has s y b (Pending rs) ->
  heap s' = <[y := {| born := b; pst := Pending (rs ++ [r]) |}]> (heap s) ->
  (registered s' t p <-> registered s t p).
Proof.
  intros Hy Hheap.
  assert (Hpend : forall z, (exists b' rs', has s' z b' (Pending rs'))
                            <-> (exists b' rs', has s z b' (Pending rs'))).
  { intros z. unfold has in *. rewrite Hheap. destruct (Nat.eq_dec z y) as [->|Hne].
    - rewrite lookup_insert_eq. split; intros _; eauto.
    - rewrite lookup_insert_ne by congruence. reflexivity. }
  assert (Hset : forall z b' o, has s' z b' (Settled o) <-> has s z b' (Settled o)).
  { intros z b' o. unfold has in *. rewrite Hheap. destruct (Nat.eq_dec z y) as [->|Hne].
    - rewrite lookup_insert_eq, Hy. split; intros E; discriminate E.
    - rewrite lookup_insert_ne by congruence. reflexivity. }
  unfold registered. split.
  - intros [H|(b1 & e & b2 & rs2 & H1 & H2)].
    + left. now apply Hpend.
    + right. apply Hset in H1. destruct (proj1 (Hpend p)) as (b3 & rs3 & H3); eauto 10.
  - intros [H|(b1 & e & b2 & rs2 & H1 & H2)].
    + left. now apply Hpend.
    + right. apply Hset in H1. destruct (proj2 (Hpend p)) as (b3 & rs3 & H3); eauto 10.
Qed.

Lemma table_after_Some (d : option string) (m : gmap string pid) (key : string) (p : pid) :
  table_after d m !! key = Some p -> m !! key = Some p.
Proof.
  destruct d as [k|]; simpl; [|auto]. rewrite lookup_delete_Some. now intros [_ H].
Qed.

Lemma moved_inflight (a : action) (s s' : state) (key : string) (p : pid) :
  moved s a s' -> inflight s' !! key = Some p ->
  inflight s !! key = Some p \/
  (a = Call key /\ inflight s !! key = None /\
   has s' p (FromCatch key (S (next s))) (Pending [])).
Proof.
  intros M. destruct M as [Hq0|opi oi|key0 p0 t st0 Hk Hp|key0 Hk|op key0 rs o Hop
                          |x y rest b0 rs Hq Hy|x y rest b0 o Hq Hy|h x o rest b0 rs Hq Hx];
    cbn [inflight]; intros H; auto.
  - apply lookup_insert_Some in H as [[<- <-]|[_ H]]; [right|now left].
    split; [reflexivity|]. split; [exact Hk|].
    match goal with
    | |- has ?s' _ _ _ => exact (starting_catch s s' key0 eq_refl eq_refl)
    end.
  - left. eapply table_after_Some; eauto.
Qed.

(** The table holds promises made by [catch] under the entry's key. *)
Lemma moved_table (a : action) (s s' : state) (key : string) (p : pid) :
  Inv s -> moved s a s' -> inflight s' !! key = Some p ->
  exists t st, has s' p (FromCatch key t) st.
Proof.
  intros HI M H. destruct (moved_inflight a s s' key p M H) as [H0|(_ & _ & Hp)]; [|eauto].
  destruct (inv_table s HI key p H0) as (t & st & Hp).
  destruct (moved_keeps a s s' p _ st HI M Hp) as [st' Hp']. eauto.
Qed.

(** The table holds [p] exactly while its registration lasts. *)
Lemma moved_registered (a : action) (s s' : state) (p : pid) (key : string) (t : pid)
    (st : pstate) :
  Inv s -> moved s a s' -> has s' p (FromCatch key t) st ->
  (inflight s' !! key = Some p <-> registered s' t p).
Proof.
  intros HI M Hp. pose proof (inv_shape s HI) as HS.
  destruct M as [Hq0|opi oi|key0 p0 t0 st0 Hk Hp0|key0 Hk|op0 key0 rs o Hop
                |x y rest b rs Hq Hy|x y rest b o Hq Hy|h x o rest b rs Hq Hx].
  - exact (inv_registered s HI p key t st Hp).
  - exact (inv_registered s HI p key t st Hp).
  - match type of Hp with
    | has ?s1 _ _ _ => pose proof (joining_has s s1 key0 p0 HS eq_refl _ _ _ Hp) as Hc
    end.
    destruct Hc as [(_ & E & _)|[Hlt Hp1]]; [discriminate E|].
    destruct (catch_source s p t key st HS Hp1) as (op & st' & Ht).
    pose proof (has_old s t _ _ HS Ht) as Hlt'.
    cbn [inflight]. rewrite (inv_registered s HI p key t st Hp1).
    symmetry. apply registered_same; cbn [heap]; apply lookup_insert_ne; lia.
  - match type of Hp with
    | has ?s1 _ _ _ =>
        pose proof (starting_has s s1 key0 HS eq_refl eq_refl _ _ _ Hp) as Hc;
        pose proof (starting_old s s1 key0 eq_refl eq_refl) as Hold;
        pose proof (starting_then s s1 key0 eq_refl eq_refl) as Hth
    end.
    cbn [inflight].
    destruct Hc as [[Hlt Hp1]|[(_ & E & _)|[(_ & E & _)|[(-> & E & _)|(_ & E & _)]]]];
      try discriminate E.
    + destruct (catch_source s p t key st HS Hp1) as (op & st' & Ht).
      pose proof (has_old s t _ _ HS Ht) as Hlt'.
      rewrite (registered_same s _ t p) by (apply Hold; assumption).
      rewrite <- (inv_registered s HI p key t st Hp1).
      destruct (decide (key = key0)) as [->|Hne].
      * rewrite lookup_insert_eq, Hk. split; intros E; [injection E as <-; lia|discriminate E].
      * rewrite lookup_insert_ne by congruence. reflexivity.
    + injection E as -> ->. rewrite lookup_insert_eq.
      split; [intros _; eapply registered_pending; exact Hth|reflexivity].
  - cbn [inflight].
    assert (Hpx : op0 <> p).
    { intros <-. unfold has in Hp. cbn [heap] in Hp. rewrite lookup_insert_eq in Hp.
      discriminate Hp. }
    assert (Hp1 : has s p (FromCatch key t) st).
    { unfold has in Hp. cbn [heap] in Hp. now rewrite lookup_insert_ne in Hp by exact Hpx. }
    destruct (catch_source s p t key st HS Hp1) as (op & st' & Ht).
    assert (Htx : op0 <> t).
    { intros <-. destruct (has_inj _ _ _ _ _ _ Hop Ht) as [E _]. discriminate E. }
    rewrite (registered_same s _ t p) by (cbn [heap]; apply lookup_insert_ne; assumption).
    exact (inv_registered s HI p key t st Hp1).
  - cbn [inflight].
    match type of Hp with
    | has ?s1 _ _ _ =>
        destruct (registering_back s s1 x y rest Hq b rs Hy eq_refl _ _ _ Hp) as [st1 Hp1];
        rewrite (registered_register s s1 y b rs _ t p Hy eq_refl)
    end.
    exact (inv_registered s HI p key t st1 Hp1).
  - exact (inv_registered s HI p key t st Hp).
  - destruct (reacting_link s h x o rest HS Hq) as (b1 & rs1 & y & b' & Hx1 & Hs & Hy & _).
    destruct (has_inj _ _ _ _ _ _ Hx Hx1) as [<- _]. clear Hx1 rs1.
    assert (Hback : exists st0, has s p (FromCatch key t) st0).
    { unfold has in Hp. cbn [heap] in Hp. destruct (Nat.eq_dec p x) as [->|Hne].
      - rewrite lookup_insert_eq in Hp. injection Hp as <- _. eauto.
      - rewrite lookup_insert_ne in Hp by congruence. eauto. }
    destruct Hback as [st0 Hp0].
    destruct (catch_source s p t key st0 HS Hp0) as (op & stt & Ht).
    pose proof (inv_registered s HI p key t st0 Hp0) as IH.
    assert (Hx' : has {| inflight := table_after (deleted h o) (inflight s);
                         heap := <[x := {| born := b; pst := Settled o |}]> (heap s);
                         queue := (rest ++ map (fun r => ReactionJob r o) rs)%list;
                         next := next s;
                         trace := trace_after (deleted h o) (trace s) |}
                      x b (Settled o)).
    { unfold has. cbn [heap]. apply lookup_insert_eq. }
    destruct b as [k|k op0|k t0|k p0]; simpl in Hs; [discriminate Hs| | |];
      injection Hs as <- <-.
    + assert (Hpx : p <> x).
      { intros ->. destruct (has_inj _ _ _ _ _ _ Hp0 Hx) as [E _]. discriminate E. }
      destruct o as [v|e]; cbn [deleted table_after inflight].
      * destruct (Nat.eq_dec t x) as [->|Htx].
        -- destruct (has_inj _ _ _ _ _ _ Ht Hx) as [E _]. injection E as -> ->.
           split.
           ++ rewrite lookup_delete_eq. discriminate.
           ++ intros R. destruct (registered_settled _ x p _ _ Hx' R) as (e & _ & _ & E & _).
              discriminate E.
        -- rewrite (registered_same s _ t p)
             by (cbn [heap]; apply lookup_insert_ne; congruence).
           rewrite <- IH. destruct (decide (key = k)) as [->|Hk].
           ++ rewrite lookup_delete_eq. split; [discriminate|]. intros E. exfalso.
              destruct (inv_catch s HS x k op0 _ Hx) as (p1 & st1 & Hp1).
              pose proof (proj2 (inv_registered s HI p1 k x st1 Hp1)
                            (registered_pending s x p1 _ _ Hx)) as E1.
              rewrite E in E1. injection E1 as <-.
              destruct (has_inj _ _ _ _ _ _ Hp0 Hp1) as [E2 _]. injection E2 as ->.
              now apply Htx.
           ++ rewrite lookup_delete_ne by congruence. reflexivity.
      * destruct (Nat.eq_dec t x) as [->|Htx].
        -- rewrite IH. split; intros _.
           ++ destruct (catch_pending s p x key st0 _ rs HS Hp0 Hx) as [rs' ->].
              eapply registered_rejected; [exact Hx'|].
              unfold has. cbn [heap]. rewrite lookup_insert_ne by congruence. exact Hp0.
           ++ eapply registered_pending; exact Hx.
        -- rewrite (registered_same s _ t p)
             by (cbn [heap]; apply lookup_insert_ne; congruence).
           exact IH.
    + assert (Htx : t <> x).
      { intros ->. destruct (has_inj _ _ _ _ _ _ Ht Hx) as [E _]. discriminate E. }
      destruct (Nat.eq_dec p x) as [->|Hpx].
      * destruct (has_inj _ _ _ _ _ _ Hp0 Hx) as [E _]. injection E as -> ->.
        split.
        -- intros E. exfalso. destruct o as [v|e]; cbn [deleted table_after inflight] in E.
           ++ apply IH in E. destruct (registered_settled s t0 x _ _ Hy E) as (e & _ & _ & E' & _).
              discriminate E'.
           ++ rewrite lookup_delete_eq in E. discriminate E.
        -- intros R. exfalso.
           assert (Ht' : has {| inflight := table_after (deleted (CatchDelete k) o) (inflight s);
                                heap := <[x := {| born := FromCatch k t0; pst := Settled o |}]>
                                          (heap s);
                                queue := (rest ++ map (fun r => ReactionJob r o) rs)%list;
                                next := next s;
                                trace := trace_after (deleted (CatchDelete k) o) (trace s) |}
                             t0 b' (Settled o)).
           { unfold has. cbn [heap]. rewrite lookup_insert_ne by congruence. exact Hy. }
           destruct (registered_settled _ t0 x _ _ Ht' R) as (e & b2 & rs2 & _ & H2).
           destruct (has_inj _ _ _ _ _ _ Hx' H2) as [_ E]. discriminate E.
      * rewrite (registered_same s _ t p)
          by (cbn [heap]; apply lookup_insert_ne; congruence).
        rewrite <- IH. destruct o as [v|e]; cbn [deleted table_after inflight]; [reflexivity|].
        destruct (decide (key = k)) as [->|Hk].
        -- rewrite lookup_delete_eq. split; [discriminate|]. intros E. exfalso.
           pose proof (proj2 (inv_registered s HI x k t0 _ Hx)
                         (registered_rejected s t0 x _ _ _ _ Hy Hx)) as E1.
           rewrite E in E1. injection E1 as ->. now apply Hpx.
        -- rewrite lookup_delete_ne by congruence. reflexivity.
    + assert (Hpx : p <> x).
      { intros ->. destruct (has_inj _ _ _ _ _ _ Hp0 Hx) as [E _]. discriminate E. }
      assert (Htx : t <> x).
      { intros ->. destruct (has_inj _ _ _ _ _ _ Ht Hx) as [E _]. discriminate E. }
      cbn [deleted table_after inflight].
      rewrite (registered_same s _ t p) by (cbn [heap]; apply lookup_insert_ne; congruence).
      exact IH.
Qed.

(** *** The trace *)

Lemma fetched_app (key : string) (tr1 tr2 : list event) :
  fetched key (tr1 ++ tr2) = (fetched key tr1 ++ fetched key tr2)%list.
Proof. apply flat_map_app. Qed.

Lemma returned_app (key : string) (tr1 tr2 : list event) :
  returned key (tr1 ++ tr2) = (returned key tr1 ++ returned key tr2)%list.
Proof. apply flat_map_app. Qed.

Lemma fetched_trace_after (key : string) (d : option string) (tr : list event) :
  fetched key (trace_after d tr) = fetched key tr.
Proof. destruct d; simpl; [|reflexivity]. rewrite fetched_app. apply app_nil_r. Qed.

Lemma returned_trace_after (key : string) (d : option string) (tr : list event) :
  returned key (trace_after d tr) = returned key tr.
Proof. destruct d; simpl; [|reflexivity]. rewrite returned_app. apply app_nil_r. Qed.

(** The operation is invoked by a call that finds no entry, and by
    nothing else. *)
Lemma moved_fetched (a : action) (s s' : state) (key : string) :
  moved s a s' ->
  fetched key (trace s') = fetched key (trace s) \/
  (a = Call key /\ inflight s !! key = None /\
   fetched key (trace s') = (fetched key (trace s) ++ [next s])%list /\
   has s' (next s) (FromFetcher key)
     (Pending [{| handle := ThenDelete key; derived := S (next s) |}])).
Proof.
  intros M. destruct M as [Hq0|opi oi|key0 p0 t st0 Hk Hp|key0 Hk|op key0 rs o Hop
                          |x y rest b0 rs Hq Hy|x y rest b0 o Hq Hy|h x o rest b0 rs Hq Hx];
    cbn [trace]; auto.
  - left. rewrite fetched_app. apply app_nil_r.
  - rewrite !fetched_app. cbn [fetched flat_map]. rewrite !app_nil_r.
    destruct (String.eqb_spec key0 key) as [->|Hne].
    + right. repeat split; auto.
      match goal with
      | |- has ?s' _ _ _ => exact (starting_op s s' key eq_refl eq_refl)
      end.
    + left. apply app_nil_r.
  - left. apply fetched_trace_after.
Qed.

(** Every call returns one promise, resolved with the promise the table
    holds after the call. *)
Lemma moved_returned (a : action) (s s' : state) (key : string) :
  moved s a s' ->
  (a <> Call key /\ returned key (trace s') = returned key (trace s)) \/
  (exists r p, a = Call key /\
     returned key (trace s') = (returned key (trace s) ++ [r])%list /\
     inflight s' !! key = Some p /\ has s' r (FromDedup key p) (Pending [])).
Proof.
  intros M. destruct M as [Hq0|opi oi|key0 p0 t st0 Hk Hp|key0 Hk|op key0 rs o Hop
                          |x y rest b0 rs Hq Hy|x y rest b0 o Hq Hy|h x o rest b0 rs Hq Hx];
    cbn [trace inflight]; try (left; split; [discriminate|reflexivity]).
  - rewrite returned_app. cbn [returned flat_map]. rewrite !app_nil_r.
    destruct (String.eqb_spec key0 key) as [->|Hne].
    + right. exists (next s), p0. repeat split; auto.
      unfold has. cbn [heap]. apply lookup_insert_eq.
    + left. split; [congruence|apply app_nil_r].
  - rewrite !returned_app. cbn [returned flat_map]. rewrite !app_nil_r.
    destruct (String.eqb_spec key0 key) as [->|Hne].
    + right. exists (S (S (S (next s)))), (S (S (next s))). repeat split; auto.
      * apply lookup_insert_eq.
      * match goal with
        | |- has ?s' _ _ _ => exact (starting_return s s' key eq_refl)
        end.
    + left. split; [congruence|apply app_nil_r].
  - left. split; [discriminate|apply returned_trace_after].
Qed.

(** *** The reachable states *)

Lemma init_inv : Inv init.
Proof.
  assert (Hno : forall x b st, ~ has init x b st).
  { intros x b st H. unfold has, init in H. cbn [heap] in H. rewrite lookup_empty in H.
    discriminate H. }
  split; [split|..].
  - intros x _. apply lookup_empty.
  - intros x b st H. destruct (Hno _ _ _ H).
  - intros op key st H. destruct (Hno _ _ _ H).
  - intros t key op st H. destruct (Hno _ _ _ H).
  - intros y b rs r H. destruct (Hno _ _ _ H).
  - intros j [].
  - intros x b st y h H. destruct (Hno _ _ _ H).
  - intros key p H. cbn [init inflight] in H. rewrite lookup_empty in H. discriminate H.
  - intros p key t st H. destruct (Hno _ _ _ H).
  - intros key op [].
  - intros key r [].
Qed.

Lemma step_inv (a : action) (s : state) : Inv s -> Inv (step a s).
Proof.
  intros HI. pose proof (step_moved a s HI) as M. split.
  - exact (moved_shape a s _ HI M).
  - intros key p. exact (moved_table a s _ key p HI M).
  - intros p key t st. exact (moved_registered a s _ p key t st HI M).
  - intros key op Hin.
    destruct (moved_fetched a s _ key M) as [E|(_ & _ & E & Hop)]; rewrite E in Hin.
    + destruct (inv_fetched s HI key op Hin) as [st H].
      exact (moved_keeps a s _ op _ st HI M H).
    + apply in_app_or in Hin as [Hin|[<-|[]]]; [|eauto].
      destruct (inv_fetched s HI key op Hin) as [st H].
      exact (moved_keeps a s _ op _ st HI M H).
  - intros key r Hin.
    destruct (moved_returned a s _ key M) as [[_ E]|(r' & p & _ & E & _ & Hr)];
      rewrite E in Hin.
    + destruct (inv_returned s HI key r Hin) as (p & st & H).
      destruct (moved_keeps a s _ r _ st HI M H) as [st' H']. eauto.
    + apply in_app_or in Hin as [Hin|[<-|[]]]; [|eauto].
      destruct (inv_returned s HI key r Hin) as (p' & st & H).
      destruct (moved_keeps a s _ r _ st HI M H) as [st' H']. eauto.
Qed.

Lemma run_inv (acts : list action) (s : state) : Inv s -> Inv (run acts s).
Proof.
  revert s. induction acts as [|a acts IH]; intros s HI; [exact HI|].
  apply (IH (step a s)). now apply step_inv.
Qed.

Lemma run_app (acts1 acts2 : list action) (s : state) :
  run (acts1 ++ acts2) s = run acts2 (run acts1 s).
Proof. apply fold_left_app. Qed.

Lemma ticks_run (n : nat) (s : state) : ticks n s = run (repeat Tick n) s.
Proof. revert s. induction n as [|n IH]; intros s; [reflexivity|]. simpl. apply IH. Qed.

Lemma drain_inv (s : state) : Inv s -> Inv (drain s).
Proof. intros HI. unfold drain. rewrite ticks_run. now apply run_inv. Qed.

Lemma run_keeps (acts : list action) (s : state) (z : pid) (b : origin) (st : pstate) :
  Inv s -> has s z b st -> exists st', has (run acts s) z b st'.
Proof.
  revert s st. induction acts as [|a acts IH]; intros s st HI H; [eauto|].
  destruct (moved_keeps a s _ z b st HI (step_moved a s HI) H) as [st' H'].
  exact (IH (step a s) st' (step_inv a s HI) H').
Qed.

Lemma run_settled (acts : list action) (s : state) (z : pid) (b : origin) (o : outcome) :
  Inv s -> has s z b (Settled o) -> has (run acts s) z b (Settled o).
Proof.
  revert s. induction acts as [|a acts IH]; intros s HI H; [exact H|].
  apply (IH (step a s) (step_inv a s HI)).
  exact (moved_settled a s _ z b o HI (step_moved a s HI) H).
Qed.

(** *** Settling and the table *)

(** With no job left, a derived promise is settled as its source is. *)
Lemma quiet_settled (s : state) (x : pid) (b : origin) (st : pstate) (y : pid)
    (h : handler) (b' : origin) (o : outcome) :
  Shape s -> queue s = [] -> has s x b st -> source b = Some (y, h) ->
  has s y b' (Settled o) -> has s x b (Settled o).
Proof.
  intros HI Hq Hx Hs Hy.
  destruct (inv_link s HI x b st y h Hx Hs)
    as [bx rsx Hh Hpx Hj Hwo|bx rsx Hpx Hj Hwo|bx rsx by' oy Hpx Hy' Hj|bx by' oy Hpx Hy' Hj].
  - rewrite Hq in Hj. discriminate Hj.
  - unfold waiting_on in Hwo. unfold has in Hy. rewrite Hy in Hwo. discriminate Hwo.
  - rewrite Hq in Hj. discriminate Hj.
  - destruct (has_inj _ _ _ _ _ _ Hy Hy') as [_ E]. injection E as <-.
    destruct (has_inj _ _ _ _ _ _ Hx Hpx) as [<- _]. exact Hpx.
Qed.

Lemma then_pending (s : state) (t op : pid) (key : string) (st : pstate) (b : origin)
    (rs : list reaction) :
  Shape s -> has s t (FromThen key op) st -> has s op b (Pending rs) ->
  exists rs', st = Pending rs'.
Proof.
  intros HI Ht Hop.
  destruct (inv_link s HI t _ _ op (ThenDelete key) Ht eq_refl)
    as [bx rsx Hh Hpx Hj Hwo|bx rsx Hpx Hj Hwo|bx rsx by' oy Hpx Hy Hj|bx by' oy Hpx Hy Hj].
  - discriminate Hh.
  - destruct (has_inj _ _ _ _ _ _ Ht Hpx) as [_ ->]. eauto.
  - destruct (has_inj _ _ _ _ _ _ Hop Hy) as [_ E]. discriminate E.
  - destruct (has_inj _ _ _ _ _ _ Hop Hy) as [_ E]. discriminate E.
Qed.

(** While the operation is unsettled the table holds its registration. *)
Lemma operation_registered (s : state) (op : pid) (key : string) (rs : list reaction)
    (t : pid) (stt : pstate) (p : pid) (stp : pstate) :
  Inv s -> has s op (FromFetcher key) (Pending rs) -> has s t (FromThen key op) stt ->
  has s p (FromCatch key t) stp -> inflight s !! key = Some p.
Proof.
  intros HI Hop Ht Hp. destruct (then_pending s t op key stt _ rs HI Ht Hop) as [rs' ->].
  apply (inv_registered s HI p key t stp Hp). eapply registered_pending; exact Ht.
Qed.

Lemma one_operation (s : state) (key : string) (op1 op2 : pid) (rs1 rs2 : list reaction) :
  Inv s -> has s op1 (FromFetcher key) (Pending rs1) ->
  has s op2 (FromFetcher key) (Pending rs2) -> op1 = op2.
Proof.
  intros HI H1 H2.
  destruct (inv_then s HI _ _ _ H1) as (t1 & st1 & Ht1).
  destruct (inv_then s HI _ _ _ H2) as (t2 & st2 & Ht2).
  destruct (inv_catch s HI _ _ _ _ Ht1) as (p1 & sp1 & Hp1).
  destruct (inv_catch s HI _ _ _ _ Ht2) as (p2 & sp2 & Hp2).
  pose proof (operation_registered s op1 key rs1 t1 st1 p1 sp1 HI H1 Ht1 Hp1) as E1.
  pose proof (operation_registered s op2 key rs2 t2 st2 p2 sp2 HI H2 Ht2 Hp2) as E2.
  rewrite E1 in E2. injection E2 as <-.
  destruct (has_inj _ _ _ _ _ _ Hp1 Hp2) as [E _]. injection E as <-.
  destruct (has_inj _ _ _ _ _ _ Ht1 Ht2) as [E _]. now injection E.
Qed.

(** A caller's promise is settled only after the entry it joined has
    left the table. *)
Lemma delivered_unregistered (s : state) (r : pid) (key : string) (p : pid) (o : outcome) :
  Inv s -> has s r (FromDedup key p) (Settled o) -> inflight s !! key <> Some p.
Proof.
  intros HI Hr E.
  destruct (inv_table s HI key p E) as (t & stp & Hp).
  assert (Hp' : has s p (FromCatch key t) (Settled o)).
  { destruct (inv_link s HI r _ _ p Resolve Hr eq_refl)
      as [bx rsx Hh Hpx Hj Hwo|bx rsx Hpx Hj Hwo|bx rsx by' oy Hpx Hy Hj|bx by' oy Hpx Hy Hj];
      try (destruct (has_inj _ _ _ _ _ _ Hr Hpx) as [_ E']; discriminate E').
    destruct (has_inj _ _ _ _ _ _ Hr Hpx) as [_ E']. injection E' as <-.
    destruct (has_inj _ _ _ _ _ _ Hp Hy) as [<- ->]. exact Hy. }
  destruct (catch_source s p t key _ HI Hp') as (op & stt & Ht).
  assert (Ht' : has s t (FromThen key op) (Settled o)).
  { destruct (inv_link s HI p _ _ t (CatchDelete key) Hp' eq_refl)
      as [bx rsx Hh Hpx Hj Hwo|bx rsx Hpx Hj Hwo|bx rsx by' oy Hpx Hy Hj|bx by' oy Hpx Hy Hj];
      try (destruct (has_inj _ _ _ _ _ _ Hp' Hpx) as [_ E']; discriminate E').
    destruct (has_inj _ _ _ _ _ _ Hp' Hpx) as [_ E']. injection E' as <-.
    destruct (has_inj _ _ _ _ _ _ Ht Hy) as [<- ->]. exact Hy. }
  apply (inv_registered s HI p key t _ Hp') in E.
  destruct (registered_settled s t p _ _ Ht' E) as (e & b' & rs & _ & H).
  destruct (has_inj _ _ _ _ _ _ Hp' H) as [_ E']. discriminate E'.
Qed.

(** *** Schedules without a call, or without the upstream's answer *)

Lemma calls_cons (key : string) (a : action) (acts : list action) :
  calls key (a :: acts) = ((if is_call key a then 1 else 0) + calls key acts)%nat.
Proof. unfold calls. cbn [List.filter]. now destruct (is_call key a). Qed.

Lemma calls_app (key : string) (acts1 acts2 : list action) :
  calls key (acts1 ++ acts2) = (calls key acts1 + calls key acts2)%nat.
Proof. unfold calls. now rewrite List.filter_app, length_app. Qed.

Lemma calls_ticks (key : string) (n : nat) : calls key (repeat Tick n) = 0%nat.
Proof. induction n as [|n IH]; [reflexivity|]. simpl repeat. now rewrite calls_cons. Qed.

Lemma is_call_true (key : string) (a : action) : is_call key a = true <-> a = Call key.
Proof.
  destruct a as [k|op o|]; simpl; try (split; intros E; discriminate E).
  destruct (String.eqb_spec k key); split; congruence.
Qed.

Lemma not_call (key : string) (a : action) : is_call key a = false <-> a <> Call key.
Proof.
  rewrite <- is_call_true. destruct (is_call key a); split; congruence.
Qed.

Lemma quiet_fetched (acts : list action) (s : state) (key : string) :
  Inv s -> calls key acts = 0%nat -> fetched key (trace (run acts s)) = fetched key (trace s).
Proof.
  revert s. induction acts as [|a acts IH]; intros s HI Hc; [reflexivity|].
  rewrite calls_cons in Hc. destruct (is_call key a) eqn:Ea; [discriminate Hc|].
  apply not_call in Ea. cbn [run fold_left]. change (fold_left _ acts ?x) with (run acts x).
  rewrite (IH (step a s) (step_inv a s HI) Hc).
  destruct (moved_fetched a s _ key (step_moved a s HI)) as [E|(E & _)]; [exact E|].
  contradiction.
Qed.

Lemma quiet_inflight (acts : list action) (s : state) (key : string) (q : pid) :
  Inv s -> calls key acts = 0%nat ->
  inflight (run acts s) !! key = Some q -> inflight s !! key = Some q.
Proof.
  revert s. induction acts as [|a acts IH]; intros s HI Hc H; [exact H|].
  rewrite calls_cons in Hc. destruct (is_call key a) eqn:Ea; [discriminate Hc|].
  apply not_call in Ea.
  apply (IH (step a s) (step_inv a s HI) Hc) in H.
  destruct (moved_inflight a s _ key q (step_moved a s HI) H) as [E|(E & _)]; [exact E|].
  contradiction.
Qed.

Lemma unsettled_cons (op : pid) (a : action) (acts : list action) :
  unsettled op (a :: acts) = true ->
  (forall o, a <> Upstream op o) /\ unsettled op acts = true.
Proof.
  unfold unsettled. cbn [forallb]. intros H. apply andb_prop in H as [Ha H].
  split; [|exact H]. intros o ->. cbn [settles] in Ha. rewrite Nat.eqb_refl in Ha.
  discriminate Ha.
Qed.

(** *** The calls that find the operation unsettled *)

Lemma window_step (a : action) (s : state) (key : string) (op : pid) (rs : list reaction)
    (t : pid) (stt : pstate) (p : pid) (stp : pstate) :
  Inv s -> has s op (FromFetcher key) (Pending rs) -> has s t (FromThen key op) stt ->
  has s p (FromCatch key t) stp -> (forall o, a <> Upstream op o) ->
  has (step a s) op (FromFetcher key) (Pending rs) /\
  fetched key (trace (step a s)) = fetched key (trace s) /\
  exists new,
    returned key (trace (step a s)) = (returned key (trace s) ++ new)%list /\
    List.length new = (if is_call key a then 1 else 0)%nat /\
    forall r, In r new -> has (step a s) r (FromDedup key p) (Pending []).
Proof.
  intros HI Hop Ht Hp Ha. pose proof (step_moved a s HI) as M.
  pose proof (moved_fetcher a s _ op key rs HI M Ha Hop) as Hop'.
  pose proof (operation_registered s op key rs t stt p stp HI Hop Ht Hp) as Hin.
  split; [exact Hop'|]. split.
  - destruct (moved_fetched a s _ key M) as [E|(_ & E & _)]; [exact E|].
    rewrite Hin in E. discriminate E.
  - destruct (moved_returned a s _ key M) as [[Hn E]|(r & p' & -> & E & Hin' & Hr)].
    + exists []. rewrite app_nil_r. apply not_call in Hn. rewrite Hn.
      repeat split; [exact E|]. intros r [].
    + exists [r]. cbn [is_call]. rewrite String.eqb_refl. repeat split; [exact E|].
      intros r' [<-|[]].
      destruct (moved_keeps (Call key) s _ t _ stt HI M Ht) as [stt' Ht'].
      destruct (moved_keeps (Call key) s _ p _ stp HI M Hp) as [stp' Hp'].
      pose proof (operation_registered _ op key rs t stt' p stp'
                    (step_inv (Call key) s HI) Hop' Ht' Hp') as E'.
      rewrite Hin' in E'. injection E' as ->. exact Hr.
Qed.

Lemma window (acts : list action) (s : state) (key : string) (op : pid)
    (rs : list reaction) (t : pid) (stt : pstate) (p : pid) (stp : pstate) :
  Inv s -> has s op (FromFetcher key) (Pending rs) -> has s t (FromThen key op) stt ->
  has s p (FromCatch key t) stp -> unsettled op acts = true ->
  has (run acts s) op (FromFetcher key) (Pending rs) /\
  fetched key (trace (run acts s)) = fetched key (trace s) /\
  exists new,
    returned key (trace (run acts s)) = (returned key (trace s) ++ new)%list /\
    List.length new = calls key acts /\
    forall r, In r new -> exists st, has (run acts s) r (FromDedup key p) st.
Proof.
  revert s stt stp. induction acts as [|a acts IH]; intros s stt stp HI Hop Ht Hp Hu.
  - split; [exact Hop|]. split; [reflexivity|]. exists []. rewrite app_nil_r.
    repeat split. intros r [].
  - apply unsettled_cons in Hu as [Ha Hu].
    destruct (window_step a s key op rs t stt p stp HI Hop Ht Hp Ha)
      as (Hop1 & Ef1 & new1 & Er1 & Hl1 & Hn1).
    pose proof (step_moved a s HI) as M. pose proof (step_inv a s HI) as HI1.
    destruct (moved_keeps a s _ t _ stt HI M Ht) as [stt' Ht'].
    destruct (moved_keeps a s _ p _ stp HI M Hp) as [stp' Hp'].
    destruct (IH (step a s) stt' stp' HI1 Hop1 Ht' Hp' Hu)
      as (Hop2 & Ef2 & new2 & Er2 & Hl2 & Hn2).
    cbn [run fold_left]. change (fold_left _ acts ?x) with (run acts x).
    split; [exact Hop2|]. split; [now rewrite Ef2|].
    exists (new1 ++ new2)%list. rewrite Er2, Er1, <- app_assoc, length_app, calls_cons, Hl1, Hl2.
    repeat split. intros r Hr. apply in_app_or in Hr as [Hr|Hr]; [|now apply Hn2].
    exact (run_keeps acts (step a s) r _ _ HI1 (Hn1 r Hr)).
Qed.

(** *** One operation and its callers *)

Lemma started (s : state) (key : string) :
  Inv s -> inflight s !! key = None ->
  has (step (Call key) s) (next s) (FromFetcher key)
    (Pending [{| handle := ThenDelete key; derived := S (next s) |}]) /\
  has (step (Call key) s) (S (next s)) (FromThen key (next s))
    (Pending [{| handle := CatchDelete key; derived := S (S (next s)) |}]) /\
  has (step (Call key) s) (S (S (next s))) (FromCatch key (S (next s))) (Pending []) /\
  has (step (Call key) s) (S (S (S (next s)))) (FromDedup key (S (S (next s)))) (Pending []) /\
  fetched key (trace (step (Call key) s)) = (fetched key (trace s) ++ [next s])%list /\
  returned key (trace (step (Call key) s))
  = (returned key (trace s) ++ [S (S (S (next s)))])%list.
Proof.
  intros HI Hk. unfold step. rewrite (dedup_start s key Hk). cbn [snd].
  match goal with
  | |- has ?s' _ _ _ /\ _ =>
      pose proof (starting_op s s' key eq_refl eq_refl) as H1;
      pose proof (starting_then s s' key eq_refl eq_refl) as H2;
      pose proof (starting_catch s s' key eq_refl eq_refl) as H3;
      pose proof (starting_return s s' key eq_refl) as H4
  end.
  repeat split; try assumption; cbn [trace].
  - rewrite !fetched_app. cbn [fetched flat_map]. rewrite String.eqb_refl.
    now rewrite !app_nil_r.
  - rewrite !returned_app. cbn [returned flat_map]. rewrite String.eqb_refl.
    now rewrite !app_nil_r.
Qed.

Lemma coalesced (s : state) (mid : list action) (key : string) :
  Inv s -> inflight s !! key = None -> unsettled (next s) mid = true ->
  Inv (run mid (step (Call key) s)) /\
  (exists rs, has (run mid (step (Call key) s)) (next s) (FromFetcher key) (Pending rs)) /\
  (exists st, has (run mid (step (Call key) s)) (S (next s)) (FromThen key (next s)) st) /\
  (exists st,
     has (run mid (step (Call key) s)) (S (S (next s))) (FromCatch key (S (next s))) st) /\
  fetched key (trace (run mid (step (Call key) s))) = (fetched key (trace s) ++ [next s])%list /\
  exists rs,
    returned key (trace (run mid (step (Call key) s))) = (returned key (trace s) ++ rs)%list /\
    List.length rs = S (calls key mid) /\
    forall r, In r rs ->
      exists st, has (run mid (step (Call key) s)) r (FromDedup key (S (S (next s)))) st.
Proof.
  intros HI Hk Hu. pose proof (step_inv (Call key) s HI) as HI1.
  destruct (started s key HI Hk) as (Hop & Ht & Hp & Hr & Ef & Er).
  destruct (window mid _ key (next s) _ _ _ _ _ HI1 Hop Ht Hp Hu)
    as (Hop2 & Ef2 & new & Er2 & Hl & Hn).
  split; [now apply run_inv|]. split; [eauto|].
  split; [exact (run_keeps mid _ _ _ _ HI1 Ht)|].
  split; [exact (run_keeps mid _ _ _ _ HI1 Hp)|].
  split; [now rewrite Ef2|].
  exists (S (S (S (next s))) :: new). rewrite Er2, Er, <- app_assoc. cbn [List.length].
  repeat split; [now rewrite Hl|]. intros r [<-|Hin]; [|now apply Hn].
  exact (run_keeps mid _ _ _ _ HI1 Hr).
Qed.

Lemma upstream_settles (s : state) (op : pid) (key : string) (rs : list reaction)
    (o : outcome) :
  has s op (FromFetcher key) (Pending rs) ->
  has (step (Upstream op o) s) op (FromFetcher key) (Settled o) /\
  inflight (step (Upstream op o) s) = inflight s /\
  trace (step (Upstream op o) s) = trace s.
Proof.
  intros Hop. unfold step, is_fetcher_promise. pose proof Hop as Hop0. unfold has in Hop0.
  rewrite Hop0, (settle_pending s op _ rs o Hop). repeat split.
  unfold has. cbn [heap]. apply lookup_insert_eq.
Qed.

(** Once the operation has settled and the jobs have run, everything
    made from its promise is settled as it is, and the entry is gone. *)
Lemma delivered (s : state) (post : list action) (op : pid) (key : string)
    (rs : list reaction) (o : outcome) (t : pid) (stt : pstate) (p : pid) (stp : pstate) :
  Inv s -> has s op (FromFetcher key) (Pending rs) -> has s t (FromThen key op) stt ->
  has s p (FromCatch key t) stp ->
  Inv (drain (run post (step (Upstream op o) s))) /\
  has (drain (run post (step (Upstream op o) s))) p (FromCatch key t) (Settled o) /\
  (forall r st, has s r (FromDedup key p) st ->
     has (drain (run post (step (Upstream op o) s))) r (FromDedup key p) (Settled o)) /\
  inflight (drain (run post (step (Upstream op o) s))) !! key <> Some p.
Proof.
  intros HI Hop Ht Hp.
  destruct (upstream_settles s op key rs o Hop) as (Hop1 & _ & _).
  pose proof (step_inv (Upstream op o) s HI) as HI1.
  assert (E : drain (run post (step (Upstream op o) s))
              = run (post ++ repeat Tick (backlog (run post (step (Upstream op o) s))))
                  (step (Upstream op o) s)).
  { unfold drain. now rewrite ticks_run, run_app. }
  pose proof (drain_empty (run post (step (Upstream op o) s))) as Hq.
  rewrite E in *. set (acts := (post ++ _)%list) in *.
  pose proof (run_inv acts _ HI1) as HI3.
  pose proof (run_settled acts _ op _ o HI1 Hop1) as Hop3.
  assert (Hall : forall z b st, has s z b st ->
                   exists st', has (run acts (step (Upstream op o) s)) z b st').
  { intros z b st H.
    destruct (moved_keeps _ s _ z b st HI (step_moved (Upstream op o) s HI) H) as [st1 H1].
    exact (run_keeps acts _ z b st1 HI1 H1). }
  destruct (Hall _ _ _ Ht) as [stt3 Ht3]. destruct (Hall _ _ _ Hp) as [stp3 Hp3].
  pose proof (quiet_settled _ t _ _ op _ _ o HI3 Hq Ht3 eq_refl Hop3) as Ht4.
  pose proof (quiet_settled _ p _ _ t _ _ o HI3 Hq Hp3 eq_refl Ht4) as Hp4.
  assert (Hrs : forall r st, has s r (FromDedup key p) st ->
                  has (run acts (step (Upstream op o) s)) r (FromDedup key p) (Settled o)).
  { intros r st Hr. destruct (Hall _ _ _ Hr) as [str3 Hr3].
    exact (quiet_settled _ r _ _ p _ _ o HI3 Hq Hr3 eq_refl Hp4). }
  split; [exact HI3|]. split; [exact Hp4|]. split; [exact Hrs|].
  intros Ein. apply (inv_registered _ HI3 p key t _ Hp4) in Ein.
  destruct (registered_settled _ t p _ _ Ht4 Ein) as (e & b' & rs' & _ & H).
  destruct (has_inj _ _ _ _ _ _ Hp4 H) as [_ E']. discriminate E'.
Qed.

(** *** Coalescing *)

(** C1. Request coalescing. In any reachable state [s0] whose table has no
    entry for [key], let [dedup(key, ...)] be called, and then let anything
    happen ([mid]: more calls for this or other keys, microtasks, answers for
    other operations) except the upstream's answer for the operation just
    started. Then the operation has been invoked exactly once under [key]
    since [s0], however many calls [mid] contains; each of the
    [1 + calls key mid] callers got a promise; and once the upstream answers
    with [o], whatever happens next ([post]), these promises are all settled
    with that same [o] when the microtask queue has drained. Moreover, in
    every reachable state an unsettled operation has its entry in the table,
    and two unsettled operations of one key are the same operation. *)
Theorem dedup_coalesces (pre mid post : list action) (key : string) (o : outcome) :
  let s0 := run pre init in
  let s2 := run mid (step (Call key) s0) in
  let s3 := drain (run post (step (Upstream (next s0) o) s2)) in
  inflight s0 !! key = None ->
  unsettled (next s0) mid = true ->
  fetched key (trace s2) = (fetched key (trace s0) ++ [next s0])%list /\
  (exists rs,
     returned key (trace s2) = (returned key (trace s0) ++ rs)%list /\
     List.length rs = S (calls key mid) /\
     forall r, In r rs -> settled_with s3 r o) /\
  (forall acts k op1 op2,
     in_flight (run acts init) k op1 ->
     (exists p, inflight (run acts init) !! k = Some p) /\
     (in_flight (run acts init) k op2 -> op1 = op2)).
Proof.
  intros s0 s2 s3 Hk Hu.
  pose proof (run_inv pre init init_inv) as HI0. fold s0 in HI0.
  destruct (coalesced s0 mid key HI0 Hk Hu)
    as (HI2 & [rs Hop] & [stt Ht] & [stp Hp] & Ef & new & Er & Hl & Hn).
  fold s2 in HI2, Hop, Ht, Hp, Ef, Er, Hn.
  destruct (delivered s2 post (next s0) key rs o _ stt _ stp HI2 Hop Ht Hp)
    as (HI3 & _ & Hrs & _).
  fold s3 in HI3, Hrs.
  split; [exact Ef|]. split.
  - exists new. repeat split; [exact Er|exact Hl|].
    intros r Hr. destruct (Hn r Hr) as [st H]. eexists. exact (Hrs r st H).
  - intros acts k op1 op2 [rs1 H1]. pose proof (run_inv acts init init_inv) as HI.
    split.
    + destruct (inv_then _ HI _ _ _ H1) as (t1 & st1 & Ht1).
      destruct (inv_catch _ HI _ _ _ _ Ht1) as (p1 & sp1 & Hp1).
      exists p1. exact (operation_registered _ op1 k rs1 t1 st1 p1 sp1 HI H1 Ht1 Hp1).
    + intros [rs2 H2]. exact (one_operation _ k op1 op2 rs1 rs2 HI H1 H2).
Qed.

(** Three callers of one key, one of them after a microtask ran; the
    upstream answers with a value. *)
Lemma dedup_coalesces_witness :
  let s0 := run [] init in
  let s2 := run [Call "k"; Tick; Call "k"] (step (Call "k") s0) in
  let s3 := drain (run [] (step (Upstream (next s0) (Fulfilled (JNum 7))) s2)) in
  fetched "k" (trace s2) = (fetched "k" (trace s0) ++ [next s0])%list /\
  (exists rs,
     returned "k" (trace s2) = (returned "k" (trace s0) ++ rs)%list /\
     List.length rs = S (calls "k" [Call "k"; Tick; Call "k"]) /\
     forall r, In r rs -> settled_with s3 r (Fulfilled (JNum 7))) /\
  (forall acts k op1 op2,
     in_flight (run acts init) k op1 ->
     (exists p, inflight (run acts init) !! k = Some p) /\
     (in_flight (run acts init) k op2 -> op1 = op2)).
Proof.
  apply (dedup_coalesces [] [Call "k"; Tick; Call "k"] [] "k" (Fulfilled (JNum 7)));
    vm_compute; reflexivity.
Defined.

(** C2. Removal before delivery, failure, no retry. With [s0], [mid] and
    [post] as above, and no new call for [key] in [post]: while the
    operation is unsettled the table holds its entry; once the upstream has
    answered with [o], a value or an error alike, and the microtask queue
    has drained, the entry is gone, every caller that joined has its promise
    settled with that same [o] (for a rejection: rejected with the same
    error), and the operation has still been invoked only once: nothing
    retries it. And in every reachable state, a caller's promise that is
    settled joined an entry that is no longer in the table: the entry is
    removed before the outcome is delivered. *)
Theorem dedup_entry_removed_first (pre mid post : list action) (key : string)
    (o : outcome) :
  let s0 := run pre init in
  let s2 := run mid (step (Call key) s0) in
  let s3 := drain (run post (step (Upstream (next s0) o) s2)) in
  inflight s0 !! key = None ->
  unsettled (next s0) mid = true ->
  calls key post = 0%nat ->
  inflight s2 !! key = Some (S (S (next s0))) /\
  inflight s3 !! key = None /\
  (forall r, In r (returned key (trace s2)) -> ~ In r (returned key (trace s0)) ->
             settled_with s3 r o) /\
  fetched key (trace s3) = (fetched key (trace s0) ++ [next s0])%list /\
  (forall acts r k p o',
     has (run acts init) r (FromDedup k p) (Settled o') ->
     inflight (run acts init) !! k <> Some p).
Proof.
  intros s0 s2 s3 Hk Hu Hc.
  pose proof (run_inv pre init init_inv) as HI0. fold s0 in HI0.
  destruct (coalesced s0 mid key HI0 Hk Hu)
    as (HI2 & [rs Hop] & [stt Ht] & [stp Hp] & Ef & new & Er & Hl & Hn).
  fold s2 in HI2, Hop, Ht, Hp, Ef, Er, Hn.
  pose proof (operation_registered s2 _ key rs _ stt _ stp HI2 Hop Ht Hp) as Hin2.
  destruct (delivered s2 post (next s0) key rs o _ stt _ stp HI2 Hop Ht Hp)
    as (HI3 & _ & Hrs & Hout).
  destruct (upstream_settles s2 (next s0) key rs o Hop) as (_ & Ei & Etr).
  pose proof (step_inv (Upstream (next s0) o) s2 HI2) as HI2'.
  assert (E : s3 = run (post ++ repeat Tick (backlog (run post (step (Upstream (next s0) o) s2))))
                     (step (Upstream (next s0) o) s2)).
  { unfold s3, drain. now rewrite ticks_run, run_app. }
  assert (Hc' : calls key (post ++ repeat Tick
                                     (backlog (run post (step (Upstream (next s0) o) s2))))
                = 0%nat).
  { now rewrite calls_app, calls_ticks, Hc. }
  fold s3 in HI3, Hrs, Hout.
  split; [exact Hin2|]. split; [|split; [|split]].
  - destruct (inflight s3 !! key) as [q|] eqn:Eq; [|reflexivity]. exfalso.
    rewrite E in Eq. apply (quiet_inflight _ _ key q HI2' Hc') in Eq.
    rewrite Ei, Hin2 in Eq. injection Eq as <-. now apply Hout.
  - intros r Hr Hold. rewrite Er in Hr. apply in_app_or in Hr as [Hr|Hr]; [contradiction|].
    destruct (Hn r Hr) as [st H]. eexists. exact (Hrs r st H).
  - rewrite E, (quiet_fetched _ _ key HI2' Hc'), Etr. exact Ef.
  - intros acts r k p o' Hr.
    exact (delivered_unregistered _ r k p o' (run_inv acts init init_inv) Hr).
Qed.

(** Two callers of one key; the upstream runs into its time limit. *)
Lemma dedup_entry_removed_first_witness :
  let s0 := run [Call "j"; Tick] init in
  let s2 := run [Call "k"; Tick] (step (Call "k") s0) in
  let s3 := drain (run [Call "j"]
                     (step (Upstream (next s0) (Rejected (Error "Query timed out"))) s2)) in
  inflight s2 !! "k" = Some (S (S (next s0))) /\
  inflight s3 !! "k" = None /\
  (forall r, In r (returned "k" (trace s2)) -> ~ In r (returned "k" (trace s0)) ->
             settled_with s3 r (Rejected (Error "Query timed out"))) /\
  fetched "k" (trace s3) = (fetched "k" (trace s0) ++ [next s0])%list /\
  (forall acts r k p o',
     has (run acts init) r (FromDedup k p) (Settled o') ->
     inflight (run acts init) !! k <> Some p).
Proof.
  apply (dedup_entry_removed_first [Call "j"; Tick] [Call "k"; Tick] [Call "j"] "k"
           (Rejected (Error "Query timed out")));
    vm_compute; reflexivity.
Defined.

End CoalescerFacts.

(** ** [snapToHour] *)

Lemma slice0_length (n : nat) (s : string) :
  String.length (slice0 n s) = Nat.min n (String.length s).
Proof.
  unfold slice0. revert s. induction n as [|n IH]; intros [|a s]; simpl; auto.
Qed.

Lemma slice0_all (s t : string) : slice0 (String.length s) (s ++ t) = s.
Proof.
  unfold slice0. induction s as [|a s IH]; simpl.
  - now destruct t.
  - now rewrite IH.
Qed.

Lemma append_length (s t : string) :
  String.length (s ++ t) = (String.length s + String.length t)%nat.
Proof. induction s as [|a s IH]; simpl; [reflexivity|]. now rewrite IH. Qed.

Lemma snapToHour_length (s : string) :
  String.length (snapToHour s) = (Nat.min 13 (String.length s) + 6)%nat.
Proof. unfold snapToHour. now rewrite append_length, slice0_length. Qed.

(** Snapping twice is snapping once exactly on the strings that have an
    hour to cut at: at least the 13 characters [YYYY-MM-DD HH]. A shorter
    string grows by another [:00:00]. *)
Theorem snapToHour_idempotent (dateStr : string) :
  snapToHour (snapToHour dateStr) = snapToHour dateStr <-> (13 <= String.length dateStr)%nat.
Proof.
  split.
  - intros H. apply (f_equal String.length) in H. rewrite !snapToHour_length in H. lia.
  - intros H. unfold snapToHour at 2 3.
    assert (E : String.length (slice0 13 dateStr) = 13%nat) by (rewrite slice0_length; lia).
    unfold snapToHour. rewrite <- E at 1. now rewrite slice0_all.
Qed.

(** The date and the hour of a stamp depend on the hour of the instant
    only. *)
Lemma snapToHour_stamp_floor (t : Z) :
  snapToHour (stamp t) = snapToHour (stamp (floor_to (3600 * 1000) t)).
Proof.
  unfold stamp, toISOString. rewrite !snapToHour_stamp_format.
  assert (Ed : Day (floor_to (3600 * 1000) t) = Day t)
    by (unfold Day, floor_to, msPerDay; zdiv).
  assert (Eh : HourFromTime (floor_to (3600 * 1000) t) = HourFromTime t)
    by (unfold HourFromTime, floor_to, msPerHour; zdiv).
  unfold DateFromTime, MonthFromTime, DayWithinYear, YearFromTime.
  now rewrite Ed, Eh.
Qed.

(** From 1970 to the year 9999, the stamps of two instants snap to the
    same string exactly when the instants lie in the same hour, and the
    snapped stamp, read back the way [ttlForRange] reads it, is the start
    of that hour. *)
Theorem snapToHour_same_hour (t1 t2 : Z) :
  0 <= t1 < 253402300800000 -> 0 <= t2 < 253402300800000 ->
  (snapToHour (stamp t1) = snapToHour (stamp t2) <-> t1 / (3600 * 1000) = t2 / (3600 * 1000))
  /\ time_of (snapToHour (stamp t1)) = Some (t1 / (3600 * 1000) * (3600 * 1000)).
Proof.
  intros H1 H2. split; [|exact (time_of_snapped_stamp t1 H1)]. split.
  - intros E. apply (f_equal time_of) in E.
    rewrite (time_of_snapped_stamp t1 H1), (time_of_snapped_stamp t2 H2) in E.
    injection E as E. unfold floor_to in E. lia.
  - intros E. rewrite (snapToHour_stamp_floor t1), (snapToHour_stamp_floor t2).
    unfold floor_to. now rewrite E.
Qed.

Lemma snapToHour_same_hour_witness :
  (snapToHour (stamp 1736166572123) = snapToHour (stamp 1736164800000)
   <-> 1736166572123 / (3600 * 1000) = 1736164800000 / (3600 * 1000))
  /\ time_of (snapToHour (stamp 1736166572123))
     = Some (1736166572123 / (3600 * 1000) * (3600 * 1000)).
Proof. apply (snapToHour_same_hour 1736166572123 1736164800000); lia. Defined.

(** ** [ttlForRange]: the brackets *)

(** For two timestamps that denote instants, the lifetime is six hours
    from a span of seven days on, two hours from 24 hours on, and one hour
    below that, a reversed range included; so a longer range is never
    cached for a shorter time. *)
Theorem ttlForRange_brackets (startDate endDate : string) (s e : Z) :
  time_of startDate = Some s -> time_of endDate = Some e ->
  (ttlForRange startDate endDate = 6 * 3600000 <-> 7 * 24 * 3600000 <= e - s) /\
  (ttlForRange startDate endDate = 2 * 3600000
     <-> 24 * 3600000 <= e - s < 7 * 24 * 3600000) /\
  (ttlForRange startDate endDate = 3600000 <-> e - s < 24 * 3600000) /\
  (forall startDate' endDate' s' e',
     time_of startDate' = Some s' -> time_of endDate' = Some e' ->
     e - s <= e' - s' -> ttlForRange startDate endDate <= ttlForRange startDate' endDate').
Proof.
  intros Hs He. unfold time_of in Hs, He.
  rewrite (ttlForRange_by_span _ _ _ _ Hs He).
  split; [|split; [|split]].
  - destruct (168 * 3600000 <=? e - s) eqn:E1; destruct (24 * 3600000 <=? e - s) eqn:E2; lia.
  - destruct (168 * 3600000 <=? e - s) eqn:E1; destruct (24 * 3600000 <=? e - s) eqn:E2; lia.
  - destruct (168 * 3600000 <=? e - s) eqn:E1; destruct (24 * 3600000 <=? e - s) eqn:E2; lia.
  - intros sd' ed' s' e' Hs' He' Hle. unfold time_of in Hs', He'.
    rewrite (ttlForRange_by_span _ _ _ _ Hs' He').
    destruct (168 * 3600000 <=? e - s) eqn:E1; destruct (24 * 3600000 <=? e - s) eqn:E2;
      destruct (168 * 3600000 <=? e' - s') eqn:E3; destruct (24 * 3600000 <=? e' - s') eqn:E4;
      lia.
Qed.

Lemma ttlForRange_brackets_witness :
  ttlForRange "2025-01-05 12:00:00" "2025-01-06 12:00:00" = 2 * 3600000
  <-> 24 * 3600000 <= 1736164800000 - 1736078400000 < 7 * 24 * 3600000.
Proof.
  destruct (ttlForRange_brackets "2025-01-05 12:00:00" "2025-01-06 12:00:00"
              1736078400000 1736164800000) as (_ & H & _).
  - vm_compute. reflexivity.
  - vm_compute. reflexivity.
  - exact H.
Defined.

(** ** [cacheKey]: distinct parameter sets, distinct fingerprints *)

Lemma occurs_append (c : ascii) (s t : string) :
  occurs c (s ++ t) = occurs c s || occurs c t.
Proof.
  induction s as [|a s IH]; simpl; [reflexivity|]. now rewrite IH, orb_assoc.
Qed.

(** A string is cut at the first separator in one way only. *)
Lemma cut_unique (c : ascii) (a a' b b' : string) :
  occurs c a = false -> occurs c a' = false ->
  a ++ String c b = a' ++ String c b' -> a = a' /\ b = b'.
Proof.
  revert a'. induction a as [|x a IH]; intros [|x' a'] Ha Ha' E; simpl in *.
  - injection E as ->. auto.
  - injection E as <- _. rewrite Ascii.eqb_refl in Ha'. discriminate Ha'.
  - injection E as -> _. rewrite Ascii.eqb_refl in Ha. discriminate Ha.
  - injection E as <- E. apply orb_false_elim in Ha as [_ Ha], Ha' as [_ Ha'].
    destruct (IH a' Ha Ha' E) as [-> ->]. auto.
Qed.

Lemma concat_cons (sep x y : string) (l : list string) :
  String.concat sep (x :: y :: l) = x ++ sep ++ String.concat sep (y :: l).
Proof. reflexivity. Qed.

Lemma joined_unique (l l' : list string) :
  Forall (fun x => occurs "&" x = false /\ x <> "") l ->
  Forall (fun x => occurs "&" x = false /\ x <> "") l' ->
  String.concat "&" l = String.concat "&" l' -> l = l'.
Proof.
  revert l'. induction l as [|x l IH]; intros l' Hl Hl' E.
  - destruct l' as [|y [|y' l']]; [reflexivity| |].
    + apply Forall_inv in Hl' as [_ Hy]. simpl in E. now subst y.
    + apply Forall_inv in Hl' as [_ Hy]. rewrite concat_cons in E.
      destruct y; [now destruct Hy|discriminate E].
  - pose proof (Forall_inv Hl) as [Hx Hxe]. apply Forall_inv_tail in Hl.
    destruct l' as [|y l'].
    + destruct l as [|x' l]; [simpl in E; now subst x|].
      rewrite concat_cons in E. destruct x; [now destruct Hxe|discriminate E].
    + pose proof (Forall_inv Hl') as [Hy Hye]. apply Forall_inv_tail in Hl'.
      destruct l as [|x' l], l' as [|y' l'].
      * simpl in E. now subst.
      * rewrite concat_cons in E. simpl String.concat at 1 in E. subst x.
        rewrite occurs_append in Hx. cbv [String.append] in Hx. fold String.append in Hx.
        simpl in Hx. rewrite orb_true_r in Hx. discriminate Hx.
      * rewrite concat_cons in E. simpl String.concat at 2 in E. subst y.
        rewrite occurs_append in Hy. cbv [String.append] in Hy. fold String.append in Hy.
        simpl in Hy. rewrite orb_true_r in Hy. discriminate Hy.
      * rewrite !concat_cons in E.
        change ("&" ++ ?r) with (String "&"%char r) in E.
        destruct (cut_unique "&" x y _ _ Hx Hy E) as [-> E'].
        f_equal. now apply IH.
Qed.

Lemma entry_unique (kv kv' : string * string) :
  occurs "=" (fst kv) = false -> occurs "=" (fst kv') = false ->
  fst kv ++ "=" ++ snd kv = fst kv' ++ "=" ++ snd kv' -> kv = kv'.
Proof.
  destruct kv as [k v], kv' as [k' v']. simpl. intros Hk Hk' E.
  change ("=" ++ ?r) with (String "="%char r) in E.
  destruct (cut_unique "=" k k' v v' Hk Hk' E) as [-> ->]. reflexivity.
Qed.

Lemma plain_entry_joined (l : list (string * string)) :
  Forall plain_entry l ->
  Forall (fun x => occurs "&" x = false /\ x <> "")
         (map (fun kv => fst kv ++ "=" ++ snd kv) l).
Proof.
  intros H. apply Forall_map. eapply List.Forall_impl; [|exact H].
  intros [k v] (_ & Hk & Hv). simpl in *. split.
  - rewrite occurs_append, Hk. change ("=" ++ v) with (String "="%char v).
    simpl. exact Hv.
  - destruct k; discriminate.
Qed.

Lemma entries_unique (l l' : list (string * string)) :
  Forall plain_entry l -> Forall plain_entry l' ->
  map (fun kv => fst kv ++ "=" ++ snd kv) l = map (fun kv => fst kv ++ "=" ++ snd kv) l' ->
  l = l'.
Proof.
  revert l'. induction l as [|x l IH]; intros [|y l'] Hl Hl' E; try discriminate E;
    [reflexivity|].
  simpl in E. injection E as E1 E2.
  pose proof (Forall_inv Hl) as (Hx & _). pose proof (Forall_inv Hl') as (Hy & _).
  rewrite (entry_unique x y Hx Hy E1). f_equal.
  apply IH; [now apply Forall_inv_tail in Hl|now apply Forall_inv_tail in Hl'|exact E2].
Qed.

(** When the query identities hold no colon and the parameter names and
    values no separator, two fingerprints are equal only for the same
    query and the same parameters, up to their order. *)
Theorem cacheKey_injective (localeCompare : string -> string -> Z)
    (queryId queryId' : string) (params params' : list (string * string)) :
  occurs ":" queryId = false -> occurs ":" queryId' = false ->
  Forall plain_entry params -> Forall plain_entry params' ->
  cacheKey localeCompare queryId params = cacheKey localeCompare queryId' params' ->
  queryId = queryId' /\ Permutation params params'.
Proof.
  intros Hq Hq' Hp Hp' E. unfold cacheKey in E.
  change (":" ++ ?r) with (String ":"%char r) in E.
  destruct (cut_unique ":" _ _ _ _ Hq Hq' E) as [-> E'].
  split; [reflexivity|].
  assert (Hs : Forall plain_entry (Array_sort (by_key localeCompare) params)).
  { apply List.Forall_forall. intros x Hx.
    apply (Permutation_in _ (Array_sort_perm localeCompare params)) in Hx.
    now apply (proj1 (List.Forall_forall _ _) Hp). }
  assert (Hs' : Forall plain_entry (Array_sort (by_key localeCompare) params')).
  { apply List.Forall_forall. intros x Hx.
    apply (Permutation_in _ (Array_sort_perm localeCompare params')) in Hx.
    now apply (proj1 (List.Forall_forall _ _) Hp'). }
  apply joined_unique in E'; try now apply plain_entry_joined.
  apply entries_unique in E'; [|exact Hs|exact Hs'].
  rewrite <- (Array_sort_perm localeCompare params), <- (Array_sort_perm localeCompare params').
  unfold by_key. now rewrite E'.
Qed.

Lemma cacheKey_injective_witness :
  FLOWS_QUERY_ID = FLOWS_QUERY_ID /\
  Permutation (range_params "2025-01-05 12:00:00" "2025-01-06 12:00:00")
              [("end_date", "2025-01-06 12:00:00"); ("start_date", "2025-01-05 12:00:00")].
Proof.
  apply (cacheKey_injective codeUnitCompare).
  - reflexivity.
  - reflexivity.
  - repeat constructor.
  - repeat constructor.
  - vm_compute. reflexivity.
Defined.

(** Without that, fingerprints collide: a value that holds [&] and [=]
    reads like a second parameter. *)
Example cacheKey_collision :
  cacheKey codeUnitCompare "q" [("a", "1&b=2")] = cacheKey codeUnitCompare "q" [("a", "1"); ("b", "2")].
Proof. reflexivity. Qed.

(** ** Routes: no key, a hit, a miss *)

(** Without an API key every route answers 500 at once: no cache lookup,
    no query, nothing written; the wallet route does so before it looks
    at its address parameter. *)
Theorem missing_api_key (localeCompare : string -> string -> Z)
    (request : list (string * string)) (w : world) :
  truthy_str (ALLIUM_API_KEY w) = false ->
  GET_flows localeCompare request w
    = (Ok (json_status (error_body "Missing ALLIUM_API_KEY") 500), w, []) /\
  GET_bridges localeCompare request w
    = (Ok (json_status (error_body "Missing ALLIUM_API_KEY") 500), w, []) /\
  GET_wallet request w
    = (Ok (json_status (error_body "Missing ALLIUM_API_KEY") 500), w, []) /\
  GET_prefetch localeCompare w
    = (Ok (json_status (error_body "Missing ALLIUM_API_KEY") 500), w, []).
Proof.
  intros H. unfold GET_flows, GET_bridges, ranged_route, GET_wallet, GET_prefetch, truthy_str in *.
  destruct (ALLIUM_API_KEY w) as [apiKey|]; [|repeat split].
  destruct (String.eqb apiKey ""); [repeat split|discriminate H].
Qed.

Lemma missing_api_key_witness :
  GET_wallet []
    {| ALLIUM_API_KEY := Some ""; now := 0; caches := CachesDefault; store := ∅;
       match_fails := fun _ => None; body_fails := fun _ => None; put_fails := fun _ => None;
       upstream := fun _ => Fulfilled JNull; inflight := ∅ |}
  = (Ok (json_status (error_body "Missing ALLIUM_API_KEY") 500),
     {| ALLIUM_API_KEY := Some ""; now := 0; caches := CachesDefault; store := ∅;
        match_fails := fun _ => None; body_fails := fun _ => None; put_fails := fun _ => None;
        upstream := fun _ => Fulfilled JNull; inflight := ∅ |}, []).
Proof.
  destruct (missing_api_key codeUnitCompare []
              {| ALLIUM_API_KEY := Some ""; now := 0; caches := CachesDefault; store := ∅;
                 match_fails := fun _ => None; body_fails := fun _ => None;
                 put_fails := fun _ => None;
                 upstream := fun _ => Fulfilled JNull; inflight := ∅ |})
    as (_ & _ & H & _).
  - reflexivity.
  - exact H.
Defined.

Lemma cfCacheMatch_hit (url : string) (w : world) (d : json) (t : Z) :
  cache_works w -> store w !! url = Some (d, t) ->
  cfCacheMatch url w = (Ok d, w, [EvCfCacheMatch url]).
Proof.
  intros [Hc Hf] Hs. destruct (Hf url) as (Hm & Hb & _).
  unfold cfCacheMatch, bind, emit, getCfCache, try_catch, cache_match, response_json, ret.
  rewrite Hc. simpl. rewrite Hm, Hs. simpl. rewrite Hb, Hs. reflexivity.
Qed.

Lemma cfCachePut_stores (url : string) (d : json) (t : Z) (w : world) :
  cache_works w ->
  cfCachePut url d t w = (Ok tt, store_put url d t w, [EvCfCachePut url d t]).
Proof.
  intros [Hc Hf]. destruct (Hf url) as (_ & _ & Hp).
  unfold cfCachePut, bind, emit, getCfCache, try_catch, cache_put, ret.
  rewrite Hc. simpl. rewrite Hp. reflexivity.
Qed.

Lemma ranged_route_hit cmp name queryId maxWaitMs span request w apiKey d t :
  has_key w apiKey -> cache_works w ->
  store w !! window_url name span request w = Some (d, t) -> truthy d = true ->
  ranged_route cmp name queryId maxWaitMs span request w
  = (Ok (json_response d), w, [EvCfCacheMatch (window_url name span request w)]).
Proof.
  intros [Hk Hne] Hc Hs Ht. unfold ranged_route, window_url in *. rewrite Hk, Hne.
  destruct (Routes.window span request w) as [sd ed]. cbn [fst snd] in Hs.
  unfold bind at 1. rewrite (cfCacheMatch_hit _ w d t Hc Hs), Ht.
  reflexivity.
Qed.

(** A stored entry that is truthy is served as it is, with status 200:
    the route looks the URL up once and does nothing else (no query, no
    entry in the in-flight table, no write). The time-ranged routes send
    no [Cache-Control] header with it, the wallet route does. *)
Theorem cache_hit (localeCompare : string -> string -> Z)
    (request : list (string * string)) (w : world) (apiKey : string) (d : json) (t : Z) :
  has_key w apiKey -> cache_works w -> truthy d = true ->
  (store w !! window_url "flows" (24 * 3600 * 1000) request w = Some (d, t) ->
   GET_flows localeCompare request w
   = (Ok (json_response d), w,
      [EvCfCacheMatch (window_url "flows" (24 * 3600 * 1000) request w)])) /\
  (store w !! window_url "bridges" (3600 * 1000) request w = Some (d, t) ->
   GET_bridges localeCompare request w
   = (Ok (json_response d), w,
      [EvCfCacheMatch (window_url "bridges" (3600 * 1000) request w)])) /\
  (forall address,
     searchParams_get request "address" = Some address -> String.eqb address "" = false ->
     store w !! wallet_cache_url address (chain_of request) = Some (d, t) ->
     GET_wallet request w
     = (Ok (json_headers d wallet_cache_control), w,
        [EvCfCacheMatch (wallet_cache_url address (chain_of request))])).
Proof.
  intros Hk Hc Ht. split; [|split].
  - intros Hs. now apply (ranged_route_hit _ _ _ _ _ _ _ apiKey d t).
  - intros Hs. now apply (ranged_route_hit _ _ _ _ _ _ _ apiKey d t).
  - intros address Ha Hne Hs. destruct Hk as [Hk Hkne].
    unfold GET_wallet, chain_of in *. rewrite Hk, Hkne, Ha, Hne.
    unfold bind at 1. rewrite (cfCacheMatch_hit _ w d t Hc Hs), Ht. reflexivity.
Qed.

Lemma cache_hit_witness :
  GET_flows codeUnitCompare [] warm_world
  = (Ok (json_response (JObj [("data", JArr [JNum 1])])), warm_world,
     [EvCfCacheMatch (window_url "flows" (24 * 3600 * 1000) [] warm_world)]).
Proof.
  destruct (cache_hit codeUnitCompare [] warm_world "key" (JObj [("data", JArr [JNum 1])]) 7200)
    as (H & _).
  - split; reflexivity.
  - split; [reflexivity|]. intros url. repeat split.
  - reflexivity.
  - apply H. vm_compute. reflexivity.
Defined.






(** A route reads its request through [window] only. *)
Lemma ranged_route_window cmp name queryId maxWaitMs span request request' w :
  Routes.window span request w = Routes.window span request' w ->
  ranged_route cmp name queryId maxWaitMs span request w
  = ranged_route cmp name queryId maxWaitMs span request' w.
Proof. intros E. unfold ranged_route. now rewrite E. Qed.

Lemma store_put_same (url : string) (d : json) (t : Z) (w : world) (apiKey : string) :
  (has_key w apiKey -> has_key (store_put url d t w) apiKey) /\
  (cache_works w -> cache_works (store_put url d t w)) /\
  (forall key q, awaited (store_put url d t w) key q = awaited w key q) /\
  (forall name span request,
     window_url name span request (store_put url d t w) = window_url name span request w) /\
  store (store_put url d t w) !! url = Some (d, t).
Proof.
  split; [|split; [|split; [|split]]].
  - intros [H1 H2]. split; assumption.
  - intros [H1 H2]. split; assumption.
  - reflexivity.
  - reflexivity.
  - cbn [store_put store]. apply lookup_insert_eq.
Qed.



Lemma one_row_world_works : has_key one_row_world "key" /\ cache_works one_row_world.
Proof. split; [split; reflexivity|]. split; [reflexivity|]. intros url. repeat split. Qed.


(** ** Prefetch *)

Lemma settled_entry (job : M string) (w : world) :
  exists j, settled job w = (Ok j, snd (fst (job w)), snd (job w)) /\ summary_entry j.
Proof.
  unfold settled, try_catch, bind, ret, summary_entry.
  destruct (job w) as [[[value|reason] w'] evs]; cbn [fst snd]; rewrite app_nil_r; eauto.
Qed.

Lemma GET_prefetch_run cmp w apiKey :
  has_key w apiKey ->
  exists r1 r2 r3,
    summary_entry r1 /\ summary_entry r2 /\ summary_entry r3 /\
    GET_prefetch cmp w
    = (Ok (json_response (JObj [("prefetched", JArr [r1; r2; r3])])),
       snd (fst (wallet_job apiKey
                   (snd (fst (bridges_job cmp apiKey (snd (fst (flows_job cmp apiKey w)))))))),
       (snd (flows_job cmp apiKey w)
        ++ snd (bridges_job cmp apiKey (snd (fst (flows_job cmp apiKey w))))
        ++ snd (wallet_job apiKey
                  (snd (fst (bridges_job cmp apiKey (snd (fst (flows_job cmp apiKey w))))))))%list).
Proof.
  intros [Hk Hne]. unfold GET_prefetch. rewrite Hk, Hne.
  destruct (settled_entry (flows_job cmp apiKey) w) as (r1 & E1 & H1).
  set (w1 := snd (fst (flows_job cmp apiKey w))) in *.
  destruct (settled_entry (bridges_job cmp apiKey) w1) as (r2 & E2 & H2).
  set (w2 := snd (fst (bridges_job cmp apiKey w1))) in *.
  destruct (settled_entry (wallet_job apiKey) w2) as (r3 & E3 & H3).
  exists r1, r2, r3. repeat split; try assumption.
  unfold bind. rewrite E1, E2, E3. unfold ret. now rewrite app_nil_r.
Qed.



Lemma ranged_url_window (name : string) (span : Z) (w : world) :
  ranged_url name span w = window_url name span [] w.
Proof. reflexivity. Qed.

Lemma ranged_job_success cmp name queryId maxWaitMs span apiKey w v :
  cache_works w -> (forall key q, awaited w key q = Fulfilled v) ->
  store w !! window_url name span [] w = None ->
  snd (fst (ranged_job cmp name queryId maxWaitMs span apiKey w))
  = store_put (window_url name span [] w) v (window_ttlSec span [] w) w.
Proof.
  intros Hc Ha Hs. unfold ranged_job, window_url, window_ttlSec, ttlSec in *.
  rewrite window_default in *. cbn [fst snd] in *.
  unfold bind at 1. rewrite (cfCacheMatch_absent _ w Hs). cbn [truthy].
  unfold bind.
  match goal with |- context [dedup ?k ?q w] =>
    destruct (dedup_run k q w) as (de & Hd & Hde); rewrite Hd, Ha end.
  match goal with |- context [cfCachePut ?u ?d ?t w] =>
    rewrite (cfCachePut_stores u d t w Hc) end.
  reflexivity.
Qed.

Lemma flows_url_not_bridges (w w' : world) (s1 s2 : Z) :
  window_url "flows" s1 [] w <> window_url "bridges" s2 [] w'.
Proof. unfold window_url. cbv [String.append]. discriminate. Qed.

(** Prefetch warms what the routes read. When the cache works, holds
    neither default window yet, and the queries succeed with a truthy
    result, then after the prefetch a flows request and a bridges request
    without parameters are both answered from the cache: one lookup each,
    no query. *)
Theorem prefetch_warms_defaults (localeCompare : string -> string -> Z) (w : world)
    (apiKey : string) (v : json) :
  has_key w apiKey -> cache_works w ->
  (forall key q, awaited w key q = Fulfilled v) -> truthy v = true ->
  store w !! window_url "flows" (24 * 3600 * 1000) [] w = None ->
  store w !! window_url "bridges" (3600 * 1000) [] w = None ->
  GET_flows localeCompare [] (snd (fst (GET_prefetch localeCompare w)))
  = (Ok (json_response v), snd (fst (GET_prefetch localeCompare w)),
     [EvCfCacheMatch (window_url "flows" (24 * 3600 * 1000) [] w)]) /\
  GET_bridges localeCompare [] (snd (fst (GET_prefetch localeCompare w)))
  = (Ok (json_response v), snd (fst (GET_prefetch localeCompare w)),
     [EvCfCacheMatch (window_url "bridges" (3600 * 1000) [] w)]).
Proof.
  intros Hk Hc Ha Ht Hf Hb.
  destruct (GET_prefetch_run localeCompare w apiKey Hk) as (r1 & r2 & r3 & _ & _ & _ & E).
  rewrite E. cbn [fst snd]. clear E.
  unfold flows_job, bridges_job.
  rewrite (ranged_job_success localeCompare "flows" _ _ _ apiKey w v Hc Ha Hf).
  set (uf := window_url "flows" (24 * 3600 * 1000) [] w) in *.
  set (w1 := store_put uf v (window_ttlSec (24 * 3600 * 1000) [] w) w).
  destruct (store_put_same uf v (window_ttlSec (24 * 3600 * 1000) [] w) w apiKey)
    as (Hk1 & Hc1 & Ha1 & Hu1 & Hs1).
  fold w1 in Hk1, Hc1, Ha1, Hu1, Hs1.
  assert (Hb1 : store w1 !! window_url "bridges" (3600 * 1000) [] w1 = None).
  { rewrite Hu1. unfold w1. cbn [store_put store].
    rewrite lookup_insert_ne; [exact Hb|]. apply flows_url_not_bridges. }
  rewrite (ranged_job_success localeCompare "bridges" _ _ _ apiKey w1 v (Hc1 Hc)
             (fun key q => eq_trans (Ha1 key q) (Ha key q)) Hb1).
  rewrite Hu1. set (ub := window_url "bridges" (3600 * 1000) [] w) in *.
  set (w2 := store_put ub v (window_ttlSec (3600 * 1000) [] w1) w1).
  destruct (store_put_same ub v (window_ttlSec (3600 * 1000) [] w1) w1 apiKey)
    as (Hk2 & Hc2 & Ha2 & Hu2 & Hs2).
  fold w2 in Hk2, Hc2, Ha2, Hu2, Hs2.
  destruct (wallet_job_run apiKey w2) as (r & evs & Ew & _). rewrite Ew. cbn [fst snd].
  assert (Ef : store w2 !! uf = Some (v, window_ttlSec (24 * 3600 * 1000) [] w)).
  { unfold w2. cbn [store_put store]. rewrite lookup_insert_ne; [exact Hs1|].
    intros E. symmetry in E. revert E. apply flows_url_not_bridges. }
  split.
  - pose proof (ranged_route_hit localeCompare "flows" FLOWS_QUERY_ID 300000
                  (24 * 3600 * 1000) [] w2 apiKey v (window_ttlSec (24 * 3600 * 1000) [] w))
      as H.
    rewrite Hu2, Hu1 in H. fold uf in H. exact (H (Hk2 (Hk1 Hk)) (Hc2 (Hc1 Hc)) Ef Ht).
  - pose proof (ranged_route_hit localeCompare "bridges" BRIDGE_QUERY_ID 30000
                  (3600 * 1000) [] w2 apiKey v (window_ttlSec (3600 * 1000) [] w1))
      as H.
    rewrite Hu2, Hu1 in H. fold ub in H. exact (H (Hk2 (Hk1 Hk)) (Hc2 (Hc1 Hc)) Hs2 Ht).
Qed.

Lemma prefetch_warms_defaults_witness :
  GET_flows codeUnitCompare [] (snd (fst (GET_prefetch codeUnitCompare one_row_world)))
  = (Ok (json_response (JObj [("data", JArr [JObj [("N", JNum 1)]])])),
     snd (fst (GET_prefetch codeUnitCompare one_row_world)),
     [EvCfCacheMatch (window_url "flows" (24 * 3600 * 1000) [] one_row_world)]).
Proof.
  destruct (prefetch_warms_defaults codeUnitCompare one_row_world "key"
              (JObj [("data", JArr [JObj [("N", JNum 1)]])])) as (H & _).
  - apply one_row_world_works.
  - apply one_row_world_works.
  - intros key q. reflexivity.
  - reflexivity.
  - vm_compute. reflexivity.
  - vm_compute. reflexivity.
  - exact H.
Defined.

(** ** The wallet route: one cache entry for all spellings of an address *)

Lemma GET_wallet_success request w apiKey address result row rest cpMap :
  has_key w apiKey -> cache_works w ->
  searchParams_get request "address" = Some address -> String.eqb address "" = false ->
  store w !! wallet_cache_url address (chain_of request) = None ->
  (forall key q, awaited w key q = Fulfilled result) ->
  rows_of result = JArr (row :: rest) ->
  add_rows address (chain_of request) [] (row :: rest) = Ok cpMap ->
  exists evs,
    GET_wallet request w
    = (Ok (json_headers
             (WalletData address (chain_of request)
                (counterparties_of (chain_of request) cpMap))
             wallet_cache_control),
       store_put (wallet_cache_url address (chain_of request))
         (WalletData address (chain_of request) (counterparties_of (chain_of request) cpMap))
         3600 w,
       evs).
Proof.
  intros [Hk Hkne] Hc Ha Hne Hs Haw Hrows Hadd.
  unfold GET_wallet, chain_of in *. rewrite Hk, Hkne, Ha, Hne.
  unfold bind at 1. rewrite (cfCacheMatch_absent _ w Hs). cbn [truthy].
  unfold try_catch, bind at 1.
  match goal with |- context [dedup ?k ?q w] =>
    destruct (dedup_run k q w) as (de & Hd & Hde); rewrite Hd, Haw end.
  rewrite Hrows. unfold bind, of_result. rewrite Hadd.
  match goal with |- context [cfCachePut ?u ?d ?t w] =>
    rewrite (cfCachePut_stores u d t w Hc) end.
  unfold ret. eexists. reflexivity.
Qed.

(** The wallet route keys its cache entry by the lower-cased address.
    After a request that stored its result, a request for the same
    address in another spelling (and the same chain) is answered from the
    cache with the stored body, whose [address] field is the spelling of
    the first request. *)
Theorem wallet_entry_shared (request request' : list (string * string)) (w : world)
    (apiKey address address' : string) (result row : json) (rest : list json)
    (cpMap : list (string * totals)) :
  has_key w apiKey -> cache_works w ->
  searchParams_get request "address" = Some address -> String.eqb address "" = false ->
  searchParams_get request' "address" = Some address' -> String.eqb address' "" = false ->
  toLowerCase address' = toLowerCase address -> chain_of request' = chain_of request ->
  store w !! wallet_cache_url address (chain_of request) = None ->
  (forall key q, awaited w key q = Fulfilled result) ->
  rows_of result = JArr (row :: rest) ->
  add_rows address (chain_of request) [] (row :: rest) = Ok cpMap ->
  exists body w' evs,
    GET_wallet request w = (Ok (json_headers body wallet_cache_control), w', evs) /\
    GET_wallet request' w'
    = (Ok (json_headers body wallet_cache_control), w',
       [EvCfCacheMatch (wallet_cache_url address (chain_of request))]) /\
    prop body "address" = Some (JStr address).
Proof.
  intros Hk Hc Ha Hne Ha' Hne' Hlow Hch Hs Haw Hrows Hadd.
  destruct (GET_wallet_success request w apiKey address result row rest cpMap
              Hk Hc Ha Hne Hs Haw Hrows Hadd) as [evs Hrun].
  do 3 eexists. split; [exact Hrun|]. split; [|reflexivity].
  match goal with |- GET_wallet _ (store_put ?u ?d ?t w) = _ =>
    destruct (store_put_same u d t w apiKey) as (Hk1 & Hc1 & _ & _ & Hs1);
    set (w1 := store_put u d t w) in *
  end.
  destruct (Hk1 Hk) as [Hk' Hkne']. specialize (Hc1 Hc).
  unfold GET_wallet. rewrite Hk', Hkne', Ha', Hne'.
  fold (chain_of request'). rewrite Hch.
  assert (Eu : wallet_cache_url address' (chain_of request)
               = wallet_cache_url address (chain_of request))
    by (unfold wallet_cache_url; now rewrite Hlow).
  rewrite Eu. unfold bind at 1. rewrite (cfCacheMatch_hit _ w1 _ _ Hc1 Hs1).
  reflexivity.
Qed.

Lemma wallet_entry_shared_witness :
  exists body w' evs,
    GET_wallet [("address", "0xDBF5E9C5206D0DB70A90108BF936DA60221DC080")] exchange_world
    = (Ok (json_headers body wallet_cache_control), w', evs) /\
    GET_wallet [("address", DEFAULT_WALLET)] w'
    = (Ok (json_headers body wallet_cache_control), w',
       [EvCfCacheMatch
          (wallet_cache_url "0xDBF5E9C5206D0DB70A90108BF936DA60221DC080"
             (chain_of [("address", "0xDBF5E9C5206D0DB70A90108BF936DA60221DC080")]))]) /\
    prop body "address" = Some (JStr "0xDBF5E9C5206D0DB70A90108BF936DA60221DC080").
Proof.
  eapply (wallet_entry_shared [("address", "0xDBF5E9C5206D0DB70A90108BF936DA60221DC080")]
            [("address", DEFAULT_WALLET)] exchange_world "key").
  - split; reflexivity.
  - split; [reflexivity|]. intros url. repeat split.
  - reflexivity.
  - reflexivity.
  - reflexivity.
  - reflexivity.
  - vm_compute. reflexivity.
  - reflexivity.
  - vm_compute. reflexivity.
  - intros key q. reflexivity.
  - vm_compute. reflexivity.
  - vm_compute. reflexivity.
Defined.

(** ** The wallet route: counterparties *)

Lemma Map_get_set {V} (k a : string) (v : V) (m : list (string * V)) :
  Map_get a (Map_set k v m) = if String.eqb a k then Some v else Map_get a m.
Proof.
  unfold Map_get. induction m as [|[k' v'] m IH]; simpl.
  - rewrite String.eqb_sym. now destruct (String.eqb a k).
  - destruct (String.eqb_spec k' k) as [->|Hne]; simpl.
    + rewrite (String.eqb_sym k a). now destruct (String.eqb a k).
    + destruct (String.eqb_spec k' a) as [->|Hne'].
      * destruct (String.eqb_spec a k); [congruence|reflexivity].
      * exact IH.
Qed.

Lemma Map_get_In {V} (a : string) (m : list (string * V)) :
  In a (map fst m) <-> exists v, Map_get a m = Some v.
Proof.
  unfold Map_get. induction m as [|[k v] m IH]; simpl.
  - split; [intros []|intros [v E]; discriminate E].
  - destruct (String.eqb_spec k a) as [->|Hne].
    + split; eauto.
    + rewrite <- IH. tauto.
Qed.

Lemma Map_get_entry {V} (a : string) (v : V) (m : list (string * V)) :
  List.NoDup (map fst m) -> In (a, v) m -> Map_get a m = Some v.
Proof.
  unfold Map_get. induction m as [|[k v'] m IH]; simpl; [intros _ []|].
  intros Hnd [E|Hin].
  - injection E as -> ->. now rewrite String.eqb_refl.
  - apply List.NoDup_cons_iff in Hnd as [Hk Hnd].
    destruct (String.eqb_spec k a) as [->|Hne]; [|now apply IH].
    destruct Hk. apply (in_map fst) in Hin. exact Hin.
Qed.

Lemma Map_set_keys {V} (k : string) (v : V) (m : list (string * V)) :
  map fst (Map_set k v m) = if existsb (String.eqb k) (map fst m) then map fst m
                            else (map fst m ++ [k])%list.
Proof.
  induction m as [|[k' v'] m IH]; simpl; [reflexivity|].
  rewrite (String.eqb_sym k k'). destruct (String.eqb_spec k' k) as [->|Hne]; simpl.
  - reflexivity.
  - rewrite IH. now destruct (existsb (String.eqb k) (map fst m)).
Qed.

Lemma Map_set_NoDup {V} (k : string) (v : V) (m : list (string * V)) :
  List.NoDup (map fst m) -> List.NoDup (map fst (Map_set k v m)).
Proof.
  intros H. rewrite Map_set_keys.
  destruct (existsb (String.eqb k) (map fst m)) eqn:E; [exact H|].
  apply List.NoDup_app; [exact H|repeat constructor; intros []|].
  intros a Ha [E'|[]]. subst a.
  assert (existsb (String.eqb k) (map fst m) = true); [|congruence].
  apply existsb_exists. exists k. split; [exact Ha|apply String.eqb_refl].
Qed.

Lemma Map_set_In {V} (k a : string) (v : V) (m : list (string * V)) :
  In a (map fst (Map_set k v m)) <-> a = k \/ In a (map fst m).
Proof.
  rewrite !Map_get_In. setoid_rewrite Map_get_set.
  destruct (String.eqb_spec a k) as [->|Hne].
  - split; eauto.
  - split; [intros H; now right|intros [E|H]; [congruence|exact H]].
Qed.

Lemma or_json_text (x : string) : or_json (Some (JStr x)) (or_json None (JStr "")) = JStr x.
Proof.
  unfold or_json, truthy. destruct (String.eqb_spec x "") as [->|_]; reflexivity.
Qed.

Lemma or_json_count (n : Z) :
  ToNumber (or_json (Some (JNum n)) (or_json None (JNum 0))) = Some n.
Proof.
  unfold or_json, truthy. destruct (Z.eqb_spec n 0) as [->|_]; reflexivity.
Qed.

(** One transfer row: skipped for the wallet itself, else added to the
    totals of its counterparty. *)
Lemma add_row_transfer (address chain : string) (cpMap : list (string * totals))
    (t : transfer) :
  (String.eqb (toLowerCase (t_address t)) (toLowerCase address) = true /\
   add_row address chain cpMap (transfer_row t) = Ok cpMap) \/
  (String.eqb (toLowerCase (t_address t)) (toLowerCase address) = false /\
   exists new,
     add_row address chain cpMap (transfer_row t)
     = Ok (Map_set (toLowerCase (t_address t)) new cpMap) /\
     sent new
     = (if is_sent t
        then num_add (match Map_get (toLowerCase (t_address t)) cpMap with
                      | Some e => sent e
                      | None => Some 0
                      end) (Some (t_count t))
        else match Map_get (toLowerCase (t_address t)) cpMap with
             | Some e => sent e
             | None => Some 0
             end) /\
     received new
     = (if is_sent t
        then match Map_get (toLowerCase (t_address t)) cpMap with
             | Some e => received e
             | None => Some 0
             end
        else num_add (match Map_get (toLowerCase (t_address t)) cpMap with
                      | Some e => received e
                      | None => Some 0
                      end) (Some (t_count t)))).
Proof.
  destruct t as [ad d n c]. unfold add_row, transfer_row, is_sent. cbn [t_address t_direction t_count t_category].
  simpl prop. rewrite !or_json_text, or_json_count. unfold is_string.
  destruct (String.eqb (toLowerCase ad) (toLowerCase address)); [left; auto|right].
  split; [reflexivity|]. eexists. split; [reflexivity|].
  cbn [sent received].
  destruct (Map_get (toLowerCase ad) cpMap); destruct (String.eqb d "sent"); auto.
Qed.

Lemma sum_app (l1 l2 : list Z) :
  fold_right Z.add 0 (l1 ++ l2) = fold_right Z.add 0 l1 + fold_right Z.add 0 l2.
Proof. induction l1 as [|x l1 IH]; simpl; lia. Qed.

Lemma sent_to_snoc (a : string) (done : list transfer) (t : transfer) :
  sent_to a (done ++ [t])
  = sent_to a done
    + (if String.eqb (toLowerCase (t_address t)) a && is_sent t then t_count t else 0).
Proof.
  unfold sent_to. rewrite List.filter_app, map_app, sum_app. cbn [List.filter].
  destruct (String.eqb (toLowerCase (t_address t)) a && is_sent t); simpl; lia.
Qed.

Lemma received_from_snoc (a : string) (done : list transfer) (t : transfer) :
  received_from a (done ++ [t])
  = received_from a done
    + (if String.eqb (toLowerCase (t_address t)) a && negb (is_sent t) then t_count t else 0).
Proof.
  unfold received_from. rewrite List.filter_app, map_app, sum_app. cbn [List.filter].
  destruct (String.eqb (toLowerCase (t_address t)) a && negb (is_sent t)); simpl; lia.
Qed.

Lemma no_transfer (a : string) (done : list transfer) :
  ~ In a (map (fun t => toLowerCase (t_address t)) done) ->
  sent_to a done = 0 /\ received_from a done = 0.
Proof.
  intros H. unfold sent_to, received_from.
  induction done as [|t done IH]; [split; reflexivity|].
  cbn [List.filter map] in *.
  destruct (String.eqb_spec (toLowerCase (t_address t)) a) as [E|_].
  - destruct H. now left.
  - cbn [andb]. apply IH. intros Hin. apply H. now right.
Qed.

(** What the loop over the rows keeps: one entry per counterparty seen
    so far, the wallet itself left out, with the transfers of the rows
    seen so far. *)
Lemma add_rows_transfers (address chain : string) (rest done : list transfer)
    (cpMap : list (string * totals)) :
  List.NoDup (map fst cpMap) ->
  (forall a, In a (map fst cpMap)
             <-> a <> toLowerCase address
                 /\ In a (map (fun t => toLowerCase (t_address t)) done)) ->
  (forall a e, Map_get a cpMap = Some e ->
               sent e = Some (sent_to a done) /\ received e = Some (received_from a done)) ->
  exists cpMap',
    add_rows address chain cpMap (map transfer_row rest) = Ok cpMap' /\
    List.NoDup (map fst cpMap') /\
    (forall a, In a (map fst cpMap')
               <-> a <> toLowerCase address
                   /\ In a (map (fun t => toLowerCase (t_address t)) (done ++ rest))) /\
    (forall a e, Map_get a cpMap' = Some e ->
                 sent e = Some (sent_to a (done ++ rest))
                 /\ received e = Some (received_from a (done ++ rest))).
Proof.
  revert done cpMap. induction rest as [|t rest IH]; intros done cpMap Hnd Hkeys Htot.
  - exists cpMap. rewrite app_nil_r. auto.
  - cbn [map add_rows].
    replace (done ++ t :: rest)%list with ((done ++ [t]) ++ rest)%list
      by (now rewrite <- app_assoc).
    destruct (add_row_transfer address chain cpMap t) as [[Eself ->]|(Eself & new & -> & Hs & Hr)].
    + apply String.eqb_eq in Eself. apply IH; [exact Hnd| |].
      * intros a. rewrite Hkeys, map_app, in_app_iff. cbn [map List.In].
        split; [tauto|]. intros [Ha [H|[H|[]]]]; [tauto|congruence].
      * intros a e Hget. rewrite sent_to_snoc, received_from_snoc.
        assert (Ha : a <> toLowerCase address).
        { apply (Hkeys a), Map_get_In. eauto. }
        destruct (String.eqb_spec (toLowerCase (t_address t)) a) as [E|_]; [congruence|].
        cbn [andb]. rewrite !Z.add_0_r. now apply Htot.
    + apply String.eqb_neq in Eself. apply IH.
      * now apply Map_set_NoDup.
      * intros a. rewrite Map_set_In, Hkeys, map_app, in_app_iff. cbn [map List.In].
        split.
        -- intros [->|[Ha H]]; [split; [exact Eself|auto]|tauto].
        -- intros [Ha [H|[H|[]]]]; [tauto|now left].
      * intros a e. rewrite Map_get_set, sent_to_snoc, received_from_snoc.
        rewrite (String.eqb_sym a).
        destruct (String.eqb_spec (toLowerCase (t_address t)) a) as [<-|Hne].
        -- intros E. injection E as <-. rewrite Hs, Hr. cbn [andb].
           destruct (Map_get (toLowerCase (t_address t)) cpMap) as [e0|] eqn:Hget.
           ++ destruct (Htot _ _ Hget) as [-> ->].
              destruct (is_sent t); cbn [negb num_add]; split; f_equal; lia.
           ++ assert (Hno : ~ In (toLowerCase (t_address t))
                              (map (fun t => toLowerCase (t_address t)) done)).
              { intros Hin. assert (Hk : In (toLowerCase (t_address t)) (map fst cpMap))
                  by (apply Hkeys; auto).
                apply Map_get_In in Hk as [v Hv]. congruence. }
              destruct (no_transfer _ _ Hno) as [-> ->].
              destruct (is_sent t); cbn [negb num_add]; split; f_equal; lia.
        -- intros Hget. cbn [andb]. rewrite !Z.add_0_r. now apply Htot.
Qed.

Lemma sort_insert_permutation {A} (cmp : A -> A -> Z) (x : A) (l : list A) :
  Permutation (sort_insert cmp x l) (x :: l).
Proof.
  induction l as [|y l IH]; simpl; [reflexivity|].
  destruct (cmp x y <=? 0); [reflexivity|]. rewrite IH. apply perm_swap.
Qed.

Lemma Array_sort_permutation {A} (cmp : A -> A -> Z) (l : list A) :
  Permutation (Array_sort cmp l) l.
Proof.
  induction l as [|x l IH]; simpl; [reflexivity|].
  rewrite sort_insert_permutation. now constructor.
Qed.




Lemma sort_insert_busier (x : EnrichedCounterparty) (l : list EnrichedCounterparty) :
  (exists n, transferCount x = Some n) ->
  Forall (fun c => exists n, transferCount c = Some n) l ->
  StronglySorted busier l ->
  StronglySorted busier
    (sort_insert (fun a b => match transferCount b, transferCount a with
                             | Some p, Some q => p - q
                             | _, _ => 0
                             end) x l).
Proof.
  intros [n Hx] Hl Hs. induction l as [|y l IH]; simpl.
  - repeat constructor.
  - pose proof (Forall_inv Hl) as [m Hy]. apply Forall_inv_tail in Hl.
    apply StronglySorted_inv in Hs as [Hs Hys].
    rewrite Hy, Hx. destruct (Z.leb_spec (m - n) 0) as [Hle|Hgt].
    + constructor; [now constructor|]. constructor.
      * exists n, m. repeat split; auto; lia.
      * eapply List.Forall_impl; [|exact Hys].
        intros z (p & q & Hp & Hq & Hpq). rewrite Hy in Hp. injection Hp as <-.
        exists n, q. repeat split; auto; lia.
    + constructor; [now apply IH|].
      apply List.Forall_forall. intros z Hz.
      apply (Permutation_in _ (sort_insert_permutation _ x l)) in Hz as [<-|Hz].
      * exists m, n. repeat split; auto; lia.
      * exact (proj1 (List.Forall_forall _ _) Hys z Hz).
Qed.

Lemma exchange_rows_safe : safe_counts exchange_rows.
Proof.
  split; [repeat constructor; cbn [t_count]; lia|].
  vm_compute. intros H. discriminate H.
Qed.


(** For rows of the query's shape whose counts are non-negative integers
    that stay within 2^53 together, the counterparties are listed by
    their number of transfers, the busiest first. *)
Theorem wallet_counterparties_ordered (address chain : string) (items : list transfer) :
  safe_counts items ->
  exists cpMap,
    add_rows address chain [] (map transfer_row items) = Ok cpMap /\
    StronglySorted busier (counterparties_of chain cpMap).
Proof.
  intros _.
  destruct (add_rows_transfers address chain items [] []) as (cpMap & Hrun & Hnd & Hkeys & Htot).
  - constructor.
  - intros a. simpl. tauto.
  - intros a e H. discriminate H.
  - exists cpMap. split; [exact Hrun|].
    assert (Hnum : forall a e, In (a, e) cpMap ->
                     exists n, num_add (sent e) (received e) = Some n).
    { intros a e Hin. destruct (Htot a e (Map_get_entry a e cpMap Hnd Hin)) as [-> ->].
      simpl. eauto. }
    clear Hrun Hnd Hkeys Htot. unfold counterparties_of.
    induction cpMap as [|[a e] cpMap IH]; [constructor|].
    cbn [map Array_sort]. apply sort_insert_busier.
    + apply (Hnum a e). now left.
    + apply List.Forall_forall. intros c Hc.
      apply (Permutation_in _ (Array_sort_permutation _ _)) in Hc.
      apply in_map_iff in Hc as ([a' e'] & <- & Hin). apply (Hnum a' e'). now right.
    + apply IH. intros a' e' Hin. apply (Hnum a' e'). now right.
Qed.

Lemma wallet_counterparties_ordered_witness :
  exists cpMap,
    add_rows DEFAULT_WALLET "ethereum" [] (map transfer_row exchange_rows) = Ok cpMap /\
    StronglySorted busier (counterparties_of "ethereum" cpMap).
Proof.
  exact (wallet_counterparties_ordered DEFAULT_WALLET "ethereum" exchange_rows
           exchange_rows_safe).
Defined.

(** Three rows for one exchange address in two spellings are one
    counterparty with seven transfers, behind the one with twenty; the
    row for the wallet itself is left out. *)
Example wallet_counterparties_ex :
  option_map (map (fun c => (cp_address c, totalSent c, totalReceived c, transferCount c)))
    (match add_rows DEFAULT_WALLET "ethereum" [] (map transfer_row exchange_rows) with
     | Ok cpMap => Some (counterparties_of "ethereum" cpMap)
     | Throw _ => None
     end)
  = Some [("0xbbbb", Some 20, Some 0, Some 20); ("0xaaaa", Some 3, Some 4, Some 7)].
Proof. vm_compute. reflexivity. Qed.

(** ** The page and the flows route *)

Section PageFacts.
Import Page.

(** The range the page starts with is the flows route's own default:
    sent as parameters by a page whose clock is in the same hour as the
    server's, it gives the request that has no parameters at all, lookup
    for lookup and query for query. *)
Theorem page_default_is_route_default (localeCompare : string -> string -> Z)
    (pageNow : Z) (w : world) :
  pageNow / (3600 * 1000) = now w / (3600 * 1000) ->
  GET_flows localeCompare (fetchFlows_request (makeDefaultStablecoinDateRange pageNow)) w
  = GET_flows localeCompare [] w.
Proof.
  intros E. unfold GET_flows. apply ranged_route_window.
  unfold fetchFlows_request, makeDefaultStablecoinDateRange. cbn [fst snd].
  rewrite window_explicit by apply stamp_not_empty.
  rewrite window_default. unfold floor_to. now rewrite E.
Qed.

Lemma page_default_is_route_default_witness :
  GET_flows codeUnitCompare
    (fetchFlows_request (makeDefaultStablecoinDateRange 1736165000000)) one_row_world
  = GET_flows codeUnitCompare [] one_row_world.
Proof. apply page_default_is_route_default. reflexivity. Defined.

Lemma stamp_format (t : Z) :
  stamp t
  = pad4 (YearFromTime t) ++ "-" ++ pad2 (MonthFromTime t + 1) ++ "-" ++ pad2 (DateFromTime t)
    ++ " " ++ pad2 (HourFromTime t) ++ ":" ++ pad2 (MinFromTime t) ++ ":"
    ++ pad2 (SecFromTime t).
Proof.
  unfold stamp, toISOString, iso_format, pad4, pad3, pad2.
  cbv [String.append].
  rewrite !(replace_first_skip "T" " ") by (apply digit_not_T || reflexivity).
  rewrite replace_first_hit.
  reflexivity.
Qed.

(** The stamp of a full hour is snapped already. *)
Lemma snapToHour_full_hour (t : Z) :
  t mod (3600 * 1000) = 0 -> snapToHour (stamp t) = stamp t.
Proof.
  intros H. rewrite stamp_format at 2. unfold stamp, toISOString.
  rewrite snapToHour_stamp_format.
  assert (Em : MinFromTime t = 0) by (unfold MinFromTime, msPerMinute; zdiv).
  assert (Es : SecFromTime t = 0) by (unfold SecFromTime, msPerSecond; zdiv).
  rewrite Em, Es. reflexivity.
Qed.

Lemma time_of_full_hour (t : Z) :
  0 <= t < 253402300800000 -> t mod (3600 * 1000) = 0 -> time_of (stamp t) = Some t.
Proof.
  intros Ht H. rewrite <- (snapToHour_full_hour t H), (time_of_snapped_stamp t Ht).
  unfold floor_to. f_equal. zdiv.
Qed.

(** The quick presets of the picker. The range of a preset is snapped
    already, so the flows route asks for it as it stands, and the result
    is cached for one hour for the presets below 24 hours, two hours for
    24 hours, and six hours for seven and thirty days. *)
Theorem quick_preset_lifetime (pageNow hours span : Z) (w : world) :
  0 <= hours -> hours * (3600 * 1000) + 86400 * 1000 <= pageNow < 253402300800000 ->
  Routes.window span (fetchFlows_request (handleQuickSelect pageNow hours)) w
  = handleQuickSelect pageNow hours /\
  window_ttlSec span (fetchFlows_request (handleQuickSelect pageNow hours)) w
  = (if hours <? 24 then 3600 else if hours <? 7 * 24 then 7200 else 21600).
Proof.
  intros Hh Hnow.
  set (snapMs := if 24 * 7 <=? hours then 86400 * 1000 else 3600 * 1000).
  set (e := floor_to snapMs pageNow). set (s := e - hours * 3600 * 1000).
  assert (He : e mod (3600 * 1000) = 0 /\ 0 <= e < 253402300800000 /\ pageNow - 86400 * 1000 < e).
  { unfold e, snapMs, floor_to. destruct (24 * 7 <=? hours); zdiv. }
  destruct He as (He & Her & Hel).
  assert (Hs : s mod (3600 * 1000) = 0 /\ 0 <= s < 253402300800000) by (unfold s; zdiv).
  destruct Hs as (Hs & Hsr).
  assert (Ew : Routes.window span (fetchFlows_request (handleQuickSelect pageNow hours)) w
               = (stamp s, stamp e)).
  { unfold fetchFlows_request, handleQuickSelect. fold snapMs. fold e. fold s. cbn [fst snd].
    rewrite window_explicit by apply stamp_not_empty.
    now rewrite (snapToHour_full_hour s Hs), (snapToHour_full_hour e He). }
  split.
  - rewrite Ew. reflexivity.
  - unfold window_ttlSec, ttlSec. rewrite Ew. cbn [fst snd].
    rewrite (ttlForRange_by_span (stamp s) (stamp e) s e
               (time_of_full_hour s Hsr Hs) (time_of_full_hour e Her He)).
    replace (e - s) with (hours * 3600000) by (unfold s; lia).
    destruct (Z.ltb_spec hours 24), (Z.ltb_spec hours (7 * 24)),
      (Z.leb_spec (168 * 3600000) (hours * 3600000)),
      (Z.leb_spec (24 * 3600000) (hours * 3600000)); try lia; reflexivity.
Qed.

Lemma quick_preset_lifetime_witness :
  Routes.window (24 * 3600 * 1000) (fetchFlows_request (handleQuickSelect 1736166572123 6))
    one_row_world
  = handleQuickSelect 1736166572123 6 /\
  window_ttlSec (24 * 3600 * 1000) (fetchFlows_request (handleQuickSelect 1736166572123 6))
    one_row_world
  = (if 6 <? 24 then 3600 else if 6 <? 7 * 24 then 7200 else 21600).
Proof. apply quick_preset_lifetime; lia. Defined.

End PageFacts.

(** ** The client of the query engine *)

Section AlliumFacts.
Import Allium.
Variable JSON_stringify : json -> string.
Variable net : network.

Lemma fetch_run (req : http_request) (st : net_state) :
  exists r, fetch net req st
            = (r, {| clock := clock st + fst (answer net (List.length (sent st)) req);
                     sent := (sent st ++ [req])%list; timers := timers st |}) /\
    match snd (answer net (List.length (sent st)) req) with
    | NetworkError e => r = Throw e
    | Response a => r = Ok a
    end.
Proof.
  unfold fetch. destruct (answer net (List.length (sent st)) req) as [d [e|a]]; simpl; eauto.
Qed.

Lemma pollQueryStatus_run (runId : json) (apiKey : string) (st : net_state) :
  exists r, pollQueryStatus net runId apiKey st
            = (r, {| clock := clock st
                                + fst (answer net (List.length (sent st))
                                         (status_request runId apiKey));
                     sent := (sent st ++ [status_request runId apiKey])%list;
                     timers := timers st |}).
Proof.
  unfold pollQueryStatus, bindN. fold (status_request runId apiKey).
  destruct (fetch_run (status_request runId apiKey) st) as (r & -> & _).
  destruct r as [a|e]; [|eauto].
  destruct (negb (ok a)); [unfold throwN; eauto|].
  unfold liftN. destruct (json_of a) as [[]|]; unfold retN, throwN; eauto.
Qed.



Lemma turns_enough (maxWaitMs : Z) : maxWaitMs <= 3000 * Z.of_nat (turns maxWaitMs).
Proof.
  unfold turns. destruct (Z_lt_le_dec maxWaitMs 0) as [H|H].
  - lia.
  - rewrite Z2Nat.id by (apply Z.div_pos; lia). zdiv.
Qed.



Lemma pollQueryStatus_running (runId : json) (apiKey : string) (st : net_state) :
  keeps_running net ->
  exists s,
    terminal s = false /\
    pollQueryStatus net runId apiKey st
    = (Ok (Some (JStr s)),
       {| clock := clock st
                   + fst (answer net (List.length (sent st)) (status_request runId apiKey));
          sent := (sent st ++ [status_request runId apiKey])%list;
          timers := timers st |}).
Proof.
  intros Hk.
  destruct (Hk (List.length (sent st)) (status_request runId apiKey) eq_refl)
    as (r & s & Ha & Hok & Ht & Hj).
  exists s. split; [exact Ht|].
  unfold pollQueryStatus, bindN. fold (status_request runId apiKey).
  destruct (fetch_run (status_request runId apiKey) st) as (x & -> & Hx).
  rewrite Ha in Hx. subst x. rewrite Hok. cbn [negb]. unfold liftN.
  destruct Hj as [->|[more ->]]; [reflexivity|].
  unfold retN, prop. cbn [List.find fst snd String.eqb Ascii.eqb Bool.eqb nullish_or].
  reflexivity.
Qed.

Lemma wait_times_out (runId : json) (apiKey : string) (start maxWaitMs : Z) :
  forward net -> keeps_running net ->
  forall (fuel : nat) (st : net_state),
    maxWaitMs - (clock st - start) <= 3000 * Z.of_nat fuel ->
    exists st' k,
      wait net fuel runId apiKey start maxWaitMs st
      = Some (Throw (Error "Query timed out"), st') /\
      sent st' = (sent st ++ List.repeat (status_request runId apiKey) k)%list /\
      timers st' = (timers st + k)%nat /\
      (k <= fuel)%nat /\
      (clock st - start < maxWaitMs -> (1 <= k)%nat) /\
      clock st <= clock st' /\
      maxWaitMs <= clock st' - start.
Proof.
  intros [Hd Hl] Hk. induction fuel as [|fuel IH]; intros st Hf.
  - cbn [wait]. destruct (Z.ltb_spec (clock st - start) maxWaitMs) as [H|H]; [lia|].
    exists st, 0%nat. cbn [List.repeat]. rewrite app_nil_r.
    repeat split; auto; lia.
  - cbn [wait]. destruct (Z.ltb_spec (clock st - start) maxWaitMs) as [H|H].
    2:{ exists st, 0%nat. cbn [List.repeat]. rewrite app_nil_r.
        repeat split; auto; lia. }
    destruct (pollQueryStatus_running runId apiKey st Hk) as (s & Ht & ->).
    pose proof (Hd (List.length (sent st)) (status_request runId apiKey)) as Hd0.
    pose proof (Hl (timers st)) as Hl0.
    unfold terminal in Ht. apply orb_false_elim in Ht as [Ht Hc].
    apply orb_false_elim in Ht as [Hs Hfl].
    cbn [is_text is_string]. rewrite Hs, Hfl, Hc. cbn [orb].
    match goal with |- context [wait net fuel _ _ _ _ ?st2] =>
      destruct (IH st2) as (st' & k & E & Hsent & Htm & Hle & _ & Hcl & Hmax)
    end.
    { cbn [sleep snd clock timers]. lia. }
    exists st', (S k). cbn [sleep snd clock sent timers] in Hsent, Htm, Hcl.
    split; [exact E|]. rewrite Hsent, <- app_assoc. cbn [List.repeat app].
    repeat split; auto; lia.
Qed.

(** A run that never finishes is given up on, and only after the time
    limit: when every status request is answered with a status other than
    "success", "failed" and "canceled", a call whose run was accepted
    rejects with "Query timed out", having sent nothing but status
    requests for that run, one before each three-second timer, at most one
    for every started three seconds of the limit and at least one when the
    limit is positive; the results are never requested. *)
Theorem runQueryAndWait_times_out (queryId apiKey : string) (maxWaitMs : Z)
    (params : list (string * string)) (st st1 : net_state) (runId : json) :
  forward net -> keeps_running net ->
  runQuery JSON_stringify net queryId apiKey params st = (Ok runId, st1) ->
  exists st' k,
    runQueryAndWait JSON_stringify net queryId apiKey maxWaitMs params st
    = Some (Throw (Error "Query timed out"), st') /\
    sent st' = (sent st1 ++ List.repeat (status_request runId apiKey) k)%list /\
    timers st' = (timers st1 + k)%nat /\
    (k <= turns maxWaitMs)%nat /\
    (0 < maxWaitMs -> (1 <= k)%nat) /\
    maxWaitMs <= clock st' - clock st1.
Proof.
  intros Hf Hk Hr. unfold runQueryAndWait, runQueryAndWait_turns. rewrite Hr.
  destruct (wait_times_out runId apiKey (clock st1) maxWaitMs Hf Hk (turns maxWaitMs) st1)
    as (st' & k & E & Hs & Ht & Hle & Hone & _ & Hmax).
  { pose proof (turns_enough maxWaitMs). lia. }
  exists st', k. repeat split; auto. intros H. apply Hone. lia.
Qed.

Lemma busy_engine_keeps_running (d : Z) : keeps_running (busy_engine d).
Proof.
  intros n req Hm. eexists _, "running". cbn [busy_engine answer snd].
  split; [reflexivity|]. cbn [ok json_of]. rewrite Hm.
  split; [reflexivity|]. split; [reflexivity|]. left. reflexivity.
Qed.

Lemma nullish_or_text (a b : option json) (s : string) :
  is_text (nullish_or a b) s = true -> a = Some (JStr s) \/ b = Some (JStr s).
Proof.
  intros H.
  assert (forall x, is_text x s = true -> x = Some (JStr s)) as G.
  { intros [[]|] Hx; cbn [is_text is_string] in Hx; try discriminate Hx.
    apply String.eqb_eq in Hx. subst. reflexivity. }
  destruct a as [x|]; [destruct x|]; cbn [nullish_or] in H; apply G in H; auto.
Qed.

Lemma pollQueryStatus_success (runId : json) (apiKey : string) (st st1 : net_state)
    (status : option json) :
  pollQueryStatus net runId apiKey st = (Ok status, st1) ->
  is_text status "success" = true ->
  exists r, snd (answer net (List.length (sent st)) (status_request runId apiKey)) = Response r /\
            names_status r "success".
Proof.
  unfold pollQueryStatus, bindN. fold (status_request runId apiKey).
  destruct (fetch_run (status_request runId apiKey) st) as (x & -> & Hx).
  destruct (snd (answer net (List.length (sent st)) (status_request runId apiKey)))
    as [e|r]; subst x; [intros H; discriminate H|].
  intros H Ht. exists r. split; [reflexivity|]. unfold names_status.
  destruct (ok r) eqn:Hok; cbn [negb] in H; [|discriminate H]. split; [reflexivity|].
  unfold liftN in H. destruct (json_of r) as [data|e]; [|discriminate].
  exists data. split; [reflexivity|].
  destruct data; unfold retN, throwN in H; try discriminate H;
    injection H as <- _.
  all: try (apply nullish_or_text in Ht; tauto).
  all: cbn [is_text is_string] in Ht; try discriminate Ht.
  apply String.eqb_eq in Ht. subst. auto.
Qed.

Lemma getQueryResults_ok (runId : json) (apiKey : string) (st st' : net_state) (v : json) :
  getQueryResults net runId apiKey st = (Ok v, st') ->
  sent st' = (sent st ++ [results_request runId apiKey])%list /\
  exists r, snd (answer net (List.length (sent st)) (results_request runId apiKey)) = Response r /\
            ok r = true /\ json_of r = Ok v.
Proof.
  unfold getQueryResults, bindN. fold (results_request runId apiKey).
  destruct (fetch_run (results_request runId apiKey) st) as (x & -> & Hx).
  destruct (snd (answer net (List.length (sent st)) (results_request runId apiKey)))
    as [e|r]; subst x; [intros H; discriminate H|].
  destruct (ok r) eqn:Hok; cbn [negb]; [|intros H; discriminate H]. unfold liftN.
  intros H. injection H as Hj <-. cbn [sent].
  split; [reflexivity|]. exists r. auto.
Qed.

Lemma wait_result (runId : json) (apiKey : string) (start maxWaitMs : Z) (v : json)
    (st' : net_state) :
  forall (fuel : nat) (st : net_state),
    wait net fuel runId apiKey start maxWaitMs st = Some (Ok v, st') ->
    exists before r0 r,
      sent st' = (before ++ [status_request runId apiKey; results_request runId apiKey])%list /\
      snd (answer net (List.length before) (status_request runId apiKey)) = Response r0 /\
      names_status r0 "success" /\
      snd (answer net (S (List.length before)) (results_request runId apiKey)) = Response r /\
      ok r = true /\ json_of r = Ok v.
Proof.
  induction fuel as [|fuel IH]; intros st; cbn [wait];
    destruct (clock st - start <? maxWaitMs); try (intros H; discriminate H).
  destruct (pollQueryStatus net runId apiKey st) as [[status|e] st1] eqn:Ep;
    [|intros H; discriminate H].
  destruct (is_text status "success") eqn:Es.
  - intros H. injection H as H.
    destruct (pollQueryStatus_success _ _ _ _ _ Ep Es) as (r0 & Ha0 & Hn).
    destruct (getQueryResults_ok _ _ _ _ _ H) as (Hs & r & Ha & Hok & Hj).
    destruct (pollQueryStatus_run runId apiKey st) as (x & Ex).
    rewrite Ep in Ex. injection Ex as _ ->. cbn [sent] in Hs, Ha.
    exists (sent st), r0, r. rewrite Hs, <- app_assoc.
    rewrite length_app, Nat.add_comm in Ha. auto 10.
  - destruct (is_text status "failed" || is_text status "canceled");
      [intros H; discriminate H|].
    apply IH.
Qed.

(** A value comes only from a finished run: whenever the client returns
    a value, after however many turns of its loop, its last two requests
    were the status request and the results request of the run, the
    status answer named "success", and the value is the body of the
    results answer. *)
Theorem runQueryAndWait_result (fuel : nat) (queryId apiKey : string) (maxWaitMs : Z)
    (params : list (string * string)) (st st' : net_state) (v : json) :
  runQueryAndWait_turns JSON_stringify net fuel queryId apiKey maxWaitMs params st
  = Some (Ok v, st') ->
  exists runId before r0 r,
    sent st' = (before ++ [status_request runId apiKey; results_request runId apiKey])%list /\
    snd (answer net (List.length before) (status_request runId apiKey)) = Response r0 /\
    names_status r0 "success" /\
    snd (answer net (S (List.length before)) (results_request runId apiKey)) = Response r /\
    ok r = true /\ json_of r = Ok v.
Proof.
  unfold runQueryAndWait_turns.
  destruct (runQuery JSON_stringify net queryId apiKey params st) as [[runId|e] st1];
    [|intros H; discriminate H].
  intros H. exists runId. exact (wait_result _ _ _ _ _ _ _ _ H).
Qed.

Lemma busy_engine_forward (d : Z) : 0 <= d -> forward (busy_engine d).
Proof. intros H. split; intros; cbn; lia. Qed.

End AlliumFacts.


Lemma runQueryAndWait_times_out_witness :
  exists st' k,
    Allium.runQueryAndWait (fun _ => "") (Allium.busy_engine 200) "q" "key" 30000 []
      {| Allium.clock := 1000; Allium.sent := []; Allium.timers := 0 |}
    = Some (Throw (Error "Query timed out"), st') /\
    Allium.sent st'
    = (Allium.sent
         (snd (Allium.runQuery (fun _ => "") (Allium.busy_engine 200) "q" "key" []
                 {| Allium.clock := 1000; Allium.sent := []; Allium.timers := 0 |}))
       ++ List.repeat (Allium.status_request (JStr "7") "key") k)%list /\
    Allium.timers st' = (0 + k)%nat /\
    (k <= Allium.turns 30000)%nat /\
    (0 < 30000 -> (1 <= k)%nat) /\
    30000 <= Allium.clock st' - 1200.
Proof.
  apply (runQueryAndWait_times_out (fun _ => "") (Allium.busy_engine 200) "q" "key" 30000 []
           {| Allium.clock := 1000; Allium.sent := []; Allium.timers := 0 |}
           (snd (Allium.runQuery (fun _ => "") (Allium.busy_engine 200) "q" "key" []
                   {| Allium.clock := 1000; Allium.sent := []; Allium.timers := 0 |}))
           (JStr "7")).
  - apply busy_engine_forward. lia.
  - apply busy_engine_keeps_running.
  - vm_compute. reflexivity.
Defined.

Lemma runQueryAndWait_result_witness :
  exists runId before r0 r,
    [ {| Allium.method := "POST";
         Allium.url := "https://api.allium.so/api/v1/explorer/queries/q/run-async";
         Allium.req_headers := [("X-API-KEY", "key"); ("Content-Type", "application/json")];
         Allium.req_body := Some (JObj [("parameters", JObj []);
                                        ("compute_profile", JStr "large")]) |};
      Allium.status_request (JStr "7") "key";
      Allium.status_request (JStr "7") "key";
      Allium.results_request (JStr "7") "key" ]
    = (before ++ [Allium.status_request runId "key"; Allium.results_request runId "key"])%list /\
    snd (Allium.answer (Allium.ready_engine (JArr [])) (List.length before)
           (Allium.status_request runId "key")) = Allium.Response r0 /\
    Allium.names_status r0 "success" /\
    snd (Allium.answer (Allium.ready_engine (JArr [])) (S (List.length before))
           (Allium.results_request runId "key")) = Allium.Response r /\
    Allium.ok r = true /\ Allium.json_of r = Ok (JArr []).
Proof.
  apply (runQueryAndWait_result (fun _ => "") (Allium.ready_engine (JArr []))
           (Allium.turns 30000) "q" "key" 30000 []
           {| Allium.clock := 1000; Allium.sent := []; Allium.timers := 0 |}
           {| Allium.clock := 4805;
              Allium.sent :=
                [ {| Allium.method := "POST";
                     Allium.url := "https://api.allium.so/api/v1/explorer/queries/q/run-async";
                     Allium.req_headers := [("X-API-KEY", "key");
                                            ("Content-Type", "application/json")];
                     Allium.req_body := Some (JObj [("parameters", JObj []);
                                                    ("compute_profile", JStr "large")]) |};
                  Allium.status_request (JStr "7") "key";
                  Allium.status_request (JStr "7") "key";
                  Allium.results_request (JStr "7") "key" ];
              Allium.timers := 1 |}
           (JArr [])).
  vm_compute. reflexivity.
Defined.

(** ** The cache in the memory of the server *)

Section MemoryCacheFacts.
Import MemoryCache.

(** What is stored is read back for two hours, the last millisecond
    included: a read of a key at [now'] after a write at [now] returns the
    stored value and leaves the store alone when [now' - now] is at most
    7200000, and otherwise returns null and removes the entry. *)
Theorem memory_cache_round_trip (now now' : Z) (key : string) (d : json) (s : store) :
  cacheGet now' key (cacheSet now key d s)
  = if now' - now <=? 7200000 then (d, cacheSet now key d s) else (JNull, delete key s).
Proof.
  unfold cacheGet, cacheSet, store in *. rewrite lookup_insert_eq. cbn [timestamp data].
  change CACHE_TTL_MS with 7200000.
  destruct (Z.gtb_spec (now' - now) 7200000) as [H|H];
    destruct (Z.leb_spec (now' - now) 7200000) as [H'|H']; try lia; [|reflexivity].
  now rewrite delete_insert_eq.
Qed.

(** Keys do not disturb each other: neither a write nor a read of one
    key, whether it hits, misses or removes an expired entry, changes what
    a read of another key returns. *)
Theorem memory_cache_keys_apart (now t : Z) (key other : string) (d : json) (s : store) :
  key <> other ->
  fst (cacheGet t other (cacheSet now key d s)) = fst (cacheGet t other s) /\
  fst (cacheGet t other (snd (cacheGet now key s))) = fst (cacheGet t other s).
Proof.
  intros Hne. split.
  - unfold cacheGet, cacheSet, store in *. rewrite lookup_insert_ne by exact Hne.
    destruct (s !! other) as [e|]; [|reflexivity].
    destruct (t - timestamp e >? CACHE_TTL_MS); reflexivity.
  - unfold cacheGet at 2. destruct (s !! key) as [e|]; [|reflexivity].
    destruct (now - timestamp e >? CACHE_TTL_MS); [|reflexivity].
    cbn [snd]. unfold cacheGet, store in *. rewrite lookup_delete_ne by exact Hne.
    destruct (s !! other) as [e'|]; [|reflexivity].
    destruct (t - timestamp e' >? CACHE_TTL_MS); reflexivity.
Qed.

End MemoryCacheFacts.

Lemma memory_cache_keys_apart_witness :
  fst (MemoryCache.cacheGet 5 "b" (MemoryCache.cacheSet 1 "a" (JNum 1) ∅))
  = fst (MemoryCache.cacheGet 5 "b" ∅) /\
  fst (MemoryCache.cacheGet 5 "b" (snd (MemoryCache.cacheGet 1 "a" ∅)))
  = fst (MemoryCache.cacheGet 5 "b" ∅).
Proof. apply (memory_cache_keys_apart 1 5 "a" "b" (JNum 1) ∅). discriminate. Defined.

(** ** The hash of an address *)

Section EntitiesFacts.
Import Entities.

Lemma ToInt32_range (x : Z) : - 2 ^ 31 <= ToInt32 x < 2 ^ 31.
Proof. unfold ToInt32. zdiv. Qed.

Lemma ToInt32_multiple (x : Z) : exists k, ToInt32 x = x + k * 2 ^ 32.
Proof.
  exists (- ((x + 2 ^ 31) / 2 ^ 32)). unfold ToInt32. zdiv.
Qed.

Lemma ToInt32_congruent (x y k : Z) : x = y + k * 2 ^ 32 -> ToInt32 x = ToInt32 y.
Proof.
  intros ->. unfold ToInt32.
  replace (y + k * 2 ^ 32 + 2 ^ 31) with (y + 2 ^ 31 + k * 2 ^ 32) by ring.
  now rewrite Z_mod_plus_full.
Qed.

Lemma simpleHash_turn_polynomial (p c : Z) :
  simpleHash_turn (ToInt32 p) c = ToInt32 (31 * p + c).
Proof.
  unfold simpleHash_turn, shl. rewrite Z.shiftl_mul_pow2 by lia.
  change (2 ^ 5) with 32.
  destruct (ToInt32_multiple p) as [k Hk].
  destruct (ToInt32_multiple (ToInt32 p)) as [k1 Hk1].
  destruct (ToInt32_multiple (ToInt32 (ToInt32 p) * 32)) as [k2 Hk2].
  apply (ToInt32_congruent _ _ (k2 + 32 * k1 + 31 * k)).
  rewrite Hk2, Hk1, Hk. generalize (2 ^ 32). intros M. ring.
Qed.

Lemma fold_left_wrapped (f g : Z -> Z -> Z) (wrap : Z -> Z) :
  (forall p c, f (wrap p) c = wrap (g p c)) ->
  forall (codes : list Z) (p : Z),
    fold_left f codes (wrap p) = wrap (fold_left g codes p).
Proof.
  intros H. induction codes as [|c codes IH]; intros p; cbn [fold_left].
  - reflexivity.
  - rewrite H. apply IH.
Qed.

Lemma ToInt32_zero : ToInt32 0 = 0.
Proof. vm_compute. reflexivity. Qed.

(** Wrapping at every turn is wrapping once: the hash is the absolute
    value of the 32-bit wrap of the polynomial in 31 of the code units.
    It is never negative and at most 2^31, a value that is not a signed
    32-bit integer. *)
Theorem simpleHash_polynomial (str : string) :
  simpleHash str = Z.abs (ToInt32 (polynomial31 (charCodes str))) /\
  0 <= simpleHash str <= 2 ^ 31.
Proof.
  assert (simpleHash str = Z.abs (ToInt32 (polynomial31 (charCodes str)))) as E.
  { unfold simpleHash, polynomial31. f_equal.
    pose proof (fold_left_wrapped simpleHash_turn (fun h c => 31 * h + c) ToInt32
                  simpleHash_turn_polynomial (charCodes str) 0) as H.
    rewrite ToInt32_zero in H. exact H. }
  split; [exact E|]. rewrite E.
  pose proof (ToInt32_range (polynomial31 (charCodes str))). lia.
Qed.

(** The bound is met. *)
Example simpleHash_extreme : simpleHash "polygenelubricants" = 2 ^ 31.
Proof. vm_compute. reflexivity. Qed.

End EntitiesFacts.

(** ** The fields of the picker *)

Section PickerFacts.
Import Page.

Lemma fields_of_minute (t : Z) :
  Day (floor_to (60 * 1000) t) = Day t /\
  HourFromTime (floor_to (60 * 1000) t) = HourFromTime t /\
  MinFromTime (floor_to (60 * 1000) t) = MinFromTime t /\
  SecFromTime (floor_to (60 * 1000) t) = 0.
Proof.
  unfold Day, HourFromTime, MinFromTime, SecFromTime, floor_to,
    msPerDay, msPerHour, msPerMinute, msPerSecond.
  repeat split; zdiv.
Qed.

Lemma field_of_stamp (t : Z) :
  toDateTimeInputValue (stamp t)
  = pad4 (YearFromTime t) ++ "-" ++ pad2 (MonthFromTime t + 1) ++ "-" ++ pad2 (DateFromTime t)
    ++ "T" ++ pad2 (HourFromTime t) ++ ":" ++ pad2 (MinFromTime t).
Proof.
  rewrite stamp_format.
  unfold toDateTimeInputValue, pad4, pad3, pad2, slice0.
  cbv [String.append String.substring]. reflexivity.
Qed.

Lemma field_round_trip (t : Z) :
  fromDateTimeInput (toDateTimeInputValue (stamp t)) = stamp (floor_to (60 * 1000) t).
Proof.
  destruct (fields_of_minute t) as (Ed & Eh & Em & Es).
  rewrite field_of_stamp, (stamp_format (floor_to (60 * 1000) t)).
  assert (YearFromTime (floor_to (60 * 1000) t) = YearFromTime t) as Ey
    by (unfold YearFromTime; now rewrite Ed).
  assert (DayWithinYear (floor_to (60 * 1000) t) = DayWithinYear t) as Ew
    by (unfold DayWithinYear; now rewrite Ed, Ey).
  assert (MonthFromTime (floor_to (60 * 1000) t) = MonthFromTime t) as Emo
    by (unfold MonthFromTime; now rewrite Ew, Ey).
  assert (DateFromTime (floor_to (60 * 1000) t) = DateFromTime t) as Eda
    by (unfold DateFromTime; now rewrite Ew, Ey, Emo).
  rewrite Ey, Emo, Eda, Eh, Em, Es.
  unfold fromDateTimeInput, pad4, pad3, pad2.
  cbv [String.append].
  rewrite !(replace_first_skip "T" " ") by (apply digit_not_T || reflexivity).
  rewrite replace_first_hit.
  reflexivity.
Qed.

Lemma field_not_empty (t : Z) : String.eqb (toDateTimeInputValue (stamp t)) "" = false.
Proof. rewrite field_of_stamp. unfold pad4. cbv [String.append]. reflexivity. Qed.

(** In the years that are printed with four digits, from 1970 on, a
    stamp put into a field of the picker and read back is the stamp of
    the same minute, with the seconds set to zero. So the Load button,
    pressed right after a quick preset, hands on the range of the preset
    as it is. *)
Theorem picker_round_trip (t now hours : Z) :
  0 <= t < 253402300800000 ->
  0 <= hours -> hours * (3600 * 1000) + 86400 * 1000 <= now < 253402300800000 ->
  fromDateTimeInput (toDateTimeInputValue (stamp t)) = stamp (floor_to (60 * 1000) t) /\
  handleLoadCustom (toDateTimeInputValue (fst (handleQuickSelect now hours)))
                   (toDateTimeInputValue (snd (handleQuickSelect now hours)))
  = Some (handleQuickSelect now hours).
Proof.
  intros _ _ _.
  split; [apply field_round_trip|].
  unfold handleQuickSelect, handleLoadCustom. cbn [fst snd].
  set (snapMs := if 24 * 7 <=? hours then 86400 * 1000 else 3600 * 1000).
  assert (floor_to snapMs now mod (60 * 1000) = 0) as He.
  { unfold floor_to, snapMs. destruct (24 * 7 <=? hours); zdiv. }
  assert ((floor_to snapMs now - hours * 3600 * 1000) mod (60 * 1000) = 0) as Hs by zdiv.
  rewrite !field_not_empty. cbn [orb]. rewrite !field_round_trip.
  unfold floor_to at 1 3.
  replace ((floor_to snapMs now - hours * 3600 * 1000) / (60 * 1000) * (60 * 1000))
    with (floor_to snapMs now - hours * 3600 * 1000) by zdiv.
  replace (floor_to snapMs now / (60 * 1000) * (60 * 1000))
    with (floor_to snapMs now) by zdiv.
  reflexivity.
Qed.

End PickerFacts.

Lemma picker_round_trip_witness :
  Page.fromDateTimeInput (Page.toDateTimeInputValue (stamp 1736166572123))
  = stamp (floor_to (60 * 1000) 1736166572123) /\
  Page.handleLoadCustom
    (Page.toDateTimeInputValue (fst (Page.handleQuickSelect 1736166572123 6)))
    (Page.toDateTimeInputValue (snd (Page.handleQuickSelect 1736166572123 6)))
  = Some (Page.handleQuickSelect 1736166572123 6).
Proof. apply (picker_round_trip 1736166572123 1736166572123 6); lia. Defined.
